(** * primasynth: the per-voice DSP kernel, embedded and verified

    A shallow embedding of [conversion.cpp], [stereovalue.cpp] and
    [voice.cpp], with the properties the design document states about them.

    Conventions of the embedding.
    - A C++ [double] is a real number ([R]): there is no NaN and no
      infinity, and arithmetic is exact, except where a rounded result
      picks a slot of a lookup table: the product [key * 100] of
      [keyToHeltz] is rounded to the nearest double ([Binary64.mul]).
      [std::pow], [std::exp2] and [std::sin] are [Rpower] and [sin].
    - Unsigned machine integers are [Z] with the wrap-around written out
      ([wrap32], [wrap64]).
    - [std::array::at] and [std::vector::at] throw [std::out_of_range]; a
      function that reaches one returns an [outcome], and the exception is
      the value [out_of_range]. *)

From Stdlib Require Import Reals ZArith List Lia Lra Bool.
From Equations Require Import Equations.
Import ListNotations.

(** ** Machine integers *)

Definition wrap32 (z : Z) : Z := z mod 2 ^ 32.
Definition wrap64 (z : Z) : Z := z mod 2 ^ 64.
Definition wrap16 (z : Z) : Z := z mod 2 ^ 16.

(** [static_cast] of a [double] to an unsigned integer type truncates toward
    zero. *)
Definition Rtrunc (x : R) : Z :=
  if Rlt_dec x 0 then Zceil x else Zfloor x.

Definition size_t_of_double (x : R) : Z := wrap64 (Rtrunc x).

(** [static_cast<std::int16_t>] of a [double]: the truncation, read as a
    signed 16-bit value. *)
Definition int16_of_double (x : R) : Z :=
  ((Rtrunc x + 2 ^ 15) mod 2 ^ 16 - 2 ^ 15)%Z.

(** ** Doubles

    IEEE 754 binary64, round to nearest, ties to even, on the reals: 53
    significant bits, the subnormals below [2^-1022], and no overflow (a
    result past the largest double stays the finite real it is; every
    comparison the code makes on such a result comes out as it does on
    [+inf]). *)

Module Binary64.

Open Scope R_scope.

(** The exponent [e] of a non-zero real: [2^e <= |x| < 2^(e+1)]. *)
Definition binade (x : R) : Z := Zfloor (ln (Rabs x) / ln 2).

(** The spacing of the doubles around [x]. *)
Definition ulp (x : R) : R := powerRZ 2 (Z.max (binade x) (-1022) - 52).

(** The whole number nearest to [t]; of two equally near, the even one. *)
Definition nearest_even (t : R) : Z :=
  let f := Zfloor t in
  if Rlt_dec (t - IZR f) (1 / 2) then f
  else if Rlt_dec (1 / 2) (t - IZR f) then (f + 1)%Z
  else if Z.even f then f else (f + 1)%Z.

Definition round (x : R) : R :=
  if Req_dec_T x 0 then 0 else IZR (nearest_even (x / ulp x)) * ulp x.

(** [x] is a finite double. *)
Definition representable (x : R) : Prop :=
  round x = x /\ Rabs x < powerRZ 2 1024.

(** [a * b] on doubles. *)
Definition mul (a b : R) : R := round (a * b).

End Binary64.

(** ** Checked indexing *)

Inductive outcome (A : Type) : Type :=
| ret (a : A)
| out_of_range.
Arguments ret {A} a.
Arguments out_of_range {A}.

Definition bind {A B : Type} (m : outcome A) (k : A -> outcome B) : outcome B :=
  match m with
  | ret a => k a
  | out_of_range => out_of_range
  end.

Notation "x <- m ;; k" := (bind m (fun x => k))
  (at level 61, m at next level, right associativity).

(** [t.at(i)] for an index of type [std::size_t]. *)
Definition at_ {A : Type} (t : list A) (i : Z) : outcome A :=
  if (i <? 0)%Z then out_of_range
  else match nth_error t (Z.to_nat i) with
       | Some a => ret a
       | None => out_of_range
       end.

(** ** conversion.cpp *)

Module conv.

Open Scope R_scope.

Definition pow (x y : R) : R := Rpower x y.
Definition exp2 (x : R) : R := Rpower 2 x.

(** The two file-scope arrays and the function-local [initialized] flag. *)
Record Tables : Type := mkTables {
  centibelToRatioTable : list R;
  centToHeltzTable : list R;
  initialized : bool
}.

(** Static storage is zero-initialised. *)
Definition static_tables : Tables :=
  mkTables (repeat 0 1441) (repeat 0 1200) false.

(** [for (i = 0; i < table.size(); ++i) table.at(i) = f(i);] started at
    slot [i]. *)
Fixpoint fill_from (f : nat -> R) (i : nat) (t : list R) : list R :=
  match t with
  | [] => []
  | _ :: rest => f i :: fill_from f (S i) rest
  end.

Definition initialize (T : Tables) : Tables :=
  if initialized T then T
  else mkTables
         (fill_from (fun i => pow 10 (INR i / -200)) 0 (centibelToRatioTable T))
         (fill_from (fun i => 6.875 * exp2 (INR i / 1200)) 0 (centToHeltzTable T))
         true.

(** The tables every later call reads: [initialize()] has run once. *)
Definition tables : Tables := initialize static_tables.

Definition centibelToRatio (T : Tables) (cb : R) : outcome R :=
  if Rle_dec cb 0 then ret 1
  else if Rge_dec cb (INR (length (centibelToRatioTable T))) then ret 0
  else at_ (centibelToRatioTable T) (size_t_of_double cb).

(** What the design document gives for [centibelToRatio] (section 4.1): the
    closed form the code is compared with. *)
Definition centibelToRatio_value (cb : R) : R :=
  if Rle_dec cb 0 then 1
  else if Rle_dec 1441 cb then 0
  else Rpower 10 (IZR (Zfloor cb) / -200).

(** What the design document gives for [keyToHz] (section 4.1) on a key of
    octave [k], the octave whose threshold [900 + 1200 k] is the first above
    [key * 100]: [2^k * 6.875 * 2^((key * 100 + offset) / 1200)] with
    [offset = 300 - 1200 k], the key taken in whole cents. *)
Definition keyToHeltz_value (k : nat) (key : R) : R :=
  2 ^ k * (6.875 * Rpower 2 (IZR (Zfloor (key * 100) + 300 - 1200 * Z.of_nat k) / 1200)).

(** Thresholds the [while (th <= 14100)] loop of [keyToHeltz] has still to
    visit: the measure of its termination. *)
Definition thresholds_left (th : Z) : nat := Z.to_nat (14101 - th).
Arguments thresholds_left : simpl never.

(** The loop itself; [offset] is a [std::size_t] and wraps below zero, [th]
    is an [int], and [key * 100] is a product of doubles. *)
Equations keyToHeltz_loop (T : Tables) (key : R) (offset th : Z) (r : R)
  : outcome R by wf (thresholds_left th) lt :=
  keyToHeltz_loop T key offset th r with Z_le_dec th 14100 => {
    | left _ =>
        if Rlt_dec (Binary64.mul key 100) (IZR th)
        then x <- at_ (centToHeltzTable T)
                      (wrap64 (size_t_of_double (Binary64.mul key 100) + offset)) ;;
             ret (r * x)
        else keyToHeltz_loop T key (wrap64 (offset - 1200)) (th + 1200) (r * 2.0)
    | right _ => ret 1 }.
Next Obligation. unfold thresholds_left. lia. Qed.

Definition keyToHeltz (T : Tables) (key : R) : outcome R :=
  if Rlt_dec key 0 then ret 1
  else keyToHeltz_loop T key 300 900 1.

Definition timecentToSecond (tc : R) : R := exp2 (tc / 1200).

Definition absoluteCentToHeltz (ac : R) : R := 8.176 * exp2 (ac / 1200).

(** [joinBytes]: both bytes are widened to 16 bits, the shift and the sum
    are computed as [int], and the result narrows to [std::uint16_t]. *)
Definition joinBytes (msb lsb : Z) : Z :=
  wrap16 (Z.shiftl (wrap16 msb) 7 + wrap16 lsb).

(** The octave of a key of [cents = key * 100]: the number of thresholds
    the loop of [keyToHeltz] skips before [key * 100 < th] holds. *)
Definition octave (cents : R) : nat :=
  Z.to_nat (Zfloor ((cents + 300) / 1200)).

(** What the loop returns in octave [k]: [r = 2^k] times the table slot
    [static_cast<std::size_t>(cents) + offset], [offset = 300 - 1200 k]. *)
Definition octave_value (k : nat) (cents : R) : R :=
  2 ^ k * (6.875 * Rpower 2 (IZR (Zfloor cents + 300 - 1200 * Z.of_nat k) / 1200)).

End conv.

(** ** stereovalue.cpp *)

Record StereoValue : Type := mkStereo { left : R; right : R }.

Module Stereo.

Open Scope R_scope.

(** [StereoValue::operator+(const StereoValue&)] *)
Definition add (a b : StereoValue) : StereoValue :=
  mkStereo (left a + left b) (right a + right b).

(** [StereoValue::operator*(double)] *)
Definition scale (a : StereoValue) (b : R) : StereoValue :=
  mkStereo (left a * b) (right a * b).

(** [StereoValue::operator*(const StereoValue&)] *)
Definition mul (a b : StereoValue) : StereoValue :=
  mkStereo (left a * left b) (right a * right b).

(** [StereoValue::operator+=]: the new value of [*this]. *)
Definition add_assign (a b : StereoValue) : StereoValue :=
  mkStereo (left a + left b) (right a + right b).

(** [operator*(double, const StereoValue&)] *)
Definition scaled_by (a : R) (b : StereoValue) : StereoValue :=
  mkStereo (a * left b) (a * right b).

End Stereo.

(** ** Declarations the voice relies on

    [fixedpoint.h], [soundfont.h] and [voice.h] are not among the sources;
    what [voice.cpp] needs of them is written here from the design
    document. *)

(** Modelled from the spec: the class [FixedPoint] (section 4.2), a 64-bit
    pattern with 32 fractional bits: construction from an unsigned frame
    count and from a [double], [+=], [-=], the integer part as a 32-bit
    unsigned value and the fractional part in [[0,1)].  Sums and
    differences wrap at 64 bits. *)
Record FixedPoint : Type := mkFixedPoint { raw : Z }.

Module Fixed.

Definition of_uint32 (n : Z) : FixedPoint :=
  mkFixedPoint (wrap64 (Z.shiftl n 32)).

Definition of_double (x : R) : FixedPoint :=
  mkFixedPoint (wrap64 (Zfloor (x * IZR (2 ^ 32)))).

Definition add (a b : FixedPoint) : FixedPoint :=
  mkFixedPoint (wrap64 (raw a + raw b)).

Definition sub (a b : FixedPoint) : FixedPoint :=
  mkFixedPoint (wrap64 (raw a - raw b)).

Definition getIntegerPart (a : FixedPoint) : Z :=
  wrap32 (Z.shiftr (raw a) 32).

Definition getFractionalPart (a : FixedPoint) : R :=
  (IZR (Z.land (raw a) (2 ^ 32 - 1)) / IZR (2 ^ 32))%R.

End Fixed.

(** Modelled from the spec: the enumeration [SFGenerator] (section 3,
    "generator key space"): the destinations [voice.cpp] names, and the
    filter and effect generators of the SoundFont format, which the voice
    treats like any destination without a side effect. *)
Module SFGenerator.

Inductive t : Type :=
| startAddrsOffset | endAddrsOffset | startloopAddrsOffset | endloopAddrsOffset
| startAddrsCoarseOffset | modLfoToPitch | vibLfoToPitch | modEnvToPitch
| initialFilterFc | initialFilterQ | modLfoToFilterFc | modEnvToFilterFc
| endAddrsCoarseOffset | modLfoToVolume | chorusEffectsSend | reverbEffectsSend
| pan | delayModLFO | freqModLFO | delayVibLFO | freqVibLFO
| delayModEnv | attackModEnv | holdModEnv | decayModEnv | sustainModEnv
| releaseModEnv | keynumToModEnvHold | keynumToModEnvDecay
| delayVolEnv | attackVolEnv | holdVolEnv | decayVolEnv | sustainVolEnv
| releaseVolEnv | keynumToVolEnvHold | keynumToVolEnvDecay
| startloopAddrsCoarseOffset | keynum | velocity | initialAttenuation
| endloopAddrsCoarseOffset | coarseTune | fineTune | sampleModes
| scaleTuning | exclusiveClass | overridingRootKey | pitch.

Scheme Equality for t.

End SFGenerator.

(** Modelled from the spec: the general controllers of section 3. *)
Module SFGeneralController.

Inductive t : Type :=
| none | noteOnVelocity | noteOnKeyNumber | polyPressure
| channelPressure | pitchWheel | pitchWheelSensitivity | link.

Scheme Equality for t.

End SFGeneralController.

(** Modelled from the spec: the loop modes of section 3 and of the
    glossary; [other] stands for a [sampleModes] value that names no
    enumerator, which the [switch] of [Voice::update] does not handle. *)
Module SampleMode.

Inductive t : Type :=
| UnLooped | Looped | UnUsed | LoopedWithRemainder | other.

Definition of_int16 (z : Z) : t :=
  match z with
  | 0%Z => UnLooped
  | 1%Z => Looped
  | 2%Z => UnUsed
  | 3%Z => LoopedWithRemainder
  | _ => other
  end.

End SampleMode.

(** Modelled from the spec: [GeneratorSet] (section 3), a dense mapping from
    destination to a signed 16-bit amount in which the defaults are already
    merged; [getOrDefault] reads an entry and [set] overwrites one. *)
Module GeneratorSet.

Definition t : Type := SFGenerator.t -> Z.

Definition getOrDefault (g : t) (type : SFGenerator.t) : Z := g type.

Definition set (type : SFGenerator.t) (amount : Z) (g : t) : t :=
  fun d => if SFGenerator.t_beq d type then amount else g d.

End GeneratorSet.

(** Modelled from the spec: the bank's [Sample] (section 6): addresses and
    rate are 32-bit unsigned, [key] is the root key, [correction] the pitch
    correction in cents, [buffer] the 16-bit waveform the sound font
    shares. *)
Module Sample.

Record t : Type := mk {
  start : Z;
  end_ : Z;
  startLoop : Z;
  endLoop : Z;
  sampleRate : Z;
  key : Z;
  correction : Z;
  buffer : list Z
}.

End Sample.

(** [Envelope::Section] *)
Module Section_.

Inductive t : Type :=
| Delay | Attack | Hold | Decay | Sustain | Release | Finished.

End Section_.

(** The voice's own copy of the sample metadata, [sample_]. *)
Module RuntimeSample.

Record t : Type := mk {
  buffer : list Z;
  pitch : R;
  mode : SampleMode.t;
  start : Z;
  end_ : Z;
  startLoop : Z;
  endLoop : Z
}.

End RuntimeSample.

(** ** Collaborators of the voice

    [envelope.h], [lfo.h] and the body of [Modulator] are not among the
    sources.  The voice is written over their interfaces: a method that
    mutates its object is a function to the new object. *)

(** Modelled from the spec: the contract of [Envelope] (section 4.4);
    [finish()] forces the envelope into its finished state. *)
Module Envelope.

Class ops (E : Type) : Type := {
  make : R -> E;
  setParameter : Section_.t -> R -> E -> E;
  update : FixedPoint -> E -> E;
  release : E -> E;
  finish : E -> E;
  getValue : E -> R;
  isFinished : E -> bool;
  isFinished_finish : forall e, isFinished (finish e) = true
}.

End Envelope.

(** Modelled from the spec: the contract of [LFO] (section 4.5). *)
Module LFO.

Class ops (L : Type) : Type := {
  make : R -> L;
  setDelay : R -> L -> L;
  setFrequency : R -> L -> L;
  update : FixedPoint -> L -> L;
  getValue : L -> R
}.

End LFO.

(** [modulator.h]: [P] is the descriptor [sfModList] the modulator is built
    from.  The destination is read from the descriptor, which the class
    keeps in a [const] member: no update changes it (section 4.6: "it is
    constant"). *)
Module Modulator.

Class ops (P M : Type) : Type := {
  make : P -> M;
  isSourceSFController : SFGeneralController.t -> M -> bool;
  isSourceMIDIController : Z -> M -> bool;
  updateSFController : SFGeneralController.t -> Z -> M -> M;
  updateMIDIController : Z -> Z -> M -> M;
  getDestination : M -> SFGenerator.t;
  getValue : M -> R;
  getDestination_updateSFController :
    forall c x m, getDestination (updateSFController c x m) = getDestination m;
  getDestination_updateMIDIController :
    forall c x m, getDestination (updateMIDIController c x m) = getDestination m
}.

End Modulator.

(** ** voice.cpp *)

Definition calculatePannedVolume (pan : R) : StereoValue :=
  if Rle_dec pan (-500.0) then mkStereo 1.0 0.0
  else if Rge_dec pan 500.0 then mkStereo 0.0 1.0
  else
    let f := (3.141592653589793 / 2000.0)%R in
    mkStereo (sin (f * (- pan + 500.0))) (sin (f * (pan + 500.0))).

(** [v.at(i) = x] on a vector: the new vector (out of range it would throw;
    the voice only writes at an index it has just read). *)
Fixpoint assign_at {A : Type} (i : nat) (x : A) (l : list A) : list A :=
  match l, i with
  | [], _ => []
  | _ :: rest, O => x :: rest
  | y :: rest, S j => y :: assign_at j x rest
  end.

Module Voice.

Section Components.

Context {E L P M : Type}.
Context {envelope : Envelope.ops E} {lfo : LFO.ops L} {modulator : Modulator.ops P M}.

Record t : Type := mk {
  noteID_ : Z;
  sample_ : RuntimeSample.t;
  generators_ : GeneratorSet.t;
  actualKey_ : Z;
  key_ : Z;
  velocity_ : Z;
  modulators_ : list M;
  modulations_ : SFGenerator.t -> R;
  voicePitch_ : R;
  released_ : bool;
  phase_ : FixedPoint;
  deltaPhase_ : FixedPoint;
  deltaPhaseFactor_ : R;
  volume_ : StereoValue;
  volEnv_ : E;
  modEnv_ : E;
  vibLFO_ : L;
  modLFO_ : L
}.

Definition with_generators (x : GeneratorSet.t) (v : t) : t :=
  mk (noteID_ v) (sample_ v) x (actualKey_ v) (key_ v) (velocity_ v)
     (modulators_ v) (modulations_ v) (voicePitch_ v) (released_ v)
     (phase_ v) (deltaPhase_ v) (deltaPhaseFactor_ v) (volume_ v)
     (volEnv_ v) (modEnv_ v) (vibLFO_ v) (modLFO_ v).

Definition with_modulators (x : list M) (v : t) : t :=
  mk (noteID_ v) (sample_ v) (generators_ v) (actualKey_ v) (key_ v)
     (velocity_ v) x (modulations_ v) (voicePitch_ v) (released_ v)
     (phase_ v) (deltaPhase_ v) (deltaPhaseFactor_ v) (volume_ v)
     (volEnv_ v) (modEnv_ v) (vibLFO_ v) (modLFO_ v).

Definition with_modulations (x : SFGenerator.t -> R) (v : t) : t :=
  mk (noteID_ v) (sample_ v) (generators_ v) (actualKey_ v) (key_ v)
     (velocity_ v) (modulators_ v) x (voicePitch_ v) (released_ v)
     (phase_ v) (deltaPhase_ v) (deltaPhaseFactor_ v) (volume_ v)
     (volEnv_ v) (modEnv_ v) (vibLFO_ v) (modLFO_ v).

Definition with_voicePitch (x : R) (v : t) : t :=
  mk (noteID_ v) (sample_ v) (generators_ v) (actualKey_ v) (key_ v)
     (velocity_ v) (modulators_ v) (modulations_ v) x (released_ v)
     (phase_ v) (deltaPhase_ v) (deltaPhaseFactor_ v) (volume_ v)
     (volEnv_ v) (modEnv_ v) (vibLFO_ v) (modLFO_ v).

Definition with_released (x : bool) (v : t) : t :=
  mk (noteID_ v) (sample_ v) (generators_ v) (actualKey_ v) (key_ v)
     (velocity_ v) (modulators_ v) (modulations_ v) (voicePitch_ v) x
     (phase_ v) (deltaPhase_ v) (deltaPhaseFactor_ v) (volume_ v)
     (volEnv_ v) (modEnv_ v) (vibLFO_ v) (modLFO_ v).

Definition with_phase (x : FixedPoint) (v : t) : t :=
  mk (noteID_ v) (sample_ v) (generators_ v) (actualKey_ v) (key_ v)
     (velocity_ v) (modulators_ v) (modulations_ v) (voicePitch_ v)
     (released_ v) x (deltaPhase_ v) (deltaPhaseFactor_ v) (volume_ v)
     (volEnv_ v) (modEnv_ v) (vibLFO_ v) (modLFO_ v).

Definition with_deltaPhase (x : FixedPoint) (v : t) : t :=
  mk (noteID_ v) (sample_ v) (generators_ v) (actualKey_ v) (key_ v)
     (velocity_ v) (modulators_ v) (modulations_ v) (voicePitch_ v)
     (released_ v) (phase_ v) x (deltaPhaseFactor_ v) (volume_ v)
     (volEnv_ v) (modEnv_ v) (vibLFO_ v) (modLFO_ v).

Definition with_volume (x : StereoValue) (v : t) : t :=
  mk (noteID_ v) (sample_ v) (generators_ v) (actualKey_ v) (key_ v)
     (velocity_ v) (modulators_ v) (modulations_ v) (voicePitch_ v)
     (released_ v) (phase_ v) (deltaPhase_ v) (deltaPhaseFactor_ v) x
     (volEnv_ v) (modEnv_ v) (vibLFO_ v) (modLFO_ v).

Definition with_volEnv (x : E) (v : t) : t :=
  mk (noteID_ v) (sample_ v) (generators_ v) (actualKey_ v) (key_ v)
     (velocity_ v) (modulators_ v) (modulations_ v) (voicePitch_ v)
     (released_ v) (phase_ v) (deltaPhase_ v) (deltaPhaseFactor_ v)
     (volume_ v) x (modEnv_ v) (vibLFO_ v) (modLFO_ v).

Definition with_modEnv (x : E) (v : t) : t :=
  mk (noteID_ v) (sample_ v) (generators_ v) (actualKey_ v) (key_ v)
     (velocity_ v) (modulators_ v) (modulations_ v) (voicePitch_ v)
     (released_ v) (phase_ v) (deltaPhase_ v) (deltaPhaseFactor_ v)
     (volume_ v) (volEnv_ v) x (vibLFO_ v) (modLFO_ v).

Definition with_vibLFO (x : L) (v : t) : t :=
  mk (noteID_ v) (sample_ v) (generators_ v) (actualKey_ v) (key_ v)
     (velocity_ v) (modulators_ v) (modulations_ v) (voicePitch_ v)
     (released_ v) (phase_ v) (deltaPhase_ v) (deltaPhaseFactor_ v)
     (volume_ v) (volEnv_ v) (modEnv_ v) x (modLFO_ v).

Definition with_modLFO (x : L) (v : t) : t :=
  mk (noteID_ v) (sample_ v) (generators_ v) (actualKey_ v) (key_ v)
     (velocity_ v) (modulators_ v) (modulations_ v) (voicePitch_ v)
     (released_ v) (phase_ v) (deltaPhase_ v) (deltaPhaseFactor_ v)
     (volume_ v) (volEnv_ v) (modEnv_ v) (vibLFO_ v) x.

(** Members the constructor's initialiser list leaves out keep whatever
    their declarations in [voice.h] give them. *)
Variable indeterminate_voicePitch : R.
Variable indeterminate_deltaPhase : FixedPoint.

Definition getModulatedGenerator (v : t) (type : SFGenerator.t) : R :=
  (IZR (GeneratorSet.getOrDefault (generators_ v) type) + modulations_ v type)%R.

(** The body of the accumulation loop of [updateModulatedParams]:
    [if (mod.getDestination() == destination) modulation += mod.getValue()]. *)
Definition add_if (destination : SFGenerator.t) (modulation : R) (m : M) : R :=
  if SFGenerator.t_beq (Modulator.getDestination m) destination
  then (modulation + Modulator.getValue m)%R
  else modulation.

Definition accumulate (destination : SFGenerator.t) (mods : list M) : R :=
  fold_left (add_if destination) mods 0%R.

Definition assign_modulation (destination : SFGenerator.t) (x : R)
  (modulations : SFGenerator.t -> R) : SFGenerator.t -> R :=
  fun d => if SFGenerator.t_beq d destination then x else modulations d.

Definition updateModulatedParams (destination : SFGenerator.t) (v0 : t) : outcome t :=
  let v :=
    with_modulations
      (assign_modulation destination (accumulate destination (modulators_ v0))
         (modulations_ v0)) v0 in
  let modulated := getModulatedGenerator v in
  let toward_key (g : SFGenerator.t) := (modulated g * (60 - IZR (key_ v)))%R in
  match destination with
  | SFGenerator.pan
  | SFGenerator.initialAttenuation =>
      let atten :=
        (0.4 * IZR (GeneratorSet.getOrDefault (generators_ v) SFGenerator.initialAttenuation)
         + modulations_ v SFGenerator.initialAttenuation)%R in
      ratio <- conv.centibelToRatio conv.tables atten ;;
      ret (with_volume
             (Stereo.scaled_by ratio (calculatePannedVolume (modulated SFGenerator.pan))) v)
  | SFGenerator.delayModLFO =>
      ret (with_modLFO (LFO.setDelay (modulated SFGenerator.delayModLFO) (modLFO_ v)) v)
  | SFGenerator.freqModLFO =>
      ret (with_modLFO (LFO.setFrequency (modulated SFGenerator.freqModLFO) (modLFO_ v)) v)
  | SFGenerator.delayVibLFO =>
      ret (with_vibLFO (LFO.setDelay (modulated SFGenerator.delayVibLFO) (vibLFO_ v)) v)
  | SFGenerator.freqVibLFO =>
      ret (with_vibLFO (LFO.setFrequency (modulated SFGenerator.freqVibLFO) (vibLFO_ v)) v)
  | SFGenerator.delayModEnv =>
      ret (with_modEnv
             (Envelope.setParameter Section_.Delay
                (modulated SFGenerator.delayModEnv) (modEnv_ v)) v)
  | SFGenerator.attackModEnv =>
      ret (with_modEnv
             (Envelope.setParameter Section_.Attack
                (modulated SFGenerator.attackModEnv) (modEnv_ v)) v)
  | SFGenerator.holdModEnv
  | SFGenerator.keynumToModEnvHold =>
      ret (with_modEnv
             (Envelope.setParameter Section_.Hold
                (modulated SFGenerator.holdModEnv
                 + toward_key SFGenerator.keynumToModEnvHold)%R (modEnv_ v)) v)
  | SFGenerator.decayModEnv
  | SFGenerator.keynumToModEnvDecay =>
      ret (with_modEnv
             (Envelope.setParameter Section_.Decay
                (modulated SFGenerator.decayModEnv
                 + toward_key SFGenerator.keynumToModEnvDecay)%R (modEnv_ v)) v)
  | SFGenerator.sustainModEnv =>
      ret (with_modEnv
             (Envelope.setParameter Section_.Sustain
                (modulated SFGenerator.sustainModEnv) (modEnv_ v)) v)
  | SFGenerator.releaseModEnv =>
      ret (with_modEnv
             (Envelope.setParameter Section_.Release
                (modulated SFGenerator.releaseModEnv) (modEnv_ v)) v)
  | SFGenerator.delayVolEnv =>
      ret (with_volEnv
             (Envelope.setParameter Section_.Delay
                (modulated SFGenerator.delayVolEnv) (volEnv_ v)) v)
  | SFGenerator.attackVolEnv =>
      ret (with_volEnv
             (Envelope.setParameter Section_.Attack
                (modulated SFGenerator.attackVolEnv) (volEnv_ v)) v)
  | SFGenerator.holdVolEnv
  | SFGenerator.keynumToVolEnvHold =>
      ret (with_volEnv
             (Envelope.setParameter Section_.Hold
                (modulated SFGenerator.holdVolEnv
                 + toward_key SFGenerator.keynumToVolEnvHold)%R (volEnv_ v)) v)
  | SFGenerator.decayVolEnv
  | SFGenerator.keynumToVolEnvDecay =>
      ret (with_volEnv
             (Envelope.setParameter Section_.Decay
                (modulated SFGenerator.decayVolEnv
                 + toward_key SFGenerator.keynumToVolEnvDecay)%R (volEnv_ v)) v)
  | SFGenerator.sustainVolEnv =>
      ret (with_volEnv
             (Envelope.setParameter Section_.Sustain
                (modulated SFGenerator.sustainVolEnv) (volEnv_ v)) v)
  | SFGenerator.releaseVolEnv =>
      ret (with_volEnv
             (Envelope.setParameter Section_.Release
                (modulated SFGenerator.releaseVolEnv) (volEnv_ v)) v)
  | SFGenerator.coarseTune
  | SFGenerator.fineTune
  | SFGenerator.scaleTuning
  | SFGenerator.pitch =>
      let sample_pitch := RuntimeSample.pitch (sample_ v) in
      ret (with_voicePitch
             (sample_pitch
              + 1e-4 * modulations_ v SFGenerator.pitch
              + 0.01 * modulated SFGenerator.scaleTuning
                * (IZR (actualKey_ v) - sample_pitch)
              + modulated SFGenerator.coarseTune
              + 0.01 * modulated SFGenerator.fineTune)%R v)
  | _ => ret v
  end.

(** The loop shared by [updateSFController] and [updateMIDIController]:
    [for (auto& mod : modulators_) if (matches(mod)) { deliver(mod);
    updateModulatedParams(mod.getDestination()); }], with [count] modulators
    left to visit from index [i]. *)
Fixpoint forward_to_modulators (matches : M -> bool) (deliver : M -> M)
  (count i : nat) (v : t) : outcome t :=
  match count with
  | O => ret v
  | S count' =>
      match nth_error (modulators_ v) i with
      | None => ret v
      | Some m =>
          if matches m
          then
            let m' := deliver m in
            v' <- updateModulatedParams (Modulator.getDestination m')
                    (with_modulators (assign_at i m' (modulators_ v)) v) ;;
            forward_to_modulators matches deliver count' (S i) v'
          else forward_to_modulators matches deliver count' (S i) v
      end
  end.

Definition updateSFController (controller : SFGeneralController.t) (value : Z)
  (v : t) : outcome t :=
  forward_to_modulators
    (Modulator.isSourceSFController controller)
    (Modulator.updateSFController controller value)
    (length (modulators_ v)) 0 v.

Definition updateMIDIController (controller value : Z) (v : t) : outcome t :=
  forward_to_modulators
    (Modulator.isSourceMIDIController controller)
    (Modulator.updateMIDIController controller value)
    (length (modulators_ v)) 0 v.

Definition overrideGenerator (generator : SFGenerator.t) (value : Z) (v : t) : t :=
  with_generators (GeneratorSet.set generator value (generators_ v)) v.

Definition INIT_GENERATORS : list SFGenerator.t :=
  [ SFGenerator.pan;
    SFGenerator.delayModLFO; SFGenerator.freqModLFO;
    SFGenerator.delayVibLFO; SFGenerator.freqVibLFO;
    SFGenerator.delayModEnv; SFGenerator.attackModEnv; SFGenerator.holdModEnv;
    SFGenerator.decayModEnv; SFGenerator.sustainModEnv; SFGenerator.releaseModEnv;
    SFGenerator.delayVolEnv; SFGenerator.attackVolEnv; SFGenerator.holdVolEnv;
    SFGenerator.decayVolEnv; SFGenerator.sustainVolEnv; SFGenerator.releaseVolEnv;
    SFGenerator.coarseTune ].

Fixpoint updateModulatedParams_each (gens : list SFGenerator.t) (v : t) : outcome t :=
  match gens with
  | [] => ret v
  | generator :: rest =>
      v' <- updateModulatedParams generator v ;;
      updateModulatedParams_each rest v'
  end.

(** [Voice::Voice] *)
Definition make (noteID : Z) (outputRate : R) (sample : Sample.t)
  (generators : GeneratorSet.t) (modparams : list P) (key velocity : Z) : outcome t :=
  let gen := GeneratorSet.getOrDefault generators in
  let overriddenKey := gen SFGenerator.keynum in
  let overriddenVelocity := gen SFGenerator.velocity in
  let overriddenSampleKey := gen SFGenerator.overridingRootKey in
  let address (bank coarse fine : Z) := wrap32 (bank + 32768 * coarse + fine) in
  let sample_ :=
    RuntimeSample.mk
      (Sample.buffer sample)
      (IZR (if (0 <? overriddenSampleKey)%Z then overriddenSampleKey else Sample.key sample)
       - 0.01 * IZR (Sample.correction sample))%R
      (SampleMode.of_int16 (gen SFGenerator.sampleModes))
      (address (Sample.start sample)
         (gen SFGenerator.startAddrsCoarseOffset) (gen SFGenerator.startAddrsOffset))
      (address (Sample.end_ sample)
         (gen SFGenerator.endAddrsCoarseOffset) (gen SFGenerator.endAddrsOffset))
      (address (Sample.startLoop sample)
         (gen SFGenerator.startloopAddrsCoarseOffset) (gen SFGenerator.startloopAddrsOffset))
      (address (Sample.endLoop sample)
         (gen SFGenerator.endloopAddrsCoarseOffset) (gen SFGenerator.endloopAddrsOffset)) in
  hz <- conv.keyToHeltz conv.tables (RuntimeSample.pitch sample_) ;;
  let v0 :=
    mk noteID sample_ generators key
       (if (0 <? overriddenKey)%Z then overriddenKey else key)
       (if (0 <? overriddenVelocity)%Z then overriddenVelocity else velocity)
       (map Modulator.make modparams)
       (fun _ => 0%R)
       indeterminate_voicePitch
       false
       (Fixed.of_uint32 (Sample.start sample))
       indeterminate_deltaPhase
       (1.0 / hz * IZR (Sample.sampleRate sample) / outputRate)%R
       (mkStereo 1.0 1.0)
       (Envelope.make outputRate) (Envelope.make outputRate)
       (LFO.make outputRate) (LFO.make outputRate) in
  v1 <- updateSFController SFGeneralController.noteOnVelocity velocity v0 ;;
  v2 <- updateSFController SFGeneralController.noteOnKeyNumber key v1 ;;
  v3 <- updateSFController SFGeneralController.pitchWheelSensitivity 2 v2 ;;
  updateModulatedParams_each INIT_GENERATORS v3.

Definition getNoteID (v : t) : Z := noteID_ v.

Definition getExclusiveClass (v : t) : Z :=
  int16_of_double (getModulatedGenerator v SFGenerator.exclusiveClass).

Definition getActualKey (v : t) : Z := actualKey_ v.

(** The key [update] hands to [keyToHeltz]. *)
Definition modulated_pitch (v : t) (modEnv : E) (vibLFO modLFO : L) : R :=
  (voicePitch_ v
   + getModulatedGenerator v SFGenerator.modEnvToPitch * Envelope.getValue modEnv
   + getModulatedGenerator v SFGenerator.vibLfoToPitch * LFO.getValue vibLFO
   + getModulatedGenerator v SFGenerator.modLfoToPitch * LFO.getValue modLFO)%R.

(** What [update] does after its [switch]: the oscillators and envelopes
    advance, then [deltaPhase_] is recomputed. *)
Definition update_oscillators (v : t) : outcome t :=
  let vibLFO := LFO.update (deltaPhase_ v) (vibLFO_ v) in
  let modLFO := LFO.update (deltaPhase_ v) (modLFO_ v) in
  let volEnv := Envelope.update (deltaPhase_ v) (volEnv_ v) in
  let modEnv := Envelope.update (deltaPhase_ v) (modEnv_ v) in
  hz <- conv.keyToHeltz conv.tables (modulated_pitch v modEnv vibLFO modLFO) ;;
  ret (with_deltaPhase (Fixed.of_double (deltaPhaseFactor_ v * hz))
         (with_modEnv modEnv (with_volEnv volEnv
            (with_modLFO modLFO (with_vibLFO vibLFO v))))).

Definition finish_volEnv (v : t) : t :=
  with_volEnv (Envelope.finish (volEnv_ v)) v.

(** [phase_ -= FixedPoint(sample_.endLoop - sample_.startLoop)] *)
Definition rewind_loop (v : t) : t :=
  with_phase
    (Fixed.sub (phase_ v)
       (Fixed.of_uint32
          (wrap32 (RuntimeSample.endLoop (sample_ v) - RuntimeSample.startLoop (sample_ v)))))
    v.

Definition update (v0 : t) : outcome t :=
  if Envelope.isFinished (volEnv_ v0) then ret v0
  else
    let v := with_phase (Fixed.add (phase_ v0) (deltaPhase_ v0)) v0 in
    let past (bound : Z) := (wrap32 (bound - 1) <? Fixed.getIntegerPart (phase_ v))%Z in
    let past_end := past (RuntimeSample.end_ (sample_ v)) in
    let past_endLoop := past (RuntimeSample.endLoop (sample_ v)) in
    match RuntimeSample.mode (sample_ v) with
    | SampleMode.UnLooped
    | SampleMode.UnUsed =>
        if past_end then ret (finish_volEnv v) else update_oscillators v
    | SampleMode.Looped =>
        if past_endLoop
        then if released_ v then ret (finish_volEnv v)
             else update_oscillators (rewind_loop v)
        else update_oscillators v
    | SampleMode.LoopedWithRemainder =>
        if released_ v
        then if past_end then ret (finish_volEnv v) else update_oscillators v
        else if past_endLoop then update_oscillators (rewind_loop v)
             else update_oscillators v
    | SampleMode.other => update_oscillators v
    end.

Definition INT16_MAX : Z := 32767.

Definition render (v : t) : outcome StereoValue :=
  if Envelope.isFinished (volEnv_ v) then ret (mkStereo 0.0 0.0)
  else
    let i := Fixed.getIntegerPart (phase_ v) in
    let r := Fixed.getFractionalPart (phase_ v) in
    a <- at_ (RuntimeSample.buffer (sample_ v)) i ;;
    b <- at_ (RuntimeSample.buffer (sample_ v)) (wrap32 (i + 1)) ;;
    let interpolated := ((1.0 - r) * IZR a + r * IZR b)%R in
    ratio <- conv.centibelToRatio conv.tables
               (getModulatedGenerator v SFGenerator.modLfoToVolume
                * LFO.getValue (modLFO_ v))%R ;;
    ret (Stereo.scale
           (Stereo.scaled_by (Envelope.getValue (volEnv_ v) * ratio) (volume_ v))
           (interpolated / IZR INT16_MAX)).

Definition isSounding (v : t) : bool := negb (Envelope.isFinished (volEnv_ v)).

Definition release (v : t) : t :=
  with_modEnv (Envelope.release (modEnv_ v))
    (with_volEnv (Envelope.release (volEnv_ v))
       (with_released true v)).

(** *** Vocabulary of the properties *)

(** [n] successive calls of [update()]. *)
Fixpoint updates (n : nat) (v : t) : outcome t :=
  match n with
  | O => ret v
  | S n' => v' <- update v ;; updates n' v'
  end.

(** What [updateModulatedParams] and the controller updates leave alone:
    the playback position, the sample, the generators and the flags. *)
Definition same_playback (v v' : t) : Prop :=
  phase_ v' = phase_ v /\ deltaPhase_ v' = deltaPhase_ v /\
  sample_ v' = sample_ v /\ generators_ v' = generators_ v /\
  released_ v' = released_ v.

(** The modulators after a controller value went to those that match. *)
Definition delivered (matches : M -> bool) (deliver : M -> M) (ms : list M) : list M :=
  map (fun m => if matches m then deliver m else m) ms.

(** Some matching modulator among [ms] routes to [d]. *)
Definition targeted (matches : M -> bool) (d : SFGenerator.t) (ms : list M) : bool :=
  existsb
    (fun m => matches m && SFGenerator.t_beq (Modulator.getDestination m) d) ms.

(** [volume_] as the design document gives it (section 4.7): attenuation
    times pan law, from the generators and [modulations_] of the voice. *)
Definition volume_of (v : t) : StereoValue :=
  Stereo.scaled_by
    (conv.centibelToRatio_value
       (0.4 * IZR (GeneratorSet.getOrDefault (generators_ v) SFGenerator.initialAttenuation)
        + modulations_ v SFGenerator.initialAttenuation))
    (calculatePannedVolume (getModulatedGenerator v SFGenerator.pan)).

(** The sample the design document prescribes for a sounding voice
    (section 4.7, "per-sample render"), with [a] and [b] the two frames the
    phase lies between. *)
Definition rendered (v : t) (a b : Z) : StereoValue :=
  let r := Fixed.getFractionalPart (phase_ v) in
  let s := ((1 - r) * IZR a + r * IZR b)%R in
  let gain :=
    (Envelope.getValue (volEnv_ v)
     * conv.centibelToRatio_value
         (getModulatedGenerator v SFGenerator.modLfoToVolume
          * LFO.getValue (modLFO_ v)))%R in
  mkStereo (gain * left (volume_ v) * (s / 32767))
           (gain * right (volume_ v) * (s / 32767)).

(** The loop points are in order, and the phase has room above [endLoop]
    for one loop length before its 32 integer bits run out. *)
Definition loop_points_ok (s : RuntimeSample.t) : Prop :=
  (0 <= RuntimeSample.start s <= RuntimeSample.startLoop s)%Z /\
  (RuntimeSample.startLoop s < RuntimeSample.endLoop s)%Z /\
  (2 * RuntimeSample.endLoop s - RuntimeSample.startLoop s <= 2 ^ 32)%Z.

(** [phase_] holds a 64-bit pattern whose integer part is in
    [[start, endLoop)]. *)
Definition in_loop (v : t) : Prop :=
  (0 <= raw (phase_ v) < 2 ^ 64)%Z /\
  (RuntimeSample.start (sample_ v) <= Fixed.getIntegerPart (phase_ v)
   < RuntimeSample.endLoop (sample_ v))%Z.

(** One output sample advances the phase by at most one loop length. *)
Definition step_within_loop (v : t) : Prop :=
  (0 <= raw (deltaPhase_ v)
   <= (RuntimeSample.endLoop (sample_ v) - RuntimeSample.startLoop (sample_ v)) * 2 ^ 32)%Z.

(** What [update()] never writes. *)
Definition same_settings (v v' : t) : Prop :=
  sample_ v' = sample_ v /\ generators_ v' = generators_ v /\
  modulators_ v' = modulators_ v /\ modulations_ v' = modulations_ v /\
  volume_ v' = volume_ v /\ voicePitch_ v' = voicePitch_ v /\
  released_ v' = released_ v /\ deltaPhaseFactor_ v' = deltaPhaseFactor_ v /\
  noteID_ v' = noteID_ v /\ actualKey_ v' = actualKey_ v /\
  key_ v' = key_ v /\ velocity_ v' = velocity_ v.

(** [voicePitch_] as [updateModulatedParams] computes it from the voice. *)
Definition voicePitch_of (v : t) : R :=
  (RuntimeSample.pitch (sample_ v)
   + 1e-4 * modulations_ v SFGenerator.pitch
   + 0.01 * getModulatedGenerator v SFGenerator.scaleTuning
     * (IZR (actualKey_ v) - RuntimeSample.pitch (sample_ v))
   + getModulatedGenerator v SFGenerator.coarseTune
   + 0.01 * getModulatedGenerator v SFGenerator.fineTune)%R.

(** The cached [volume_] and [voicePitch_] are what the generators and
    [modulations_] of the voice give. *)
Definition in_sync (v : t) : Prop :=
  volume_ v = volume_of v /\ voicePitch_ v = voicePitch_of v.

(** The voice plays through to [end]: a one-shot sample, or a
    [LoopedWithRemainder] one after release. *)
Definition plays_to_end (v : t) : Prop :=
  RuntimeSample.mode (sample_ v) = SampleMode.UnLooped \/
  RuntimeSample.mode (sample_ v) = SampleMode.UnUsed \/
  (RuntimeSample.mode (sample_ v) = SampleMode.LoopedWithRemainder /\
   released_ v = true).

(** The voice loops: [Looped] or [LoopedWithRemainder], and not released. *)
Definition loops (v : t) : Prop :=
  released_ v = false /\
  (RuntimeSample.mode (sample_ v) = SampleMode.Looped \/
   RuntimeSample.mode (sample_ v) = SampleMode.LoopedWithRemainder).

(** *** What a destination recomputes

    What the design document gives for the side effect of
    [updateModulatedParams(destination)] (section 4.7): the setter the
    destination forwards to, with the modulated value it carries, for each
    oscillator and envelope, and the formula of [voicePitch_]. *)



(** [holdX + keynumToXHold * (60 - key)], and likewise for Decay. *)
Definition toward_key (v : t) (section keynum : SFGenerator.t) : R :=
  (getModulatedGenerator v section
   + getModulatedGenerator v keynum * (60 - IZR (key_ v)))%R.














(** What [render()] asks of the phase: the frame it interpolates from and
    the next one lie in the sample, [start <= i] and [i + 1 <= end]. *)
Definition within_sample (v : t) : Prop :=
  (RuntimeSample.start (sample_ v) <= Fixed.getIntegerPart (phase_ v))%Z /\
  (Fixed.getIntegerPart (phase_ v) + 1 <= RuntimeSample.end_ (sample_ v))%Z.

(** The addresses of a sample with a loop: in order, and with room above
    [end] for one loop length before the 32 integer bits of the phase run
    out. *)
Definition sample_points_ok (s : RuntimeSample.t) : Prop :=
  (0 <= RuntimeSample.start s <= RuntimeSample.startLoop s)%Z /\
  (RuntimeSample.startLoop s < RuntimeSample.endLoop s)%Z /\
  (RuntimeSample.endLoop s <= RuntimeSample.end_ s)%Z /\
  (RuntimeSample.end_ s + (RuntimeSample.endLoop s - RuntimeSample.startLoop s)
   <= 2 ^ 32)%Z.

(** The voice does not loop (any more): it plays through to [end], or it
    is a released [Looped] voice, which stops at [endLoop]. *)
Definition drains (v : t) : Prop :=
  plays_to_end v \/
  (RuntimeSample.mode (sample_ v) = SampleMode.Looped /\ released_ v = true).

(** The address such a voice stops at is a 32-bit address of the sample. *)
Definition drain_points_ok (v : t) : Prop :=
  (RuntimeSample.end_ (sample_ v) <= 2 ^ 32)%Z /\
  (RuntimeSample.mode (sample_ v) = SampleMode.Looped ->
   (1 <= RuntimeSample.endLoop (sample_ v) <= RuntimeSample.end_ (sample_ v))%Z).

(** [phase_ += deltaPhase_] does not carry out of the 64 bits. *)
Definition no_carry (v : t) : Prop :=
  (0 <= raw (deltaPhase_ v))%Z /\
  (raw (phase_ v) + raw (deltaPhase_ v) < 2 ^ 64)%Z.

(** What [update()] hands on to the next [render()] and [update()]: the
    same sample and release flag, a phase of 64 bits, and a voice that is
    finished or again within its sample. *)
Definition still_playable (v v' : t) : Prop :=
  sample_ v' = sample_ v /\ released_ v' = released_ v /\
  (0 <= raw (phase_ v') < 2 ^ 64)%Z /\
  (isSounding v' = false \/ within_sample v').

(** [keyToHeltz] returns at most 2^11 * 13.75 = 28160: with such a
    [deltaPhaseFactor_] no phase increment that [update()] computes exceeds
    one loop length. *)
Definition pitch_within_loop (v : t) : Prop :=
  (0 <= deltaPhaseFactor_ v)%R /\
  (deltaPhaseFactor_ v * 28160
   <= IZR (RuntimeSample.endLoop (sample_ v) - RuntimeSample.startLoop (sample_ v)))%R.

End Components.

End Voice.

Arguments Voice.t : clear implicits.


(** ** Reference collaborators

    Concrete envelopes, oscillators and modulators, so that the voice can be
    run on examples. *)

(** Modelled from the spec: the DAHDSR envelope of section 4.4.  A timed
    section lasts [outputRate * timecentToSecond(parameter)] samples and
    [Sustain] lasts until release; the level is 0 in [Delay] and [Finished],
    rises linearly in [Attack], is 1 in [Hold], and is the sustain level
    from [Decay] on (the spec leaves the curve inside [Decay] and [Release]
    to the implementer). *)
Module RefEnvelope.

Open Scope R_scope.

Record t : Type := mk {
  outputRate : R;
  section : Section_.t;
  elapsed : Z;
  parameter : Section_.t -> R
}.

Definition make (rate : R) : t := mk rate Section_.Delay 0 (fun _ => 0).

Definition same_section (a b : Section_.t) : bool :=
  match a, b with
  | Section_.Delay, Section_.Delay | Section_.Attack, Section_.Attack
  | Section_.Hold, Section_.Hold | Section_.Decay, Section_.Decay
  | Section_.Sustain, Section_.Sustain | Section_.Release, Section_.Release
  | Section_.Finished, Section_.Finished => true
  | _, _ => false
  end.

Definition setParameter (s : Section_.t) (value : R) (e : t) : t :=
  mk (outputRate e) (section e) (elapsed e)
     (fun s' => if same_section s' s then value else parameter e s').

Definition next (s : Section_.t) : Section_.t :=
  match s with
  | Section_.Delay => Section_.Attack
  | Section_.Attack => Section_.Hold
  | Section_.Hold => Section_.Decay
  | Section_.Decay => Section_.Sustain
  | Section_.Sustain => Section_.Sustain
  | Section_.Release => Section_.Finished
  | Section_.Finished => Section_.Finished
  end.

Definition duration (e : t) : R :=
  outputRate e * conv.timecentToSecond (parameter e (section e)).

Definition update (delta : FixedPoint) (e : t) : t :=
  match section e with
  | Section_.Finished => e
  | Section_.Sustain => mk (outputRate e) Section_.Sustain (elapsed e + 1) (parameter e)
  | s =>
      if Rle_dec (duration e) (IZR (elapsed e + 1))
      then mk (outputRate e) (next s) 0 (parameter e)
      else mk (outputRate e) s (elapsed e + 1) (parameter e)
  end.

Definition release (e : t) : t :=
  match section e with
  | Section_.Finished => e
  | _ => mk (outputRate e) Section_.Release 0 (parameter e)
  end.

Definition finish (e : t) : t :=
  mk (outputRate e) Section_.Finished 0 (parameter e).

Definition sustainLevel (e : t) : R :=
  Rmax 0 (1 - 0.001 * parameter e Section_.Sustain).

Definition getValue (e : t) : R :=
  match section e with
  | Section_.Delay | Section_.Finished => 0
  | Section_.Attack => IZR (elapsed e) / duration e
  | Section_.Hold => 1
  | Section_.Decay | Section_.Sustain | Section_.Release => sustainLevel e
  end.

Definition isFinished (e : t) : bool := same_section (section e) Section_.Finished.

End RefEnvelope.

#[export] Instance RefEnvelope_ops : Envelope.ops RefEnvelope.t := {
  Envelope.make := RefEnvelope.make;
  Envelope.setParameter := RefEnvelope.setParameter;
  Envelope.update := RefEnvelope.update;
  Envelope.release := RefEnvelope.release;
  Envelope.finish := RefEnvelope.finish;
  Envelope.getValue := RefEnvelope.getValue;
  Envelope.isFinished := RefEnvelope.isFinished;
  Envelope.isFinished_finish := fun _ => eq_refl
}.

(** Modelled from the spec: the oscillator of section 4.5, a triangle wave
    in [[-1,1]] that starts at 0 after a silent delay. *)
Module RefLFO.

Open Scope R_scope.

Record t : Type := mk {
  outputRate : R;
  delay : R;
  frequency : R;
  steps : Z
}.

Definition make (rate : R) : t := mk rate 0 0 0.

Definition setDelay (timecents : R) (o : t) : t :=
  mk (outputRate o) (conv.timecentToSecond timecents) (frequency o) (steps o).

Definition setFrequency (absoluteCents : R) (o : t) : t :=
  mk (outputRate o) (delay o) (conv.absoluteCentToHeltz absoluteCents) (steps o).

Definition update (delta : FixedPoint) (o : t) : t :=
  mk (outputRate o) (delay o) (frequency o) (steps o + 1).

Definition triangle (cycles : R) : R :=
  let x := cycles - IZR (Zfloor cycles) in
  if Rlt_dec x 0.25 then 4 * x
  else if Rlt_dec x 0.75 then 2 - 4 * x
  else 4 * x - 4.

Definition getValue (o : t) : R :=
  let seconds := IZR (steps o) / outputRate o in
  if Rlt_dec seconds (delay o) then 0
  else triangle (frequency o * (seconds - delay o)).

End RefLFO.

#[export] Instance RefLFO_ops : LFO.ops RefLFO.t := {
  LFO.make := RefLFO.make;
  LFO.setDelay := RefLFO.setDelay;
  LFO.setFrequency := RefLFO.setFrequency;
  LFO.update := RefLFO.update;
  LFO.getValue := RefLFO.getValue
}.

(** Modelled from the spec: the modulator of section 4.6.  A descriptor
    names two operators, a destination, an amount and a transform; the
    modulator caches the normalised [source] and [amountSource] (both 0 at
    construction) and [value = amount * transform(source) * amountSource].
    A raw controller value is first scaled to [[0,1]]: by 128 steps for a
    7-bit controller, and from [[-8192, 8192)] for the pitch wheel. *)
Module RefModulator.

Open Scope R_scope.

Inductive Controller : Type :=
| General (c : SFGeneralController.t)
| MIDI (cc : Z).

Inductive Curve : Type := Linear | Concave | Convex | Switch.

Record Operator : Type := mkOperator {
  controller : Controller;
  bipolar : bool;
  inverted : bool;
  curve : Curve
}.

Inductive Transform : Type := Identity | AbsoluteValue.

Record sfModList : Type := mkParam {
  sourceOp : Operator;
  amountSourceOp : Operator;
  destination : SFGenerator.t;
  amount : Z;
  transformOp : Transform
}.

Record t : Type := mk {
  param_ : sfModList;
  source_ : R;
  amountSource_ : R;
  value_ : R
}.

Definition make (param : sfModList) : t := mk param 0 0 0.

Definition isGeneral (c : SFGeneralController.t) (op : Operator) : bool :=
  match controller op with
  | General c' => SFGeneralController.t_beq c' c
  | MIDI _ => false
  end.

Definition isMIDI (cc : Z) (op : Operator) : bool :=
  match controller op with
  | General _ => false
  | MIDI cc' => (cc' =? cc)%Z
  end.

Definition isSourceSFController (c : SFGeneralController.t) (m : t) : bool :=
  isGeneral c (sourceOp (param_ m)) || isGeneral c (amountSourceOp (param_ m)).

Definition isSourceMIDIController (cc : Z) (m : t) : bool :=
  isMIDI cc (sourceOp (param_ m)) || isMIDI cc (amountSourceOp (param_ m)).

Definition concave (x : R) : R :=
  if Rle_dec 1 x then 1
  else Rmin 1 (Rmax 0 (- (20 / 96) * (ln (1 - x * x) / ln 10))).

Definition convex (x : R) : R := 1 - concave (1 - x).

(** A unipolar curve through the origin, mirrored for a bipolar operator. *)
Definition mirrored (f : R -> R) (bip : bool) (x : R) : R :=
  if bip
  then let s := 2 * x - 1 in if Rlt_dec s 0 then - f (- s) else f s
  else f x.

Definition normalize (op : Operator) (x : R) : R :=
  let y :=
    match curve op with
    | Linear => if bipolar op then 2 * x - 1 else x
    | Concave => mirrored concave (bipolar op) x
    | Convex => mirrored convex (bipolar op) x
    | Switch =>
        if Rlt_dec x 0.5 then (if bipolar op then -1 else 0) else 1
    end in
  if inverted op then (if bipolar op then - y else 1 - y) else y.

Definition transform (f : Transform) (x : R) : R :=
  match f with
  | Identity => x
  | AbsoluteValue => Rabs x
  end.

Definition calculateValue (param : sfModList) (source amountSource : R) : t :=
  mk param source amountSource
     (IZR (amount param) * transform (transformOp param) source * amountSource).

Definition unit_of_general (c : SFGeneralController.t) (value : Z) : R :=
  match c with
  | SFGeneralController.pitchWheel => (IZR value + 8192) / 16384
  | _ => IZR value / 128
  end.

Definition deliver (hit : Operator -> bool) (x : R) (m : t) : t :=
  let p := param_ m in
  calculateValue p
    (if hit (sourceOp p) then normalize (sourceOp p) x else source_ m)
    (if hit (amountSourceOp p) then normalize (amountSourceOp p) x else amountSource_ m).

Definition updateSFController (c : SFGeneralController.t) (value : Z) (m : t) : t :=
  deliver (isGeneral c) (unit_of_general c value) m.

Definition updateMIDIController (cc value : Z) (m : t) : t :=
  deliver (isMIDI cc) (IZR value / 128) m.

Definition getDestination (m : t) : SFGenerator.t := destination (param_ m).

Definition getValue (m : t) : R := value_ m.

End RefModulator.

#[export] Instance RefModulator_ops
  : Modulator.ops RefModulator.sfModList RefModulator.t := {
  Modulator.make := RefModulator.make;
  Modulator.isSourceSFController := RefModulator.isSourceSFController;
  Modulator.isSourceMIDIController := RefModulator.isSourceMIDIController;
  Modulator.updateSFController := RefModulator.updateSFController;
  Modulator.updateMIDIController := RefModulator.updateMIDIController;
  Modulator.getDestination := RefModulator.getDestination;
  Modulator.getValue := RefModulator.getValue;
  Modulator.getDestination_updateSFController := fun _ _ _ => eq_refl;
  Modulator.getDestination_updateMIDIController := fun _ _ _ => eq_refl
}.

(** ** Example voices *)

Module Examples.

Definition RefVoice : Type := Voice.t RefEnvelope.t RefLFO.t RefModulator.t.

(** An envelope in its sustain section. *)
Definition sustaining : RefEnvelope.t :=
  RefEnvelope.mk 44100 Section_.Sustain 0 (fun _ => 0%R).

Definition ramp : list Z :=
  [0; 1000; 2000; 3000; 4000; 5000; 6000; 7000; 8000;
   7000; 6000; 5000; 4000; 3000; 2000; 1000; 0]%Z.

(** A 17-frame waveform played from frame 0 to 16 with the loop [[8, 12)]. *)
Definition short_loop (mode : SampleMode.t) : RuntimeSample.t :=
  RuntimeSample.mk ramp 60 mode 0 16 8 12.

(** A sustaining voice at frame [position] that advances by [step] whole
    frames on the next output sample, with [deltaPhaseFactor_ = factor];
    every generator is 0 and there is no modulator. *)
Definition playing_at (factor : R) (mode : SampleMode.t) (position step : Z) : RefVoice :=
  Voice.mk 0 (short_loop mode) (fun _ => 0%Z) 60 60 100
    [] (fun _ => 0%R) 60 false
    (Fixed.of_uint32 position) (Fixed.of_uint32 step) factor
    (mkStereo 1 1) sustaining sustaining
    (RefLFO.make 44100) (RefLFO.make 44100).

Definition playing : SampleMode.t -> Z -> Z -> RefVoice := playing_at 1.

(** [keyToHeltz(60)], the frequency of the root key of [short_loop]. *)
Definition root_hz : R := conv.keyToHeltz_value 5 60.

(** The loop played at key 96, three octaves above its root key, with the
    output rate equal to the sample rate: [deltaPhaseFactor_] is
    [1 / keyToHeltz(60)], [voicePitch_] is 96 and the phase advances 8
    frames per output sample. *)
Definition three_octaves_up (position : Z) : RefVoice :=
  Voice.mk 0 (short_loop SampleMode.Looped) (fun _ => 0%Z) 96 96 100
    [] (fun _ => 0%R) 96 false
    (Fixed.of_uint32 position) (Fixed.of_uint32 8) (1 / root_hz)
    (mkStereo 1 1) sustaining sustaining
    (RefLFO.make 44100) (RefLFO.make 44100).

(** Note-on velocity, scaled by itself, routed to [pan] with amount 10. *)
Definition velocity_operator : RefModulator.Operator :=
  RefModulator.mkOperator
    (RefModulator.General SFGeneralController.noteOnVelocity) false false
    RefModulator.Linear.

Definition velocity_to_pan : RefModulator.sfModList :=
  RefModulator.mkParam velocity_operator velocity_operator SFGenerator.pan 10
    RefModulator.Identity.

(** The voice [playing] with that one modulator, before any controller
    value has reached it. *)
Definition panned : RefVoice :=
  Voice.with_modulators [RefModulator.make velocity_to_pan]
    (playing SampleMode.Looped 0 1).

(** The bank's view of the same waveform. *)
Definition bank_sample : Sample.t :=
  Sample.mk 0 16 8 12 44100 60 0 ramp.

(** Every generator 0, except a start offset of one frame. *)
Definition start_one_frame_later : GeneratorSet.t :=
  GeneratorSet.set SFGenerator.startAddrsOffset 1 (fun _ => 0%Z).

(** That modulator once note-on velocity 100 has reached it. *)
Definition velocity_100 : RefModulator.t :=
  RefModulator.updateSFController SFGeneralController.noteOnVelocity 100
    (RefModulator.make velocity_to_pan).

(** The double nearest to 60.01, [0x1.e0147ae147ae1p+5]. *)
Definition double_60_01 : R := 8445656676203233 / 140737488355328.

(** [panned] with [volume_] and [voicePitch_] as its generators and
    modulations give them. *)
Definition panned_in_sync : RefVoice :=
  Voice.with_voicePitch (Voice.voicePitch_of panned)
    (Voice.with_volume (Voice.volume_of panned) panned).

(** The voice [playing] after its volume envelope has finished. *)
Definition played_out : RefVoice :=
  Voice.finish_volEnv (playing SampleMode.Looped 11 1).

(** The voice [playing] after the key is released. *)
Definition let_go : RefVoice := Voice.release (playing SampleMode.Looped 11 1).

End Examples.

(** * Properties *)

(** ** Checked indexing and casts *)

Lemma at_in_range {A : Type} (t : list A) (i : Z) (a : A) :
  (0 <= i)%Z -> nth_error t (Z.to_nat i) = Some a -> at_ t i = ret a.
Proof.
  intros Hi Hn. unfold at_.
  destruct (Z.ltb_spec i 0) as [Hneg | _]; [lia |].
  rewrite Hn. reflexivity.
Qed.

Lemma Rtrunc_nonneg (x : R) : (0 <= x)%R -> Rtrunc x = Zfloor x.
Proof.
  intros Hx. unfold Rtrunc.
  destruct (Rlt_dec x 0) as [Hneg | _]; [lra | reflexivity].
Qed.

Lemma Zfloor_between (x : R) (lo hi : Z) :
  (IZR lo <= x < IZR hi)%R -> (lo <= Zfloor x < hi)%Z.
Proof.
  intros [Hlo Hhi]. split.
  - apply Zfloor_lub. exact Hlo.
  - apply lt_IZR. destruct (Zfloor_bound x) as [Hfl _]. lra.
Qed.

Lemma size_t_of_double_floor (x : R) (hi : Z) :
  (hi <= 2 ^ 64)%Z -> (0 <= x < IZR hi)%R -> size_t_of_double x = Zfloor x.
Proof.
  intros Hhi Hx. unfold size_t_of_double, wrap64.
  rewrite Rtrunc_nonneg by lra.
  pose proof (Zfloor_between x 0 hi Hx) as Hfl.
  apply Z.mod_small. lia.
Qed.

(** ** Rounding to the nearest double *)

Module Binary64_facts.
Import Binary64.
Open Scope R_scope.

Lemma nearest_even_floor (t : R) :
  (Zfloor t <= nearest_even t <= Zfloor t + 1)%Z.
Proof.
  unfold nearest_even.
  destruct (Rlt_dec (t - IZR (Zfloor t)) (1 / 2)); [lia |].
  destruct (Rlt_dec (1 / 2) (t - IZR (Zfloor t))); [lia |].
  destruct (Z.even (Zfloor t)); lia.
Qed.

Lemma nearest_even_IZR (n : Z) : nearest_even (IZR n) = n.
Proof.
  unfold nearest_even. rewrite ZfloorZ.
  destruct (Rlt_dec (IZR n - IZR n) (1 / 2)) as [_ | H]; [reflexivity | lra].
Qed.

Lemma nearest_even_le (s t : R) : s <= t -> (nearest_even s <= nearest_even t)%Z.
Proof.
  intros Hst.
  pose proof (Zfloor_le s t Hst) as Hfl.
  pose proof (nearest_even_floor s) as Hs.
  pose proof (nearest_even_floor t) as Ht.
  destruct (Z.eq_dec (Zfloor s) (Zfloor t)) as [Heq | Hne]; [| lia].
  clear Hs. revert Ht. unfold nearest_even. rewrite Heq. intros Ht.
  destruct (Rlt_dec (s - IZR (Zfloor t)) (1 / 2)) as [Hs1 | Hs1]; [lia |].
  destruct (Rlt_dec (t - IZR (Zfloor t)) (1 / 2)) as [Ht1 | Ht1]; [lra |].
  destruct (Rlt_dec (1 / 2) (t - IZR (Zfloor t))) as [Ht2 | Ht2].
  - destruct (Rlt_dec (1 / 2) (s - IZR (Zfloor t))); [lia |].
    destruct (Z.even (Zfloor t)); lia.
  - destruct (Rlt_dec (1 / 2) (s - IZR (Zfloor t))) as [Hs2 | Hs2]; [lra |].
    destruct (Z.even (Zfloor t)); lia.
Qed.

Lemma nearest_even_near (n : Z) (t : R) :
  Rabs (t - IZR n) < 1 / 2 -> nearest_even t = n.
Proof.
  intros Hnear. apply Rabs_def2 in Hnear as [Hhi Hlo].
  unfold nearest_even.
  destruct (Rle_dec (IZR n) t) as [Hle | Hgt].
  - rewrite (Zfloor_eq n t) by lra.
    destruct (Rlt_dec (t - IZR n) (1 / 2)); [reflexivity | lra].
  - assert (Hfl : Zfloor t = (n - 1)%Z).
    { apply Zfloor_eq. rewrite minus_IZR. lra. }
    rewrite Hfl, minus_IZR.
    destruct (Rlt_dec (t - (IZR n - 1)) (1 / 2)); [lra |].
    destruct (Rlt_dec (1 / 2) (t - (IZR n - 1))); [lia | lra].
Qed.

Lemma ln_2_pos : 0 < ln 2.
Proof. pose proof ln_lt_2. lra. Qed.

Lemma pow2_pos (z : Z) : 0 < powerRZ 2 z.
Proof. apply powerRZ_lt. lra. Qed.

Lemma pow2_Rpower (z : Z) : powerRZ 2 z = exp (IZR z * ln 2).
Proof. rewrite powerRZ_Rpower by lra. reflexivity. Qed.

Lemma pow2_le (a b : Z) : (a <= b)%Z -> powerRZ 2 a <= powerRZ 2 b.
Proof.
  intros Hab. rewrite !pow2_Rpower.
  apply IZR_le in Hab. pose proof ln_2_pos.
  destruct (Req_dec (IZR a) (IZR b)) as [-> | Hne]; [lra |].
  left. apply exp_increasing. nra.
Qed.

Lemma pow2_add (a b : Z) : powerRZ 2 (a + b) = powerRZ 2 a * powerRZ 2 b.
Proof. apply powerRZ_add. lra. Qed.

Lemma binade_spec (x : R) :
  0 < x -> powerRZ 2 (binade x) <= x < powerRZ 2 (binade x + 1).
Proof.
  intros Hx. unfold binade. rewrite Rabs_pos_eq by lra.
  pose proof ln_2_pos as H2.
  destruct (Zfloor_bound (ln x / ln 2)) as [Hlo Hhi].
  set (e := Zfloor (ln x / ln 2)) in *.
  rewrite !pow2_Rpower, plus_IZR.
  assert (Hlo' : IZR e * ln 2 <= ln x).
  { apply Rmult_le_reg_r with (/ ln 2); [apply Rinv_0_lt_compat; exact H2 |].
    rewrite Rmult_assoc, Rinv_r by lra. unfold Rdiv in Hlo. lra. }
  assert (Hhi' : ln x < (IZR e + 1) * ln 2).
  { apply Rmult_lt_reg_r with (/ ln 2); [apply Rinv_0_lt_compat; exact H2 |].
    rewrite Rmult_assoc, Rinv_r by lra. unfold Rdiv in Hhi. lra. }
  rewrite <- (exp_ln x Hx) at 1 2.
  split.
  - destruct Hlo' as [Hlt | Heq]; [left; apply exp_increasing; exact Hlt | rewrite Heq; lra].
  - apply exp_increasing. exact Hhi'.
Qed.

Lemma binade_unique (x : R) (e : Z) :
  powerRZ 2 e <= x < powerRZ 2 (e + 1) -> binade x = e.
Proof.
  intros [Hlo Hhi].
  assert (Hx : 0 < x) by (pose proof (pow2_pos e); lra).
  unfold binade. rewrite Rabs_pos_eq by lra.
  pose proof ln_2_pos as H2.
  rewrite !pow2_Rpower, ?plus_IZR in *.
  apply Zfloor_eq.
  assert (Hlo' : IZR e * ln 2 <= ln x).
  { destruct Hlo as [Hlt | Heq].
    - left. rewrite <- (ln_exp (IZR e * ln 2)). apply ln_increasing; [apply exp_pos | exact Hlt].
    - rewrite <- Heq, ln_exp. lra. }
  assert (Hhi' : ln x < (IZR e + 1) * ln 2).
  { rewrite <- (ln_exp ((IZR e + 1) * ln 2)). apply ln_increasing; assumption. }
  split.
  - apply Rmult_le_reg_r with (ln 2); [exact H2 |].
    unfold Rdiv. rewrite Rmult_assoc, Rinv_l by lra. lra.
  - apply Rmult_lt_reg_r with (ln 2); [exact H2 |].
    unfold Rdiv. rewrite Rmult_assoc, Rinv_l by lra. lra.
Qed.

Lemma binade_le (x y : R) : 0 < x -> x <= y -> (binade x <= binade y)%Z.
Proof.
  intros Hx Hxy. unfold binade. rewrite !Rabs_pos_eq by lra.
  apply Zfloor_le. pose proof ln_2_pos as H2.
  apply Rmult_le_compat_r; [left; apply Rinv_0_lt_compat; exact H2 |].
  destruct Hxy as [Hlt | ->]; [left; apply ln_increasing; assumption | lra].
Qed.

Lemma ulp_pos (x : R) : 0 < ulp x.
Proof. apply pow2_pos. Qed.

Lemma round_0 : round 0 = 0.
Proof. unfold round. destruct (Req_dec_T 0 0) as [_ | H]; [reflexivity | contradiction]. Qed.

Lemma round_pos_eq (x : R) :
  0 < x -> round x = IZR (nearest_even (x / ulp x)) * ulp x.
Proof.
  intros Hx. unfold round. destruct (Req_dec_T x 0) as [H0 | _]; [lra | reflexivity].
Qed.

(** In the binade of exponent [e] (clamped below at -1022), a positive real
    rounds into [[2^e, 2^(e+1)]] or, in the subnormal range, into
    [[0, 2^-1022]]. *)
Lemma round_upper (x : R) :
  0 < x -> round x <= powerRZ 2 (Z.max (binade x) (-1022) + 1).
Proof.
  intros Hx. rewrite round_pos_eq by exact Hx. unfold ulp.
  set (e := Z.max (binade x) (-1022)).
  pose proof (pow2_pos (e - 52)) as Hu.
  destruct (binade_spec x Hx) as [_ Hhi].
  assert (Hx' : x <= powerRZ 2 (e + 1)).
  { left. eapply Rlt_le_trans; [exact Hhi |]. apply pow2_le. unfold e. lia. }
  assert (Hq : x / powerRZ 2 (e - 52) <= IZR (2 ^ 53)).
  { apply Rmult_le_reg_r with (powerRZ 2 (e - 52)); [exact Hu |].
    unfold Rdiv. rewrite Rmult_assoc, Rinv_l by lra. rewrite Rmult_1_r.
    replace (IZR (2 ^ 53)) with (powerRZ 2 53) by (simpl; lra).
    rewrite <- pow2_add. replace (53 + (e - 52))%Z with (e + 1)%Z by lia. exact Hx'. }
  apply nearest_even_le in Hq. rewrite nearest_even_IZR in Hq. apply IZR_le in Hq.
  replace (powerRZ 2 (e + 1)) with (IZR (2 ^ 53) * powerRZ 2 (e - 52)).
  - apply Rmult_le_compat_r; [lra | exact Hq].
  - replace (IZR (2 ^ 53)) with (powerRZ 2 53) by (simpl; lra).
    rewrite <- pow2_add. f_equal. lia.
Qed.

Lemma round_lower (x : R) :
  0 < x -> (-1022 <= binade x)%Z -> powerRZ 2 (binade x) <= round x.
Proof.
  intros Hx He. rewrite round_pos_eq by exact Hx. unfold ulp.
  rewrite Z.max_l by lia.
  set (e := binade x) in *.
  pose proof (pow2_pos (e - 52)) as Hu.
  destruct (binade_spec x Hx) as [Hlo _]. fold e in Hlo.
  assert (Hq : IZR (2 ^ 52) <= x / powerRZ 2 (e - 52)).
  { apply Rmult_le_reg_r with (powerRZ 2 (e - 52)); [exact Hu |].
    unfold Rdiv. rewrite Rmult_assoc, Rinv_l by lra. rewrite Rmult_1_r.
    replace (IZR (2 ^ 52)) with (powerRZ 2 52) by (simpl; lra).
    rewrite <- pow2_add. replace (52 + (e - 52))%Z with e by lia. exact Hlo. }
  apply nearest_even_le in Hq. rewrite nearest_even_IZR in Hq. apply IZR_le in Hq.
  replace (powerRZ 2 e) with (IZR (2 ^ 52) * powerRZ 2 (e - 52)).
  - apply Rmult_le_compat_r; [lra | exact Hq].
  - replace (IZR (2 ^ 52)) with (powerRZ 2 52) by (simpl; lra).
    rewrite <- pow2_add. f_equal. lia.
Qed.

Lemma round_nonneg (x : R) : 0 <= x -> 0 <= round x.
Proof.
  intros [Hx | <-]; [| rewrite round_0; lra].
  rewrite round_pos_eq by exact Hx.
  pose proof (ulp_pos x) as Hu.
  apply Rmult_le_pos; [| lra].
  apply IZR_le. apply Z.le_trans with (Zfloor (x / ulp x)).
  - apply Zfloor_lub. apply Rmult_le_pos; [lra | left; apply Rinv_0_lt_compat; exact Hu].
  - apply nearest_even_floor.
Qed.

(** Rounding to nearest is monotone. *)
Lemma round_le (x y : R) : 0 <= x -> x <= y -> round x <= round y.
Proof.
  intros [Hx | <-] Hxy; [| rewrite round_0; apply round_nonneg; exact Hxy].
  assert (Hy : 0 < y) by lra.
  pose proof (binade_le x y Hx Hxy) as Hbin.
  destruct (Z.eq_dec (Z.max (binade x) (-1022)) (Z.max (binade y) (-1022))) as [Heq | Hne].
  - rewrite !round_pos_eq by assumption. unfold ulp. rewrite Heq.
    set (u := powerRZ 2 (Z.max (binade y) (-1022) - 52)).
    assert (Hu : 0 < u) by apply pow2_pos.
    apply Rmult_le_compat_r; [lra |]. apply IZR_le, nearest_even_le.
    apply Rmult_le_compat_r; [left; apply Rinv_0_lt_compat; exact Hu | exact Hxy].
  - assert (Hey : (-1022 < binade y)%Z) by lia.
    apply Rle_trans with (powerRZ 2 (Z.max (binade x) (-1022) + 1));
      [apply round_upper; exact Hx |].
    apply Rle_trans with (powerRZ 2 (binade y));
      [apply pow2_le; lia | apply round_lower; [exact Hy | lia]].
Qed.

(** In a known binade the rounding is the nearest multiple of the
    spacing. *)
Lemma round_in_binade (x : R) (e : Z) :
  (-1022 <= e)%Z -> powerRZ 2 e <= x < powerRZ 2 (e + 1) ->
  round x = IZR (nearest_even (x / powerRZ 2 (e - 52))) * powerRZ 2 (e - 52).
Proof.
  intros He Hx.
  assert (H0 : 0 < x) by (pose proof (pow2_pos e); lra).
  rewrite round_pos_eq by exact H0. unfold ulp.
  rewrite (binade_unique x e Hx), Z.max_l by lia. reflexivity.
Qed.

(** Whole numbers below 2^53 are doubles. *)
Lemma round_IZR (n : Z) : (0 <= n < 2 ^ 53)%Z -> round (IZR n) = IZR n.
Proof.
  intros [H0 Hn].
  destruct (Z.eq_dec n 0) as [-> | Hne]; [apply round_0 |].
  assert (Hpos : 0 < IZR n) by (apply IZR_lt; lia).
  set (e := binade (IZR n)).
  destruct (binade_spec (IZR n) Hpos) as [Hlo Hhi]. fold e in Hlo, Hhi.
  assert (He0 : (0 <= e)%Z).
  { destruct (Z.lt_ge_cases e 0) as [Hneg | Hge]; [| exact Hge].
    assert (powerRZ 2 (e + 1) <= powerRZ 2 0) by (apply pow2_le; lia).
    assert (1 <= IZR n) by (apply IZR_le; lia).
    simpl in H. lra. }
  assert (He52 : (e <= 52)%Z).
  { destruct (Z.lt_ge_cases 52 e) as [Hbig | Hle]; [| lia].
    assert (powerRZ 2 53 <= powerRZ 2 e) by (apply pow2_le; lia).
    assert (IZR n < IZR (2 ^ 53)) by (apply IZR_lt; exact Hn).
    replace (IZR (2 ^ 53)) with (powerRZ 2 53) in H1 by (simpl; lra). lra. }
  rewrite (round_in_binade (IZR n) e) by (try lia; split; assumption).
  assert (Hu : powerRZ 2 (e - 52) = / IZR (2 ^ (52 - e))).
  { replace (e - 52)%Z with (- (52 - e))%Z by lia.
    rewrite powerRZ_neg'. f_equal.
    rewrite <- (Z2Nat.id (52 - e)) at 1 by lia.
    rewrite <- pow_powerRZ. rewrite pow_IZR. rewrite Z2Nat.id by lia. reflexivity. }
  rewrite Hu.
  assert (Hk : 0 < IZR (2 ^ (52 - e))) by (apply IZR_lt; apply Z.pow_pos_nonneg; lia).
  unfold Rdiv. rewrite Rinv_inv. rewrite <- mult_IZR, nearest_even_IZR, mult_IZR.
  field. lra.
Qed.


Lemma representable_IZR (n : Z) : (0 <= n < 2 ^ 53)%Z -> representable (IZR n).
Proof.
  intros Hn. split; [apply round_IZR; exact Hn |].
  rewrite Rabs_pos_eq by (apply IZR_le; lia).
  apply Rlt_le_trans with (powerRZ 2 53).
  - replace (powerRZ 2 53) with (IZR (2 ^ 53)) by (simpl; lra).
    apply IZR_lt. lia.
  - apply pow2_le. lia.
Qed.

(** A power of two with a negative exponent, as a quotient. *)
Lemma pow2_neg (k : Z) : (0 <= k)%Z -> powerRZ 2 (- k) = / IZR (2 ^ k).
Proof.
  intros Hk. rewrite powerRZ_neg'. f_equal.
  rewrite <- (Z2Nat.id k) at 1 by lia.
  rewrite <- pow_powerRZ, pow_IZR, Z2Nat.id by lia. reflexivity.
Qed.

(** The largest double below 141 is [141 - 2^-45]. *)
Lemma representable_below_141 (b : R) :
  representable b -> b < 141 -> b <= 141 - / IZR (2 ^ 45).
Proof.
  intros [Hb _] Hlt.
  assert (Hk : 0 < / IZR (2 ^ 45)) by (apply Rinv_0_lt_compat, IZR_lt; lia).
  assert (Hk1 : / IZR (2 ^ 45) <= 1).
  { rewrite <- Rinv_1. apply Rinv_le_contravar; [lra | apply IZR_le; lia]. }
  destruct (Rlt_dec b 128) as [Hsmall | Hbig]; [lra |].
  assert (Hbin : powerRZ 2 7 <= b < powerRZ 2 (7 + 1)) by (simpl; lra).
  rewrite (round_in_binade b 7) in Hb by (try lia; exact Hbin).
  change (7 - 52)%Z with (Z.opp 45) in Hb. rewrite pow2_neg in Hb by lia.
  set (m := nearest_even (b / / IZR (2 ^ 45))) in *.
  assert (Hm : (m < 141 * 2 ^ 45)%Z).
  { apply lt_IZR. rewrite mult_IZR.
    apply Rmult_lt_reg_r with (/ IZR (2 ^ 45)); [exact Hk |].
    rewrite Hb, Rmult_assoc, Rinv_r by (apply not_0_IZR; lia). lra. }
  assert (Hm' : IZR m <= IZR (141 * 2 ^ 45 - 1)) by (apply IZR_le; lia).
  rewrite minus_IZR, mult_IZR in Hm'.
  rewrite <- Hb.
  replace (141 - / IZR (2 ^ 45)) with ((141 * IZR (2 ^ 45) - 1) * / IZR (2 ^ 45))
    by (field; apply not_0_IZR; lia).
  apply Rmult_le_compat_r; [lra | exact Hm'].
Qed.

(** The product [key * 100] of a double below 141 stays below 14100: it
    is at least 100 * 2^-45 away, more than half the spacing 2^-39 of the
    doubles there. *)
Lemma mul_100_below_top (b : R) :
  representable b -> 0 <= b < 141 -> mul b 100 < 14100.
Proof.
  intros Hb [H0 Hlt].
  pose proof (representable_below_141 b Hb Hlt) as Hle.
  set (y := 14100 - 100 * / IZR (2 ^ 45)).
  assert (Hk : 0 < / IZR (2 ^ 45)) by (apply Rinv_0_lt_compat, IZR_lt; lia).
  assert (Hk1 : / IZR (2 ^ 45) <= / 1024).
  { apply Rinv_le_contravar; [lra | apply IZR_le; lia]. }
  assert (Hy : round y < 14100).
  { assert (Hbin : powerRZ 2 13 <= y < powerRZ 2 (13 + 1)) by (unfold y; simpl; lra).
    rewrite (round_in_binade y 13) by (try lia; exact Hbin).
    change (13 - 52)%Z with (Z.opp 39). rewrite pow2_neg by lia.
    assert (H39 : 0 < IZR (2 ^ 39)) by (apply IZR_lt; lia).
    rewrite (nearest_even_near (14100 * 2 ^ 39 - 2)).
    - rewrite minus_IZR, mult_IZR.
      apply Rmult_lt_reg_r with (IZR (2 ^ 39)); [exact H39 |].
      rewrite Rmult_assoc, Rinv_l by lra. lra.
    - unfold Rdiv. rewrite Rinv_inv. unfold y.
      rewrite minus_IZR, mult_IZR.
      replace ((14100 - 100 * / IZR (2 ^ 45)) * IZR (2 ^ 39) - (14100 * IZR (2 ^ 39) - 2))
        with (2 - 100 * (IZR (2 ^ 39) * / IZR (2 ^ 45))) by ring.
      replace (IZR (2 ^ 39) * / IZR (2 ^ 45)) with (/ 64).
      + rewrite Rabs_pos_eq; lra.
      + replace (IZR (2 ^ 45)) with (IZR (2 ^ 39) * 64).
        * field. lra.
        * rewrite <- mult_IZR. f_equal. }
  unfold mul. eapply Rle_lt_trans; [| exact Hy].
  apply round_le; [nra | unfold y; lra].
Qed.

End Binary64_facts.

(** ** The conversion tables *)

Module conv_facts.
Import conv.
Open Scope R_scope.

Lemma fill_from_length (f : nat -> R) (t : list R) :
  forall i, length (fill_from f i t) = length t.
Proof.
  induction t as [| x t IH]; intros i; simpl; [reflexivity |].
  rewrite IH. reflexivity.
Qed.

Lemma fill_from_nth (f : nat -> R) (t : list R) :
  forall i k, (k < length t)%nat ->
  nth_error (fill_from f i t) k = Some (f (i + k)%nat).
Proof.
  induction t as [| x t IH]; intros i k Hk; simpl in Hk; [lia |].
  destruct k as [| k]; simpl.
  - rewrite Nat.add_0_r. reflexivity.
  - rewrite IH by lia. f_equal. f_equal. lia.
Qed.

Lemma centibelToRatioTable_size :
  length (centibelToRatioTable tables) = 1441%nat.
Proof.
  unfold tables, initialize, static_tables; cbn [initialized centibelToRatioTable].
  rewrite fill_from_length. apply repeat_length.
Qed.

Lemma centToHeltzTable_size :
  length (centToHeltzTable tables) = 1200%nat.
Proof.
  unfold tables, initialize, static_tables; cbn [initialized centToHeltzTable].
  rewrite fill_from_length. apply repeat_length.
Qed.

Lemma centibelToRatioTable_at (i : Z) :
  (0 <= i < 1441)%Z ->
  at_ (centibelToRatioTable tables) i = ret (Rpower 10 (IZR i / -200)).
Proof.
  intros Hi. apply at_in_range; [lia |].
  unfold tables, initialize, static_tables; cbn [initialized centibelToRatioTable].
  rewrite fill_from_nth by (rewrite repeat_length; lia).
  unfold pow. rewrite Nat.add_0_l, INR_IZR_INZ, Z2Nat.id by lia. reflexivity.
Qed.

Lemma centToHeltzTable_at (i : Z) :
  (0 <= i < 1200)%Z ->
  at_ (centToHeltzTable tables) i = ret (6.875 * Rpower 2 (IZR i / 1200)).
Proof.
  intros Hi. apply at_in_range; [lia |].
  unfold tables, initialize, static_tables; cbn [initialized centToHeltzTable].
  rewrite fill_from_nth by (rewrite repeat_length; lia).
  unfold exp2. rewrite Nat.add_0_l, INR_IZR_INZ, Z2Nat.id by lia. reflexivity.
Qed.

Lemma centibelToRatio_table_bound : INR (length (centibelToRatioTable tables)) = 1441.
Proof. rewrite centibelToRatioTable_size, INR_IZR_INZ. reflexivity. Qed.

Lemma centibelToRatio_low (cb : R) : cb <= 0 -> centibelToRatio tables cb = ret 1.
Proof.
  intros H. unfold centibelToRatio.
  destruct (Rle_dec cb 0) as [_ | Hn]; [reflexivity | contradiction].
Qed.

Lemma centibelToRatio_high (cb : R) : 1441 <= cb -> centibelToRatio tables cb = ret 0.
Proof.
  intros H. unfold centibelToRatio. rewrite centibelToRatio_table_bound.
  destruct (Rle_dec cb 0) as [Hle | _]; [lra |].
  destruct (Rge_dec cb 1441) as [_ | Hn]; [reflexivity | lra].
Qed.

Lemma centibelToRatio_mid (cb : R) :
  0 < cb < 1441 ->
  centibelToRatio tables cb = ret (Rpower 10 (IZR (Zfloor cb) / -200)).
Proof.
  intros H. unfold centibelToRatio. rewrite centibelToRatio_table_bound.
  destruct (Rle_dec cb 0) as [Hle | _]; [lra |].
  destruct (Rge_dec cb 1441) as [Hge | _]; [lra |].
  rewrite (size_t_of_double_floor cb 1441) by (try lia; lra).
  apply centibelToRatioTable_at.
  apply Zfloor_between. lra.
Qed.

Lemma keyToHeltz_loop_step (T : Tables) (key : R) (offset th : Z) (r : R) :
  keyToHeltz_loop T key offset th r =
  if Z_le_dec th 14100
  then if Rlt_dec (Binary64.mul key 100) (IZR th)
       then x <- at_ (centToHeltzTable T)
                     (wrap64 (size_t_of_double (Binary64.mul key 100) + offset)) ;;
            ret (r * x)
       else keyToHeltz_loop T key (wrap64 (offset - 1200)) (th + 1200) (r * 2.0)
  else ret 1.
Proof.
  rewrite keyToHeltz_loop_equation_1.
  destruct (Z_le_dec th 14100) as [Hle | Hgt]; [| reflexivity].
  rewrite keyToHeltz_loop_clause_1_equation_1. reflexivity.
Qed.

(** Past the last threshold the loop falls through to [return 1.0]. *)
Lemma keyToHeltz_loop_past_top (T : Tables) (key : R) (offset th : Z) (r : R) :
  14100 <= Binary64.mul key 100 -> keyToHeltz_loop T key offset th r = ret 1.
Proof.
  intros Hkey. funelim (keyToHeltz_loop T key offset th r).
  - destruct (Rlt_dec (Binary64.mul key 100) (IZR th)) as [Hlt | Hge].
    + pose proof (IZR_le _ _ l) as Hth. lra.
    + match goal with IH : _ -> _ -> _ = ret 1 |- _ => apply IH; assumption end.
  - reflexivity.
Qed.

Lemma keyToHeltz_loop_skip (T : Tables) (key : R) (offset th : Z) (r : R) :
  (th <= 14100)%Z -> IZR th <= Binary64.mul key 100 ->
  keyToHeltz_loop T key offset th r =
  keyToHeltz_loop T key (wrap64 (offset - 1200)) (th + 1200) (r * 2.0).
Proof.
  intros Hth Hkey. rewrite keyToHeltz_loop_step.
  destruct (Z_le_dec th 14100) as [_ | Hgt]; [| lia].
  destruct (Rlt_dec (Binary64.mul key 100) (IZR th)) as [Hlt | _]; [lra | reflexivity].
Qed.

Lemma keyToHeltz_loop_hit (T : Tables) (key : R) (offset th : Z) (r : R) :
  (th <= 14100)%Z -> Binary64.mul key 100 < IZR th ->
  keyToHeltz_loop T key offset th r =
  x <- at_ (centToHeltzTable T) (wrap64 (size_t_of_double (Binary64.mul key 100) + offset)) ;;
  ret (r * x).
Proof.
  intros Hth Hkey. rewrite keyToHeltz_loop_step.
  destruct (Z_le_dec th 14100) as [_ | Hgt]; [| lia].
  destruct (Rlt_dec (Binary64.mul key 100) (IZR th)) as [_ | Hge]; [reflexivity | lra].
Qed.

Lemma keyToHeltz_loop_done (T : Tables) (key : R) (offset th : Z) (r : R) :
  (14100 < th)%Z -> keyToHeltz_loop T key offset th r = ret 1.
Proof.
  intros Hth. rewrite keyToHeltz_loop_step.
  destruct (Z_le_dec th 14100) as [Hle | _]; [lia | reflexivity].
Qed.

(** At every threshold the loop visits, [offset] is [1200 - th] modulo
    2^64 and [r] is the power of two of the octave, so the index of the
    octave that contains [key] falls inside the table: the loop returns, and
    what it returns is positive and at most 2^11 * 13.75. *)
Lemma keyToHeltz_loop_returns (key : R) (n : nat) :
  forall (offset th : Z) (r : R) (j : nat),
  (thresholds_left th <= n)%nat ->
  offset = wrap64 (1200 - th) -> th = (900 + 1200 * Z.of_nat j)%Z -> r = 2 ^ j ->
  0 <= Binary64.mul key 100 -> IZR th - 1200 <= Binary64.mul key 100 ->
  exists hz, keyToHeltz_loop tables key offset th r = ret hz /\ 0 < hz <= 28160.
Proof.
  induction n as [| n IH]; intros offset th r j Hn Hoff Hth Hr H0 Hlow.
  - exists 1. split; [| lra].
    apply keyToHeltz_loop_done. unfold thresholds_left in Hn. lia.
  - destruct (Z_le_dec th 14100) as [Hle | Hgt].
    2:{ exists 1. split; [apply keyToHeltz_loop_done; lia | lra]. }
    destruct (Rlt_dec (Binary64.mul key 100) (IZR th)) as [Hlt | Hge].
    + rewrite keyToHeltz_loop_hit by assumption.
      assert (Hhi : IZR th <= 14100) by (apply IZR_le; assumption).
      rewrite (size_t_of_double_floor (Binary64.mul key 100) 14100) by (try lia; lra).
      assert (Hfl : (th - 1200 <= Zfloor (Binary64.mul key 100) < th)%Z).
      { apply Zfloor_between. rewrite minus_IZR. lra. }
      assert (Hfl0 : (0 <= Zfloor (Binary64.mul key 100))%Z) by (apply Zfloor_lub; lra).
      assert (Hidx : wrap64 (Zfloor (Binary64.mul key 100) + offset)
                     = (Zfloor (Binary64.mul key 100) + 1200 - th)%Z).
      { rewrite Hoff. unfold wrap64. rewrite Zplus_mod_idemp_r.
        rewrite <- Z.add_sub_assoc. apply Z.mod_small. lia. }
      rewrite Hidx, centToHeltzTable_at by lia. cbn [bind].
      eexists. split; [reflexivity |].
      set (i := (Zfloor (Binary64.mul key 100) + 1200 - th)%Z).
      assert (Hi : 0 <= IZR i / 1200 <= 1).
      { assert (0 <= IZR i <= 1200) by (split; apply IZR_le; lia). lra. }
      assert (Hx : 0 < Rpower 2 (IZR i / 1200) <= 2).
      { split; [apply exp_pos |].
        rewrite <- (Rpower_1 2) at 2 by lra. apply Rle_Rpower; lra. }
      assert (Hr2 : 0 < r <= 2048).
      { rewrite Hr. split; [apply pow_lt; lra |].
        replace 2048 with (2 ^ 11) by (simpl; lra).
        apply Rle_pow; [lra | lia]. }
      split; [apply Rmult_lt_0_compat; lra | nra].
    + rewrite keyToHeltz_loop_skip by (try assumption; lra).
      apply (IH _ _ _ (S j)).
      * unfold thresholds_left in *. lia.
      * rewrite Hoff. unfold wrap64. rewrite Zminus_mod_idemp_l. f_equal. lia.
      * lia.
      * rewrite Hr. simpl. lra.
      * assumption.
      * rewrite plus_IZR. lra.
Qed.

(** Started at the threshold of octave [k0] with the loop's own [offset]
    and [r], the loop skips to the octave [k] that contains the key and
    returns the closed form. *)
Lemma keyToHeltz_loop_octave (key : R) (k : nat) (n : nat) :
  forall (k0 : nat) (offset th : Z) (r : R),
  k = (k0 + n)%nat -> (k <= 11)%nat ->
  th = (900 + 1200 * Z.of_nat k0)%Z -> offset = wrap64 (1200 - th) -> r = 2 ^ k0 ->
  0 <= Binary64.mul key 100 ->
  IZR (900 + 1200 * Z.of_nat k) - 1200 <= Binary64.mul key 100 < IZR (900 + 1200 * Z.of_nat k) ->
  keyToHeltz_loop tables key offset th r
  = ret (octave_value k (Binary64.mul key 100)).
Proof.
  induction n as [| n IH]; intros k0 offset th r Hk Hk11 Hth Hoff Hr H0 Hkey.
  - assert (k0 = k) by lia. subst k0. rewrite <- Hth in Hkey.
    rewrite keyToHeltz_loop_hit by (try lia; lra).
    assert (Hhi : IZR th <= 14100) by (apply IZR_le; lia).
    rewrite (size_t_of_double_floor (Binary64.mul key 100) 14100) by (try lia; lra).
    assert (Hfl : (th - 1200 <= Zfloor (Binary64.mul key 100) < th)%Z).
    { apply Zfloor_between. rewrite minus_IZR. lra. }
    assert (Hfl0 : (0 <= Zfloor (Binary64.mul key 100))%Z) by (apply Zfloor_lub; lra).
    assert (Hidx : wrap64 (Zfloor (Binary64.mul key 100) + offset)
                   = (Zfloor (Binary64.mul key 100) + 300 - 1200 * Z.of_nat k)%Z).
    { rewrite Hoff. unfold wrap64. rewrite Zplus_mod_idemp_r.
      replace (Zfloor (Binary64.mul key 100) + (1200 - th))%Z
        with (Zfloor (Binary64.mul key 100) + 300 - 1200 * Z.of_nat k)%Z by lia.
      apply Z.mod_small. lia. }
    rewrite Hidx, centToHeltzTable_at by lia. cbn [bind].
    unfold octave_value. rewrite Hr. reflexivity.
  - assert (Hle : IZR th <= Binary64.mul key 100).
    { assert (IZR th <= IZR (900 + 1200 * Z.of_nat k) - 1200); [| lra].
      rewrite <- minus_IZR. apply IZR_le. lia. }
    rewrite keyToHeltz_loop_skip by (try lia; lra).
    apply (IH (S k0)); try assumption; try lia.
    + rewrite Hoff. unfold wrap64. rewrite Zminus_mod_idemp_l. f_equal. lia.
    + rewrite Hr. simpl. lra.
Qed.

(** [keyToHeltz] on a key of octave [k]. *)
Lemma keyToHeltz_rounded_form (key : R) (k : nat) :
  (k <= 11)%nat -> 0 <= key ->
  IZR (900 + 1200 * Z.of_nat k) - 1200 <= Binary64.mul key 100
    < IZR (900 + 1200 * Z.of_nat k) ->
  keyToHeltz tables key = ret (octave_value k (Binary64.mul key 100)).
Proof.
  intros Hk H0 Hkey. unfold keyToHeltz.
  destruct (Rlt_dec key 0) as [Hneg | _]; [lra |].
  apply (keyToHeltz_loop_octave key k k 0%nat); try reflexivity; try lia;
    try assumption.
  unfold Binary64.mul. apply Binary64_facts.round_nonneg. lra.
Qed.

(** A whole number of cents is a double: the product is exact. *)
Lemma mul_100_whole (n : Z) :
  (0 <= n < 2 ^ 40)%Z -> Binary64.mul (IZR n) 100 = IZR n * 100.
Proof.
  intros Hn. unfold Binary64.mul. rewrite <- mult_IZR.
  apply Binary64_facts.round_IZR. lia.
Qed.

(** [keyToHeltz] against the closed form of the design document, where the
    product [key * 100] is exact. *)
Lemma keyToHeltz_closed_form (key : R) (k : nat) :
  (k <= 11)%nat -> 0 <= key ->
  Binary64.mul key 100 = key * 100 ->
  IZR (900 + 1200 * Z.of_nat k) - 1200 <= key * 100 < IZR (900 + 1200 * Z.of_nat k) ->
  keyToHeltz tables key = ret (keyToHeltz_value k key).
Proof.
  intros Hk H0 Hexact Hkey.
  rewrite (keyToHeltz_rounded_form key k) by (try assumption; rewrite Hexact; exact Hkey).
  rewrite Hexact. reflexivity.
Qed.

Lemma keyToHeltz_returns (key : R) :
  exists hz, keyToHeltz tables key = ret hz /\ 0 < hz <= 28160.
Proof.
  unfold keyToHeltz.
  destruct (Rlt_dec key 0) as [Hneg | Hpos].
  - exists 1. split; [reflexivity | lra].
  - assert (Hcents : 0 <= Binary64.mul key 100).
    { unfold Binary64.mul. apply Binary64_facts.round_nonneg. lra. }
    apply (keyToHeltz_loop_returns key (thresholds_left 900) 300 900 1 0);
      try reflexivity; try lia; simpl; lra.
Qed.

Lemma centibelToRatio_returns (cb : R) :
  exists ratio, centibelToRatio tables cb = ret ratio /\ 0 <= ratio <= 1.
Proof.
  destruct (Rle_dec cb 0) as [Hlow | Hpos].
  - exists 1. split; [apply centibelToRatio_low; assumption | lra].
  - destruct (Rle_dec 1441 cb) as [Hhigh | Hmid].
    + exists 0. split; [apply centibelToRatio_high; assumption | lra].
    + eexists. split; [apply centibelToRatio_mid; lra |].
      assert (Hfl : (0 <= Zfloor cb)%Z) by (apply Zfloor_lub; lra).
      apply IZR_le in Hfl.
      split; [left; apply exp_pos |].
      rewrite <- (Rpower_O 10) by lra.
      apply Rle_Rpower; lra.
Qed.

Lemma centibelToRatio_closed_form (cb : R) :
  centibelToRatio tables cb = ret (centibelToRatio_value cb).
Proof.
  unfold centibelToRatio_value.
  destruct (Rle_dec cb 0) as [Hlow | Hpos].
  - apply centibelToRatio_low. assumption.
  - destruct (Rle_dec 1441 cb) as [Hhigh | Hmid].
    + apply centibelToRatio_high. assumption.
    + apply centibelToRatio_mid. lra.
Qed.

Lemma centibelToRatio_value_range (cb : R) : 0 <= centibelToRatio_value cb <= 1.
Proof.
  destruct (centibelToRatio_returns cb) as [ratio [Hret Hrange]].
  rewrite centibelToRatio_closed_form in Hret.
  injection Hret as Hret. rewrite Hret. exact Hrange.
Qed.

Lemma centibelToRatio_value_decreasing (a b : R) :
  a <= b -> centibelToRatio_value b <= centibelToRatio_value a.
Proof.
  intros Hab.
  pose proof (centibelToRatio_value_range a) as Ha.
  pose proof (centibelToRatio_value_range b) as Hb.
  unfold centibelToRatio_value in *.
  destruct (Rle_dec a 0) as [Ha0 | Ha0]; [lra |].
  destruct (Rle_dec b 0) as [Hb0 | Hb0]; [lra |].
  destruct (Rle_dec 1441 b) as [Hb1 | Hb1]; [lra |].
  destruct (Rle_dec 1441 a) as [Ha1 | Ha1]; [lra |].
  apply Rle_Rpower; [lra |].
  pose proof (IZR_le _ _ (Zfloor_le a b Hab)) as Hfl.
  lra.
Qed.

(** C4. [centibelToRatio(cb)] is 1.0 for [cb <= 0], 0.0 for [cb >= 1441] and
    [10^(floor(cb) / -200)] in between (the table lookup never leaves the
    table); so it is 1.0 at 0, 0.0 at 1441, and it never increases with
    [cb]. *)
Theorem centibelToRatio_piecewise_nonincreasing :
  (forall cb, cb <= 0 -> centibelToRatio tables cb = ret 1) /\
  (forall cb, 1441 <= cb -> centibelToRatio tables cb = ret 0) /\
  (forall cb, 0 < cb < 1441 ->
     centibelToRatio tables cb = ret (Rpower 10 (IZR (Zfloor cb) / -200))) /\
  centibelToRatio tables 0 = ret 1 /\
  centibelToRatio tables 1441 = ret 0 /\
  (forall a b, a <= b ->
     exists x y, centibelToRatio tables a = ret x /\
                 centibelToRatio tables b = ret y /\ y <= x).
Proof.
  repeat split.
  - apply centibelToRatio_low.
  - apply centibelToRatio_high.
  - apply centibelToRatio_mid.
  - apply centibelToRatio_low. lra.
  - apply centibelToRatio_high. lra.
  - intros a b Hab.
    exists (centibelToRatio_value a), (centibelToRatio_value b).
    repeat split; try apply centibelToRatio_closed_form.
    apply centibelToRatio_value_decreasing. exact Hab.
Qed.

Lemma centibelToRatio_piecewise_nonincreasing_witness :
  centibelToRatio tables (-3) = ret 1 /\
  centibelToRatio tables 2000 = ret 0 /\
  centibelToRatio tables 100.5 = ret (Rpower 10 (IZR (Zfloor 100.5) / -200)) /\
  exists x y, centibelToRatio tables 100.5 = ret x /\
              centibelToRatio tables 700 = ret y /\ y <= x.
Proof.
  destruct centibelToRatio_piecewise_nonincreasing
    as [Hlow [Hhigh [Hmid [_ [_ Hmono]]]]].
  split; [apply Hlow; lra |].
  split; [apply Hhigh; lra |].
  split; [apply Hmid; lra |].
  apply Hmono. lra.
Defined.

(** C7. [keyToHeltz(69)] is within 1e-9 relative error of 440 (it is 440),
    and [keyToHeltz] is 1.0 for every negative key. *)
Theorem keyToHeltz_A4_and_negative :
  (exists hz, keyToHeltz tables 69 = ret hz /\ Rabs (hz - 440) <= 1e-9 * 440) /\
  (forall key, key < 0 -> keyToHeltz tables key = ret 1).
Proof.
  split.
  - exists 440. split.
    2:{ replace (440 - 440) with 0 by lra. rewrite Rabs_R0. lra. }
    rewrite (keyToHeltz_closed_form 69 6);
      [| lia | lra | exact (mul_100_whole 69 ltac:(lia)) | simpl; lra].
    unfold keyToHeltz_value.
    replace (69 * 100) with (IZR 6900) by lra. rewrite ZfloorZ.
    replace (IZR (6900 + 300 - 1200 * Z.of_nat 6) / 1200) with 0
      by (simpl; lra).
    rewrite Rpower_O by lra.
    f_equal. simpl. lra.
  - intros key Hneg. unfold keyToHeltz.
    destruct (Rlt_dec key 0) as [_ | Hpos]; [reflexivity | contradiction].
Qed.

Lemma keyToHeltz_A4_and_negative_witness :
  (exists hz, keyToHeltz tables 69 = ret hz /\ Rabs (hz - 440) <= 1e-9 * 440) /\
  keyToHeltz tables (-1) = ret 1.
Proof.
  destruct keyToHeltz_A4_and_negative as [HA4 Hneg].
  split; [exact HA4 | apply Hneg; lra].
Defined.

(** C10. For every key of 141 or more [keyToHeltz] returns 1.0: no threshold
    of the loop exceeds [key * 100], so the loop falls through. *)
Theorem keyToHeltz_above_table (key : R) :
  141 <= key -> keyToHeltz tables key = ret 1.
Proof.
  intros Hkey. unfold keyToHeltz.
  destruct (Rlt_dec key 0) as [Hneg | _]; [reflexivity |].
  apply keyToHeltz_loop_past_top.
  replace 14100 with (Binary64.round (IZR 14100))
    by (apply Binary64_facts.round_IZR; lia).
  unfold Binary64.mul. apply Binary64_facts.round_le; lra.
Qed.

Lemma keyToHeltz_above_table_witness :
  141 <= 141 /\ keyToHeltz tables 141 = ret 1.
Proof.
  split; [lra | apply keyToHeltz_above_table; lra].
Defined.

(** *** Further properties of the conversions *)

(** [initialize()] fills slot [i] of the two tables with [10^(i / -200)]
    and [6.875 * 2^(i / 1200)], keeps their sizes, and a second call changes
    nothing. *)
Theorem initialize_fills_once :
  (forall i, (0 <= i < 1441)%Z ->
     at_ (centibelToRatioTable (initialize static_tables)) i
     = ret (Rpower 10 (IZR i / -200))) /\
  (forall i, (0 <= i < 1200)%Z ->
     at_ (centToHeltzTable (initialize static_tables)) i
     = ret (6.875 * Rpower 2 (IZR i / 1200))) /\
  (forall i, (1441 <= i)%Z ->
     at_ (centibelToRatioTable (initialize static_tables)) i = out_of_range) /\
  (forall i, (1200 <= i)%Z ->
     at_ (centToHeltzTable (initialize static_tables)) i = out_of_range) /\
  (forall T, initialize (initialize T) = initialize T).
Proof.
  split; [exact centibelToRatioTable_at |].
  split; [exact centToHeltzTable_at |].
  split; [| split].
  - intros i Hi. unfold at_.
    destruct (Z.ltb_spec i 0) as [Hneg | _]; [lia |].
    fold tables.
    destruct (nth_error (centibelToRatioTable tables) (Z.to_nat i)) eqn:Hn;
      [| reflexivity].
    assert (Hlt : (Z.to_nat i < length (centibelToRatioTable tables))%nat).
    { apply nth_error_Some. rewrite Hn. discriminate. }
    rewrite centibelToRatioTable_size in Hlt. lia.
  - intros i Hi. unfold at_.
    destruct (Z.ltb_spec i 0) as [Hneg | _]; [lia |].
    fold tables.
    destruct (nth_error (centToHeltzTable tables) (Z.to_nat i)) eqn:Hn;
      [| reflexivity].
    assert (Hlt : (Z.to_nat i < length (centToHeltzTable tables))%nat).
    { apply nth_error_Some. rewrite Hn. discriminate. }
    rewrite centToHeltzTable_size in Hlt. lia.
  - intros T. unfold initialize.
    destruct (initialized T) eqn:Hinit.
    + rewrite Hinit. reflexivity.
    + reflexivity.
Qed.

(** [centibelToRatio] never reads outside its table: it returns for every
    input, a ratio between 0 and 1 that is positive below 1441. *)
Theorem centibelToRatio_is_a_ratio (cb : R) :
  exists ratio, centibelToRatio tables cb = ret ratio /\
    0 <= ratio <= 1 /\ (cb < 1441 -> 0 < ratio).
Proof.
  exists (centibelToRatio_value cb).
  split; [apply centibelToRatio_closed_form |].
  split; [apply centibelToRatio_value_range |].
  intros Hlt. unfold centibelToRatio_value.
  destruct (Rle_dec cb 0) as [_ | _]; [lra |].
  destruct (Rle_dec 1441 cb) as [Hge | _]; [lra | apply exp_pos].
Qed.

(** [keyToHeltz] never reads outside its table: it returns for every key, a
    positive frequency of at most 2^11 * 13.75 = 28160. *)
Theorem keyToHeltz_is_bounded (key : R) :
  exists hz, keyToHeltz tables key = ret hz /\ 0 < hz <= 28160.
Proof. apply keyToHeltz_returns. Qed.

Lemma octave_range (cents : R) :
  0 <= cents < 14100 ->
  (octave cents <= 11)%nat /\
  IZR (900 + 1200 * Z.of_nat (octave cents)) - 1200 <= cents
    < IZR (900 + 1200 * Z.of_nat (octave cents)).
Proof.
  intros Hcents. unfold octave.
  set (y := (cents + 300) / 1200).
  destruct (Zfloor_bound y) as [Hlo Hhi].
  assert (Hz : (0 <= Zfloor y < 12)%Z).
  { apply Zfloor_between. unfold y. lra. }
  rewrite Z2Nat.id by lia. split; [lia |].
  rewrite plus_IZR, mult_IZR. subst y. lra.
Qed.

Lemma mul_100_nonneg (key : R) : 0 <= key -> 0 <= Binary64.mul key 100.
Proof.
  intros Hkey. unfold Binary64.mul. apply Binary64_facts.round_nonneg. lra.
Qed.

Lemma mul_100_le (a b : R) :
  0 <= a -> a <= b -> Binary64.mul a 100 <= Binary64.mul b 100.
Proof.
  intros Ha Hab. unfold Binary64.mul. apply Binary64_facts.round_le; lra.
Qed.

Lemma keyToHeltz_at_octave (key : R) :
  0 <= key -> Binary64.mul key 100 < 14100 ->
  keyToHeltz tables key
  = ret (octave_value (octave (Binary64.mul key 100)) (Binary64.mul key 100)).
Proof.
  intros Hkey Htop.
  destruct (octave_range (Binary64.mul key 100)) as [Hk Hrange];
    [split; [apply mul_100_nonneg; exact Hkey | exact Htop] |].
  apply keyToHeltz_rounded_form; assumption.
Qed.

Lemma octave_value_index (cents : R) :
  0 <= cents < 14100 ->
  (0 <= Zfloor cents + 300 - 1200 * Z.of_nat (octave cents) < 1200)%Z.
Proof.
  intros Hcents. destruct (octave_range cents Hcents) as [_ Hrange].
  rewrite plus_IZR, mult_IZR in Hrange.
  assert (Hfl : (1200 * Z.of_nat (octave cents) - 300 <= Zfloor cents
                 < 900 + 1200 * Z.of_nat (octave cents))%Z).
  { apply Zfloor_between. rewrite minus_IZR, plus_IZR, !mult_IZR. lra. }
  lia.
Qed.

(** For a double [key] in [[0, 141)] [keyToHeltz] is
    [2^k * 6.875 * 2^((floor(cents) + 300 - 1200 k) / 1200)], where
    [cents] is the product [key * 100] as the doubles give it and [k] is
    the octave of [cents]; [k <= 11] and the table slot
    [floor(cents) + 300 - 1200 k] is in [[0, 1200)].  Where the product is
    exact this is the closed form of the design document. *)
Theorem keyToHeltz_in_table (key : R) :
  Binary64.representable key -> 0 <= key < 141 ->
  let cents := Binary64.mul key 100 in
  keyToHeltz tables key = ret (octave_value (octave cents) cents) /\
  (octave cents <= 11)%nat /\
  (0 <= Zfloor cents + 300 - 1200 * Z.of_nat (octave cents) < 1200)%Z /\
  (cents = key * 100 ->
   keyToHeltz tables key = ret (keyToHeltz_value (octave cents) key)).
Proof.
  intros Hdouble Hkey cents.
  assert (Hcents : 0 <= cents < 14100).
  { split; [apply mul_100_nonneg; lra |].
    apply Binary64_facts.mul_100_below_top; assumption. }
  assert (Hret : keyToHeltz tables key = ret (octave_value (octave cents) cents))
    by (apply keyToHeltz_at_octave; [lra | apply Hcents]).
  split; [exact Hret |].
  split; [apply octave_range; exact Hcents |].
  split; [apply octave_value_index; exact Hcents |].
  intros Hexact. rewrite Hret. unfold octave_value, keyToHeltz_value.
  rewrite Hexact. reflexivity.
Qed.

Lemma octave_next (cents : R) :
  0 <= cents -> octave (cents + 1200) = S (octave cents).
Proof.
  intros Hcents. unfold octave.
  replace ((cents + 1200 + 300) / 1200) with ((cents + 300) / 1200 + IZR 1)
    by lra.
  rewrite Zfloor_addz.
  assert (0 <= Zfloor ((cents + 300) / 1200))%Z by (apply Zfloor_lub; simpl; lra).
  rewrite Z2Nat.inj_add by lia. simpl. lia.
Qed.

(** One octave up doubles the frequency of every whole key:
    [keyToHeltz(n + 12)] is twice [keyToHeltz(n)] for the key numbers [n]
    from 0 to 128 (both products [key * 100] are then exact, and the two
    lookups read the same slot one octave apart). *)
Theorem keyToHeltz_octave_doubles (n : Z) :
  (0 <= n <= 128)%Z ->
  exists hz, keyToHeltz tables (IZR n) = ret hz /\
             keyToHeltz tables (IZR n + 12) = ret (2 * hz).
Proof.
  intros Hn.
  assert (Hlow : Binary64.mul (IZR n) 100 = IZR (n * 100))
    by (rewrite mult_IZR; apply mul_100_whole; lia).
  assert (Hhigh : Binary64.mul (IZR n + 12) 100 = IZR (n * 100) + 1200).
  { replace (IZR n + 12) with (IZR (n + 12)) by (rewrite plus_IZR; reflexivity).
    rewrite mul_100_whole by lia. rewrite plus_IZR, mult_IZR. lra. }
  assert (Hc : 0 <= IZR (n * 100) <= 12800) by (split; apply IZR_le; lia).
  assert (Hkey : 0 <= IZR n <= 128) by (split; apply IZR_le; lia).
  exists (octave_value (octave (IZR (n * 100))) (IZR (n * 100))).
  split.
  - rewrite keyToHeltz_at_octave by (rewrite ?Hlow; lra).
    rewrite Hlow. reflexivity.
  - rewrite keyToHeltz_at_octave by (rewrite ?Hhigh; lra).
    rewrite Hhigh, octave_next by lra. f_equal.
    unfold octave_value.
    replace (IZR (n * 100) + 1200) with (IZR (n * 100) + IZR 1200) by lra.
    rewrite Zfloor_addz.
    replace (Zfloor (IZR (n * 100)) + 1200 + 300
             - 1200 * Z.of_nat (S (octave (IZR (n * 100)))))%Z
      with (Zfloor (IZR (n * 100)) + 300
            - 1200 * Z.of_nat (octave (IZR (n * 100))))%Z by lia.
    simpl. lra.
Qed.

Lemma keyToHeltz_octave_doubles_witness :
  exists hz, keyToHeltz tables (IZR 57) = ret hz /\
             keyToHeltz tables (IZR 57 + 12) = ret (2 * hz).
Proof. apply keyToHeltz_octave_doubles; lia. Defined.

Lemma octave_value_bounds (cents : R) :
  0 <= cents < 14100 ->
  2 ^ octave cents * 6.875 <= octave_value (octave cents) cents
    < 2 ^ octave cents * 13.75.
Proof.
  intros Hcents. pose proof (octave_value_index cents Hcents) as Hi.
  unfold octave_value.
  set (i := (Zfloor cents + 300 - 1200 * Z.of_nat (octave cents))%Z) in *.
  assert (Hq : 0 <= IZR i / 1200 < 1).
  { assert (0 <= IZR i < 1200) by (split; [apply IZR_le | apply IZR_lt]; lia). lra. }
  assert (Hp : 1 <= Rpower 2 (IZR i / 1200) < 2).
  { split.
    - rewrite <- (Rpower_O 2) by lra. apply Rle_Rpower; lra.
    - rewrite <- (Rpower_1 2) at 2 by lra. apply Rpower_lt; lra. }
  assert (Hk : 0 < 2 ^ octave cents) by (apply pow_lt; lra).
  nra.
Qed.

Lemma octave_le (a b : R) : 0 <= a -> a <= b -> (octave a <= octave b)%nat.
Proof.
  intros H0 Hab. unfold octave. apply Z2Nat.inj_le.
  - apply Zfloor_lub. simpl. lra.
  - apply Zfloor_lub. simpl. lra.
  - apply Zfloor_le. lra.
Qed.

(** Below key 141 [keyToHeltz] never decreases with the key (negative keys
    give 1.0, which is below every table value); the upper key is a
    double, as every argument of the code is. *)
Theorem keyToHeltz_nondecreasing (a b : R) :
  Binary64.representable b ->
  a <= b -> b < 141 ->
  exists x y, keyToHeltz tables a = ret x /\ keyToHeltz tables b = ret y /\ x <= y.
Proof.
  intros Hdouble Hab Hb.
  destruct (Rlt_dec b 0) as [Hbneg | Hbpos].
  { exists 1, 1. unfold keyToHeltz.
    destruct (Rlt_dec a 0) as [_ | Ha]; [| lra].
    destruct (Rlt_dec b 0) as [_ | Hb']; [| lra].
    repeat split; lra. }
  set (cb := Binary64.mul b 100).
  assert (Hcb : 0 <= cb < 14100).
  { split; [apply mul_100_nonneg; lra |].
    apply Binary64_facts.mul_100_below_top; [exact Hdouble | lra]. }
  pose proof (octave_value_bounds cb Hcb) as Hvb.
  assert (Hkb : 1 <= 2 ^ octave cb) by (apply pow_R1_Rle; lra).
  assert (Hretb : keyToHeltz tables b = ret (octave_value (octave cb) cb))
    by (apply keyToHeltz_at_octave; [lra | apply Hcb]).
  destruct (Rlt_dec a 0) as [Haneg | Hapos].
  { exists 1, (octave_value (octave cb) cb).
    split.
    { unfold keyToHeltz. destruct (Rlt_dec a 0) as [_ | Ha]; [reflexivity | lra]. }
    split; [exact Hretb | nra]. }
  set (ca := Binary64.mul a 100).
  assert (Hcab : ca <= cb) by (apply mul_100_le; lra).
  assert (Hca : 0 <= ca < 14100) by (split; [apply mul_100_nonneg; lra | lra]).
  pose proof (octave_value_bounds ca Hca) as Hva.
  exists (octave_value (octave ca) ca), (octave_value (octave cb) cb).
  split; [apply keyToHeltz_at_octave; [lra | apply Hca] |].
  split; [exact Hretb |].
  pose proof (octave_le ca cb ltac:(lra) Hcab) as Hoct.
  destruct (Nat.eq_dec (octave ca) (octave cb)) as [Heq | Hne].
  - unfold octave_value. rewrite Heq.
    assert (Hk : 0 < 2 ^ octave cb) by (apply pow_lt; lra).
    apply Rmult_le_compat_l; [lra |].
    apply Rmult_le_compat_l; [lra |].
    apply Rle_Rpower; [lra |].
    assert (Hfl : (Zfloor ca <= Zfloor cb)%Z) by (apply Zfloor_le; lra).
    assert (IZR (Zfloor ca + 300 - 1200 * Z.of_nat (octave cb))
            <= IZR (Zfloor cb + 300 - 1200 * Z.of_nat (octave cb)))
      by (apply IZR_le; lia).
    lra.
  - assert (Hpow : 2 ^ S (octave ca) <= 2 ^ octave cb) by (apply Rle_pow; [lra | lia]).
    simpl in Hpow. lra.
Qed.

Lemma keyToHeltz_nondecreasing_witness :
  exists x y, keyToHeltz tables 59.99 = ret x /\ keyToHeltz tables (IZR 60) = ret y /\ x <= y.
Proof.
  apply keyToHeltz_nondecreasing;
    [apply Binary64_facts.representable_IZR; lia | lra | lra].
Defined.

(** [timecentToSecond] and [absoluteCentToHeltz] are exponentials of base 2
    in steps of 1200: positive, strictly increasing, doubled by 1200 more,
    with [timecentToSecond(0) = 1] and [absoluteCentToHeltz(0) = 8.176]. *)
Theorem cents_are_octaves :
  (forall tc, 0 < timecentToSecond tc /\
              timecentToSecond (tc + 1200) = 2 * timecentToSecond tc) /\
  (forall a b, a < b -> timecentToSecond a < timecentToSecond b) /\
  timecentToSecond 0 = 1 /\
  (forall ac, 0 < absoluteCentToHeltz ac /\
              absoluteCentToHeltz (ac + 1200) = 2 * absoluteCentToHeltz ac) /\
  (forall a b, a < b -> absoluteCentToHeltz a < absoluteCentToHeltz b) /\
  absoluteCentToHeltz 0 = 8.176.
Proof.
  assert (Hdouble : forall x, exp2 ((x + 1200) / 1200) = 2 * exp2 (x / 1200)).
  { intros x. unfold exp2.
    replace ((x + 1200) / 1200) with (x / 1200 + 1) by lra.
    rewrite Rpower_plus, Rpower_1 by lra. lra. }
  assert (Hpos : forall x, 0 < exp2 x) by (intros x; apply exp_pos).
  assert (Hmono : forall a b, a < b -> exp2 (a / 1200) < exp2 (b / 1200)).
  { intros a b Hab. apply Rpower_lt; lra. }
  assert (Hzero : exp2 (0 / 1200) = 1).
  { unfold exp2. replace (0 / 1200) with 0 by lra. apply Rpower_O. lra. }
  unfold timecentToSecond, absoluteCentToHeltz.
  split; [intros tc; split; [apply Hpos | apply Hdouble] |].
  split; [exact Hmono |].
  split; [exact Hzero |].
  split.
  { intros ac. split.
    - apply Rmult_lt_0_compat; [lra | apply Hpos].
    - rewrite Hdouble. lra. }
  split.
  { intros a b Hab. apply Rmult_lt_compat_l; [lra | apply Hmono; exact Hab]. }
  rewrite Hzero. lra.
Qed.

Lemma land_shifted_low (a b : Z) :
  (0 <= b < 2 ^ 7)%Z -> Z.land (Z.shiftl a 7) b = 0%Z.
Proof.
  intros Hb. apply Z.bits_inj'. intros n Hn.
  rewrite Z.land_spec, Z.bits_0.
  destruct (Z.lt_ge_cases n 7) as [Hlow | Hhigh].
  - rewrite Z.shiftl_spec_low by exact Hlow. reflexivity.
  - destruct (Z.eq_dec b 0) as [-> | Hne].
    + rewrite Z.bits_0. apply andb_false_r.
    + rewrite (Z.bits_above_log2 b n); [apply andb_false_r | lia |].
      apply Z.lt_le_trans with 7%Z; [| exact Hhigh].
      apply Z.log2_lt_pow2; lia.
Qed.

(** [joinBytes] of two bytes is [128 * msb + lsb], never narrowed.  On two
    7-bit values it is the 14-bit number whose upper seven bits are [msb]
    and whose lower seven are [lsb] (the sum is then the bitwise or); a set
    top bit of [lsb] carries into the field of [msb]. *)
Theorem joinBytes_is_14_bit (msb lsb : Z) :
  (0 <= msb < 256)%Z -> (0 <= lsb < 256)%Z ->
  joinBytes msb lsb = (128 * msb + lsb)%Z /\
  ((msb < 128)%Z -> (lsb < 128)%Z ->
     (0 <= joinBytes msb lsb < 16384)%Z /\
     Z.shiftr (joinBytes msb lsb) 7 = msb /\
     Z.land (joinBytes msb lsb) 127 = lsb /\
     joinBytes msb lsb = Z.lor (Z.shiftl msb 7) lsb) /\
  ((msb < 255)%Z -> (128 <= lsb)%Z ->
     joinBytes msb lsb = joinBytes (msb + 1) (lsb - 128)).
Proof.
  intros Hm Hl.
  assert (Hjoin : forall m l, (0 <= m < 256)%Z -> (0 <= l < 256)%Z ->
            joinBytes m l = (128 * m + l)%Z).
  { intros m l Hm' Hl'. unfold joinBytes, wrap16.
    change (2 ^ 16)%Z with 65536%Z.
    rewrite (Z.mod_small m), (Z.mod_small l) by lia.
    rewrite Z.shiftl_mul_pow2 by lia. change (2 ^ 7)%Z with 128%Z.
    rewrite Z.mod_small by lia. lia. }
  split; [apply Hjoin; assumption |].
  split.
  - intros Hm7 Hl7. rewrite Hjoin by assumption.
    split; [lia |].
    split.
    { rewrite Z.shiftr_div_pow2 by lia. change (2 ^ 7)%Z with 128%Z.
      symmetry. apply (Z.div_unique _ _ _ lsb); lia. }
    split.
    { change 127%Z with (Z.ones 7). rewrite Z.land_ones by lia.
      change (2 ^ 7)%Z with 128%Z.
      symmetry. apply (Z.mod_unique _ _ msb); lia. }
    rewrite <- (Z.add_0_r (Z.lor (Z.shiftl msb 7) lsb)).
    rewrite <- (land_shifted_low msb lsb) by (change (2 ^ 7)%Z with 128%Z; lia).
    rewrite Z.add_lor_land.
    rewrite Z.shiftl_mul_pow2 by lia. change (2 ^ 7)%Z with 128%Z. lia.
  - intros Hm255 Hl128. rewrite !Hjoin by lia. lia.
Qed.

Lemma joinBytes_is_14_bit_witness :
  joinBytes 64 0 = (128 * 64 + 0)%Z /\
  (0 <= joinBytes 64 0 < 16384)%Z /\
  Z.shiftr (joinBytes 64 0) 7 = 64%Z.
Proof.
  destruct (joinBytes_is_14_bit 64 0) as [Hsum [H7 _]]; [lia | lia |].
  destruct H7 as [Hrange [Hmsb _]]; [lia | lia |].
  split; [exact Hsum |]. split; [exact Hrange | exact Hmsb].
Defined.

End conv_facts.

(** ** The pan law *)

(** C9. For every pan in [[-500, 500]] the left gain at [-pan] is the right
    gain at [pan]. *)
Theorem calculatePannedVolume_mirror (pan : R) :
  (-500 <= pan <= 500)%R ->
  left (calculatePannedVolume (- pan)) = right (calculatePannedVolume pan).
Proof.
  intros _. unfold calculatePannedVolume.
  destruct (Rle_dec (- pan) (-500.0)) as [Hl | Hl];
    destruct (Rle_dec pan (-500.0)) as [Hr | Hr];
    destruct (Rge_dec pan 500.0) as [Hr' | Hr'];
    try destruct (Rge_dec (- pan) 500.0) as [Hl' | Hl'];
    cbn [left right]; try lra.
  rewrite Ropp_involutive. reflexivity.
Qed.

Lemma calculatePannedVolume_mirror_witness :
  (-500 <= 250 <= 500)%R /\
  left (calculatePannedVolume (- 250)) = right (calculatePannedVolume 250).
Proof.
  split; [lra | apply calculatePannedVolume_mirror; lra].
Defined.

(** ** Stereo values *)

(** The operators of [StereoValue] agree with one another: [+=] leaves what
    [+] returns, a scalar scales the same from either side, a pair with two
    equal channels multiplies like that scalar, and [+] and the pairwise [*]
    commute. *)
Theorem stereo_operators_agree (a b : StereoValue) (k : R) :
  Stereo.add_assign a b = Stereo.add a b /\
  Stereo.scaled_by k a = Stereo.scale a k /\
  Stereo.mul a (mkStereo k k) = Stereo.scale a k /\
  Stereo.add a b = Stereo.add b a /\
  Stereo.mul a b = Stereo.mul b a.
Proof.
  unfold Stereo.add_assign, Stereo.add, Stereo.scaled_by, Stereo.scale, Stereo.mul.
  cbn [left right].
  repeat split; try reflexivity; f_equal; apply Rplus_comm || apply Rmult_comm.
Qed.

(** ** The pan law, continued *)

Lemma pan_gain_range (x : R) :
  (0 <= x <= 1000)%R -> (0 <= sin (3.141592653589793 / 2000.0 * x) <= 1)%R.
Proof.
  intros Hx. split.
  - apply sin_ge_0; [lra |]. pose proof PI2_3_2. lra.
  - apply SIN_bound.
Qed.

Lemma calculatePannedVolume_range (pan : R) :
  (0 <= left (calculatePannedVolume pan) <= 1)%R /\
  (0 <= right (calculatePannedVolume pan) <= 1)%R.
Proof.
  unfold calculatePannedVolume.
  destruct (Rle_dec pan (-500.0)) as [Hl | Hl]; [cbn [left right]; lra |].
  destruct (Rge_dec pan 500.0) as [Hr | Hr]; [cbn [left right]; lra |].
  cbn [left right]. split; apply pan_gain_range; lra.
Qed.

(** Both gains of [calculatePannedVolume] are between 0 and 1 for every
    pan; at -500 and below the pair is [{1, 0}], at 500 and above it is
    [{0, 1}], and at the centre the two gains are equal. *)
Theorem calculatePannedVolume_gains :
  (forall pan,
     (0 <= left (calculatePannedVolume pan) <= 1)%R /\
     (0 <= right (calculatePannedVolume pan) <= 1)%R) /\
  (forall pan, (pan <= -500)%R -> calculatePannedVolume pan = mkStereo 1 0) /\
  (forall pan, (500 <= pan)%R -> calculatePannedVolume pan = mkStereo 0 1) /\
  left (calculatePannedVolume 0) = right (calculatePannedVolume 0).
Proof.
  split; [exact calculatePannedVolume_range |].
  unfold calculatePannedVolume. split; [| split].
  - intros pan Hpan.
    destruct (Rle_dec pan (-500.0)) as [_ | Hl]; [| lra]. f_equal; lra.
  - intros pan Hpan.
    destruct (Rle_dec pan (-500.0)) as [Hl | _]; [lra |].
    destruct (Rge_dec pan 500.0) as [_ | Hr]; [| lra]. f_equal; lra.
  - destruct (Rle_dec 0 (-500.0)) as [Hl | _]; [lra |].
    destruct (Rge_dec 0 500.0) as [Hr | _]; [lra |].
    cbn [left right]. f_equal. lra.
Qed.

(** ** The voice *)

Lemma SFGenerator_beq_eq (x y : SFGenerator.t) :
  SFGenerator.t_beq x y = true <-> x = y.
Proof.
  split.
  - apply SFGenerator.internal_t_dec_bl.
  - apply SFGenerator.internal_t_dec_lb.
Qed.

Lemma SFGenerator_beq_refl (x : SFGenerator.t) : SFGenerator.t_beq x x = true.
Proof. apply SFGenerator_beq_eq. reflexivity. Qed.

Lemma SFGenerator_beq_neq (x y : SFGenerator.t) :
  x <> y -> SFGenerator.t_beq x y = false.
Proof.
  intros Hne. destruct (SFGenerator.t_beq x y) eqn:Hb; [| reflexivity].
  apply SFGenerator_beq_eq in Hb. contradiction.
Qed.

Lemma getIntegerPart_range (a : FixedPoint) :
  (0 <= Fixed.getIntegerPart a < 2 ^ 32)%Z.
Proof. unfold Fixed.getIntegerPart, wrap32. apply Z.mod_pos_bound. lia. Qed.

(** [assign_at] against the prefix and the suffix of the vector. *)
Lemma assign_at_length {A : Type} (x : A) (l : list A) :
  forall i, length (assign_at i x l) = length l.
Proof.
  induction l as [| y l IH]; intros [| i]; simpl; try reflexivity.
  rewrite IH. reflexivity.
Qed.

Lemma assign_at_firstn {A : Type} (x m : A) (l : list A) :
  forall i, nth_error l i = Some m ->
  firstn (S i) (assign_at i x l) = firstn i l ++ [x].
Proof.
  induction l as [| y l IH]; intros [| i] Hn; simpl in *; try discriminate.
  - reflexivity.
  - f_equal. apply IH. exact Hn.
Qed.

Lemma assign_at_skipn {A : Type} (x : A) (l : list A) :
  forall i, skipn (S i) (assign_at i x l) = skipn (S i) l.
Proof.
  induction l as [| y l IH]; intros [| i]; simpl; try reflexivity.
  apply IH.
Qed.

Lemma skipn_nth_error {A : Type} (m : A) (l : list A) :
  forall i, nth_error l i = Some m -> skipn i l = m :: skipn (S i) l.
Proof.
  induction l as [| y l IH]; intros [| i] Hn; simpl in *; try discriminate.
  - congruence.
  - apply IH. exact Hn.
Qed.

Lemma firstn_nth_error {A : Type} (m : A) (l : list A) :
  forall i, nth_error l i = Some m -> firstn (S i) l = firstn i l ++ [m].
Proof.
  induction l as [| y l IH]; intros [| i] Hn; simpl in *; try discriminate.
  - congruence.
  - f_equal. apply IH. exact Hn.
Qed.

Module Voice_facts.
Import Voice.

Section Components.

Context {E L P M : Type}.
Context {envelope : Envelope.ops E} {lfo : LFO.ops L} {modulator : Modulator.ops P M}.

Abbreviation Voice := (Voice.t E L M).

Lemma same_playback_refl (v : Voice) : same_playback v v.
Proof. repeat split. Qed.

Lemma same_playback_trans (v1 v2 v3 : Voice) :
  same_playback v1 v2 -> same_playback v2 v3 -> same_playback v1 v3.
Proof.
  unfold same_playback. intros [? [? [? [? ?]]]] [? [? [? [? ?]]]].
  repeat split; congruence.
Qed.

(** [updateModulatedParams] returns; it rewrites one entry of
    [modulations_] and touches neither the modulators nor the playback
    position. *)
Lemma updateModulatedParams_effect (destination : SFGenerator.t) (v : Voice) :
  exists v', updateModulatedParams destination v = ret v' /\
    same_playback v v' /\
    modulators_ v' = modulators_ v /\
    modulations_ v' =
      assign_modulation destination (accumulate destination (modulators_ v))
        (modulations_ v).
Proof.
  unfold updateModulatedParams.
  destruct destination;
    try rewrite conv_facts.centibelToRatio_closed_form; cbn [bind];
    (eexists; split; [reflexivity | repeat split]).
Qed.

(** C8. [overrideGenerator(generator, value)] stores [value] under
    [generator] in the generator set and leaves every other member of the
    voice as it was: other generators, [modulations_], [volume_],
    [voicePitch_], [deltaPhase_], [phase_], the envelopes, the oscillators
    and the modulators. *)
Theorem overrideGenerator_frame (generator : SFGenerator.t) (value : Z) (v : Voice) :
  let v' := overrideGenerator generator value v in
  GeneratorSet.getOrDefault (generators_ v') generator = value /\
  (forall other, other <> generator ->
     GeneratorSet.getOrDefault (generators_ v') other
     = GeneratorSet.getOrDefault (generators_ v) other) /\
  modulations_ v' = modulations_ v /\
  volume_ v' = volume_ v /\
  voicePitch_ v' = voicePitch_ v /\
  deltaPhase_ v' = deltaPhase_ v /\
  deltaPhaseFactor_ v' = deltaPhaseFactor_ v /\
  phase_ v' = phase_ v /\
  volEnv_ v' = volEnv_ v /\ modEnv_ v' = modEnv_ v /\
  vibLFO_ v' = vibLFO_ v /\ modLFO_ v' = modLFO_ v /\
  modulators_ v' = modulators_ v /\
  sample_ v' = sample_ v /\ released_ v' = released_ v /\
  noteID_ v' = noteID_ v /\ actualKey_ v' = actualKey_ v /\
  key_ v' = key_ v /\ velocity_ v' = velocity_ v.
Proof.
  cbv zeta. unfold overrideGenerator, GeneratorSet.getOrDefault, GeneratorSet.set.
  cbn. split; [rewrite SFGenerator_beq_refl; reflexivity |].
  split; [| repeat split].
  intros other Hne. rewrite SFGenerator_beq_neq by assumption. reflexivity.
Qed.

Lemma render_finished (v : Voice) :
  Envelope.isFinished (volEnv_ v) = true -> render v = ret (mkStereo 0 0).
Proof.
  intros Hfin. unfold render. rewrite Hfin. f_equal. f_equal; lra.
Qed.

Lemma render_sounding (v : Voice) (a b : Z) :
  Envelope.isFinished (volEnv_ v) = false ->
  at_ (RuntimeSample.buffer (sample_ v)) (Fixed.getIntegerPart (phase_ v)) = ret a ->
  at_ (RuntimeSample.buffer (sample_ v))
      (wrap32 (Fixed.getIntegerPart (phase_ v) + 1)) = ret b ->
  render v = ret (rendered v a b).
Proof.
  intros Hfin Ha Hb. unfold render. rewrite Hfin, Ha, Hb.
  rewrite conv_facts.centibelToRatio_closed_form. cbn [bind].
  unfold rendered, Stereo.scale, Stereo.scaled_by, INT16_MAX. cbn [left right].
  f_equal. f_equal; lra.
Qed.

(** C2. [render()] is [{0,0}] once the volume envelope has finished;
    otherwise, with [i] and [r] the integer and fractional part of the
    phase, it is the envelope level times [centibelToRatio] of the modulated
    [modLfoToVolume] times the oscillator, times [volume], times the
    interpolation [(1-r) buffer[i] + r buffer[i+1]] over 32767, on both
    channels. *)
Theorem render_formula (v : Voice) :
  (Envelope.isFinished (volEnv_ v) = true -> render v = ret (mkStereo 0 0)) /\
  (Envelope.isFinished (volEnv_ v) = false ->
   forall a b,
     let i := Fixed.getIntegerPart (phase_ v) in
     at_ (RuntimeSample.buffer (sample_ v)) i = ret a ->
     at_ (RuntimeSample.buffer (sample_ v)) (wrap32 (i + 1)) = ret b ->
     render v = ret (rendered v a b)).
Proof.
  split.
  - apply render_finished.
  - intros Hfin a b i. apply render_sounding. exact Hfin.
Qed.

(** *** Forwarding a controller value to the modulators *)

Section Forwarding.

Variable matches : M -> bool.
Variable deliver : M -> M.
Hypothesis deliver_destination :
  forall m, Modulator.getDestination (deliver m) = Modulator.getDestination m.

Lemma targeted_cons (d : SFGenerator.t) (m : M) (rest : list M) :
  targeted matches d (m :: rest) =
  matches m && SFGenerator.t_beq (Modulator.getDestination m) d || targeted matches d rest.
Proof. reflexivity. Qed.

Lemma accumulate_untargeted (d : SFGenerator.t) (rest : list M) :
  targeted matches d rest = false ->
  forall acc, fold_left (add_if d) (delivered matches deliver rest) acc = fold_left (add_if d) rest acc.
Proof.
  induction rest as [| m rest IH]; intros Hnot acc; [reflexivity |].
  cbn [targeted existsb] in Hnot. apply orb_false_elim in Hnot as [Hm Hrest].
  cbn [delivered map fold_left]. fold (delivered matches deliver rest).
  rewrite IH by exact Hrest. f_equal.
  destruct (matches m) eqn:Hmatch; [| reflexivity].
  cbn [andb] in Hm. unfold add_if.
  rewrite deliver_destination, Hm. reflexivity.
Qed.

Lemma accumulate_delivered_suffix (d : SFGenerator.t) (pre rest : list M) :
  targeted matches d rest = false ->
  accumulate d (pre ++ delivered matches deliver rest) = accumulate d (pre ++ rest).
Proof.
  intros Hnot. unfold accumulate.
  rewrite !fold_left_app. apply accumulate_untargeted. exact Hnot.
Qed.

Lemma updateModulatedParams_volume (destination : SFGenerator.t) (v : Voice) :
  exists v', updateModulatedParams destination v = ret v' /\
    volume_ v' =
      if SFGenerator.t_beq destination SFGenerator.pan
         || SFGenerator.t_beq destination SFGenerator.initialAttenuation
      then volume_of v' else volume_ v.
Proof.
  unfold updateModulatedParams.
  destruct destination;
    try rewrite conv_facts.centibelToRatio_closed_form; cbn [bind];
    (eexists; split; [reflexivity | reflexivity]).
Qed.

(** The loop from index [i] on: it returns; the modulators from [i] on that
    match have taken the value; a destination some matching modulator from
    [i] on routes to holds the sum of the current modulator values, any other
    keeps its entry; and [volume_] is recomputed exactly when [pan] or
    [initialAttenuation] is such a destination. *)
Lemma forward_to_modulators_effect :
  forall (count i : nat) (v : Voice),
  (length (modulators_ v) <= i + count)%nat ->
  exists v', forward_to_modulators matches deliver count i v = ret v' /\
    same_playback v v' /\
    modulators_ v' = firstn i (modulators_ v) ++ delivered matches deliver (skipn i (modulators_ v)) /\
    (forall d, modulations_ v' d =
       if targeted matches d (skipn i (modulators_ v))
       then accumulate d (modulators_ v') else modulations_ v d) /\
    volume_ v' =
      if targeted matches SFGenerator.pan (skipn i (modulators_ v))
         || targeted matches SFGenerator.initialAttenuation (skipn i (modulators_ v))
      then volume_of v' else volume_ v.
Proof.
  induction count as [| count IH]; intros i v Hlen.
  - exists v. rewrite skipn_all2 by lia. cbn [forward_to_modulators delivered map targeted existsb orb].
    rewrite app_nil_r, firstn_all2 by lia.
    repeat split; reflexivity.
  - cbn [forward_to_modulators].
    destruct (nth_error (modulators_ v) i) as [m |] eqn:Hnth.
    2:{ apply nth_error_None in Hnth.
        exists v. rewrite skipn_all2 by lia. cbn [delivered map targeted existsb orb].
        rewrite app_nil_r, firstn_all2 by lia.
        repeat split; reflexivity. }
    rewrite (skipn_nth_error m _ i Hnth).
    cbn [delivered map]. fold (delivered matches deliver (skipn (S i) (modulators_ v))).
    rewrite !targeted_cons.
    destruct (matches m) eqn:Hmatch; cbn [andb orb].
    + (* the modulator takes the value and its destination is recomputed *)
      set (v1 := with_modulators (assign_at i (deliver m) (modulators_ v)) v).
      destruct (updateModulatedParams_effect (Modulator.getDestination (deliver m)) v1)
        as [v2 [Hret [Hplay2 [Hmods2 Hmodl2]]]].
      destruct (updateModulatedParams_volume (Modulator.getDestination (deliver m)) v1)
        as [v2' [Hret' Hvol2]].
      rewrite Hret in Hret'. injection Hret' as <-.
      rewrite Hret. cbn [bind].
      assert (Hmods1 : modulators_ v1 = assign_at i (deliver m) (modulators_ v)) by reflexivity.
      assert (Hlen2 : (length (modulators_ v2) <= S i + count)%nat).
      { rewrite Hmods2, Hmods1, assign_at_length. lia. }
      destruct (IH (S i) v2 Hlen2) as [v' [Hloop [Hplay [Hmods [Hmodl Hvol]]]]].
      rewrite Hmods2, Hmods1, assign_at_skipn in Hmods, Hmodl, Hvol.
      rewrite (assign_at_firstn (deliver m) m _ i Hnth) in Hmods.
      rewrite <- app_assoc in Hmods. cbn [app] in Hmods.
      rewrite deliver_destination in Hmodl2, Hvol2.
      exists v'. split; [exact Hloop |].
      split; [apply same_playback_trans with v2; [exact Hplay2 | exact Hplay] |].
      split; [exact Hmods |].
      assert (Hentry : forall d,
                targeted matches d (skipn (S i) (modulators_ v)) = false ->
                modulations_ v' d =
                  if SFGenerator.t_beq (Modulator.getDestination m) d
                  then accumulate d (modulators_ v') else modulations_ v d).
      { intros d Hrest. rewrite Hmodl, Hrest, Hmodl2. unfold assign_modulation.
        destruct (SFGenerator.t_beq (Modulator.getDestination m) d) eqn:Hd.
        - apply SFGenerator_beq_eq in Hd. subst d. rewrite SFGenerator_beq_refl.
          rewrite Hmods.
          replace (firstn i (modulators_ v) ++
                   deliver m :: delivered matches deliver (skipn (S i) (modulators_ v)))
            with ((firstn i (modulators_ v) ++ [deliver m]) ++
                  delivered matches deliver (skipn (S i) (modulators_ v)))
            by (rewrite <- app_assoc; reflexivity).
          rewrite accumulate_delivered_suffix by exact Hrest.
          rewrite Hmods1.
          rewrite <- (assign_at_firstn (deliver m) m _ i Hnth).
          rewrite <- (assign_at_skipn (deliver m) (modulators_ v) i).
          rewrite firstn_skipn. reflexivity.
        - replace (SFGenerator.t_beq d (Modulator.getDestination m)) with false.
          + reflexivity.
          + symmetry. apply SFGenerator_beq_neq. intros ->.
            rewrite SFGenerator_beq_refl in Hd. discriminate. }
      split.
      * intros d. rewrite targeted_cons, Hmatch. cbn [andb].
        destruct (targeted matches d (skipn (S i) (modulators_ v))) eqn:Hrest.
        -- rewrite orb_true_r. rewrite Hmodl, Hrest. reflexivity.
        -- rewrite orb_false_r. apply Hentry. exact Hrest.
      * destruct (targeted matches SFGenerator.pan (skipn (S i) (modulators_ v))) eqn:Hpan;
          destruct (targeted matches SFGenerator.initialAttenuation (skipn (S i) (modulators_ v)))
            eqn:Hatt; cbn [orb] in Hvol;
          rewrite ?orb_true_r, ?orb_false_r; cbn [orb];
          rewrite ?orb_true_r; try exact Hvol.
        rewrite Hvol, Hvol2.
        destruct (SFGenerator.t_beq (Modulator.getDestination m) SFGenerator.pan
                  || SFGenerator.t_beq (Modulator.getDestination m)
                       SFGenerator.initialAttenuation) eqn:Hd; [| reflexivity].
        destruct Hplay as [_ [_ [_ [Hgen _]]]].
        unfold volume_of, getModulatedGenerator. rewrite Hgen.
        rewrite (Hmodl SFGenerator.pan), (Hmodl SFGenerator.initialAttenuation).
        rewrite Hpan, Hatt. reflexivity.
    + (* the modulator does not match: nothing happens at this index *)
      destruct (IH (S i) v ltac:(lia)) as [v' [Hloop [Hplay [Hmods [Hmodl Hvol]]]]].
      rewrite (firstn_nth_error m _ i Hnth) in Hmods.
      rewrite <- app_assoc in Hmods. cbn [app] in Hmods.
      exists v'. split; [exact Hloop |]. split; [exact Hplay |].
      split; [exact Hmods |]. split; [| exact Hvol].
      intros d. rewrite targeted_cons, Hmatch. cbn [andb orb]. apply Hmodl.
Qed.







(** One part of the voice, with the destinations [group] that forward to
    it. *)
Section Part.

Context {X : Type}.
Variable setter : (X -> X) -> Prop.
Variable setting : SFGenerator.t -> Voice -> option (X -> X).
Variable group : list SFGenerator.t.
Variable part : Voice -> X.

Hypothesis setting_in_group :
  forall d v, existsb (SFGenerator.t_beq d) group = true ->
  exists f, setting d v = Some f /\ setter f.
Hypothesis setting_out_of_group :
  forall d v, existsb (SFGenerator.t_beq d) group = false -> setting d v = None.
Hypothesis part_updateModulatedParams :
  forall d v v', updateModulatedParams d v = ret v' ->
  part v' = match setting d v' with Some f => f (part v) | None => part v end.
Hypothesis part_with_modulators :
  forall ms v, part (with_modulators ms v) = part v.
Hypothesis setting_reads :
  forall d v w,
  generators_ w = generators_ v -> sample_ w = sample_ v ->
  key_ w = key_ v -> actualKey_ w = actualKey_ v ->
  (forall d', existsb (SFGenerator.t_beq d') group = true ->
     modulations_ w d' = modulations_ v d') ->
  setting d w = setting d v.


End Part.

End Forwarding.







(** *** Construction *)

Lemma updateSFController_playback (controller : SFGeneralController.t) (value : Z)
  (v : Voice) :
  exists v', updateSFController controller value v = ret v' /\ same_playback v v'.
Proof.
  destruct (forward_to_modulators_effect
              (Modulator.isSourceSFController controller)
              (Modulator.updateSFController controller value)
              (Modulator.getDestination_updateSFController controller value)
              (length (modulators_ v)) 0 v ltac:(lia))
    as [v' [Hret [Hplay _]]].
  exists v'. split; assumption.
Qed.

Lemma updateModulatedParams_each_playback (gens : list SFGenerator.t) :
  forall v : Voice,
  exists v', updateModulatedParams_each gens v = ret v' /\ same_playback v v'.
Proof.
  induction gens as [| g gens IH]; intros v.
  - exists v. split; [reflexivity | apply same_playback_refl].
  - cbn [updateModulatedParams_each].
    destruct (updateModulatedParams_effect g v) as [v1 [Hret [Hplay _]]].
    rewrite Hret. cbn [bind].
    destruct (IH v1) as [v' [Hret' Hplay']].
    exists v'. split; [exact Hret' |].
    apply same_playback_trans with v1; assumption.
Qed.

(** What the constructor leaves in [phase_] and [sample_]. *)
Lemma make_playback (pitch0 : R) (delta0 : FixedPoint) (noteID : Z) (outputRate : R)
  (sample : Sample.t) (generators : GeneratorSet.t) (modparams : list P)
  (key velocity : Z) :
  exists v : Voice,
    make pitch0 delta0 noteID outputRate sample generators modparams key velocity = ret v /\
    phase_ v = Fixed.of_uint32 (Sample.start sample) /\
    RuntimeSample.start (sample_ v) =
      wrap32 (Sample.start sample
              + 32768 * GeneratorSet.getOrDefault generators SFGenerator.startAddrsCoarseOffset
              + GeneratorSet.getOrDefault generators SFGenerator.startAddrsOffset) /\
    released_ v = false.
Proof.
  unfold make.
  match goal with |- context [conv.keyToHeltz conv.tables ?k] =>
    destruct (conv_facts.keyToHeltz_returns k) as [hz [Hhz _]]; rewrite Hhz
  end.
  cbn [bind].
  match goal with |- context [updateSFController _ _ ?v0] => set (v0' := v0) end.
  destruct (updateSFController_playback SFGeneralController.noteOnVelocity velocity v0')
    as [v1 [H1 P1]]. rewrite H1. cbn [bind].
  destruct (updateSFController_playback SFGeneralController.noteOnKeyNumber key v1)
    as [v2 [H2 P2]]. rewrite H2. cbn [bind].
  destruct (updateSFController_playback SFGeneralController.pitchWheelSensitivity 2 v2)
    as [v3 [H3 P3]]. rewrite H3. cbn [bind].
  destruct (updateModulatedParams_each_playback INIT_GENERATORS v3) as [v [H4 P4]].
  exists v. split; [exact H4 |].
  pose proof (same_playback_trans _ _ _ (same_playback_trans _ _ _
                (same_playback_trans _ _ _ P1 P2) P3) P4) as [Hph [_ [Hs [_ Hr]]]].
  rewrite Hph, Hs, Hr. repeat split.
Qed.

Lemma getIntegerPart_of_uint32 (n : Z) :
  (0 <= n < 2 ^ 32)%Z -> Fixed.getIntegerPart (Fixed.of_uint32 n) = n.
Proof.
  intros Hn. unfold Fixed.getIntegerPart, Fixed.of_uint32, wrap32, wrap64. cbn [raw].
  rewrite Z.shiftl_mul_pow2 by lia.
  change (2 ^ 64)%Z with 18446744073709551616%Z.
  change (2 ^ 32)%Z with 4294967296%Z in *.
  rewrite (Z.mod_small (n * 4294967296)) by lia.
  rewrite Z.shiftr_div_pow2 by lia.
  change (2 ^ 32)%Z with 4294967296%Z.
  rewrite Z.div_mul by lia.
  apply Z.mod_small. exact Hn.
Qed.

(** C3, as the code has it.  A new voice starts at the bank's start address
    of the sample, whatever the start-offset generators say; the address
    they shift, [sample_.start], is computed and not used for the phase.
    [isSounding()] is the negation of the volume envelope's [isFinished()]. *)
Theorem make_starts_at_bank_start (pitch0 : R) (delta0 : FixedPoint) (noteID : Z)
  (outputRate : R) (sample : Sample.t) (generators : GeneratorSet.t)
  (modparams : list P) (key velocity : Z) :
  (0 <= Sample.start sample < 2 ^ 32)%Z ->
  exists v : Voice,
    make pitch0 delta0 noteID outputRate sample generators modparams key velocity = ret v /\
    Fixed.getIntegerPart (phase_ v) = Sample.start sample /\
    RuntimeSample.start (sample_ v) =
      wrap32 (Sample.start sample
              + 32768 * GeneratorSet.getOrDefault generators SFGenerator.startAddrsCoarseOffset
              + GeneratorSet.getOrDefault generators SFGenerator.startAddrsOffset) /\
    isSounding v = negb (Envelope.isFinished (volEnv_ v)).
Proof.
  intros Hstart.
  destruct (make_playback pitch0 delta0 noteID outputRate sample generators
              modparams key velocity) as [v [Hret [Hph [Hs _]]]].
  exists v. split; [exact Hret |].
  split; [rewrite Hph; apply getIntegerPart_of_uint32; exact Hstart |].
  split; [exact Hs | reflexivity].
Qed.

(** *** The loop of a looped sample *)

Lemma of_double_bound (x : R) (len : Z) :
  (0 <= len < 2 ^ 32)%Z -> (0 <= x <= IZR len)%R ->
  (0 <= raw (Fixed.of_double x) <= len * 2 ^ 32)%Z.
Proof.
  intros Hlen Hx. unfold Fixed.of_double, wrap64. cbn [raw].
  change (2 ^ 64)%Z with 18446744073709551616%Z.
  change (2 ^ 32)%Z with 4294967296%Z in *.
  assert (Hfl : (0 <= Zfloor (x * 4294967296) <= len * 4294967296)%Z).
  { split.
    - apply Zfloor_lub. lra.
    - apply le_IZR. rewrite mult_IZR.
      destruct (Zfloor_bound (x * 4294967296)) as [Hb _]. nra. }
  rewrite Z.mod_small by lia. exact Hfl.
Qed.

Lemma update_oscillators_playback (v : Voice) :
  exists v', update_oscillators v = ret v' /\
    phase_ v' = phase_ v /\ sample_ v' = sample_ v /\ released_ v' = released_ v /\
    deltaPhaseFactor_ v' = deltaPhaseFactor_ v /\
    (loop_points_ok (sample_ v) -> pitch_within_loop v -> step_within_loop v').
Proof.
  unfold update_oscillators.
  match goal with |- context [conv.keyToHeltz conv.tables ?k] =>
    destruct (conv_facts.keyToHeltz_returns k) as [hz [Hhz Hrange]]; rewrite Hhz
  end.
  cbn [bind]. eexists. split; [reflexivity |].
  do 4 (split; [reflexivity |]).
  intros [Hstart [Hloop Hroom]] [Hf0 Hf]. unfold step_within_loop.
  cbn [deltaPhase_ sample_ with_deltaPhase with_modEnv with_volEnv with_modLFO
         with_vibLFO].
  change (2 ^ 32)%Z with 4294967296%Z in Hroom.
  apply of_double_bound.
  - change (2 ^ 32)%Z with 4294967296%Z. lia.
  - nra.
Qed.

Lemma getIntegerPart_small (a : FixedPoint) :
  (0 <= raw a < 2 ^ 64)%Z -> Fixed.getIntegerPart a = (raw a / 2 ^ 32)%Z.
Proof.
  intros Ha. unfold Fixed.getIntegerPart, wrap32.
  rewrite Z.shiftr_div_pow2 by lia.
  change (2 ^ 64)%Z with 18446744073709551616%Z in Ha.
  change (2 ^ 32)%Z with 4294967296%Z.
  apply Z.mod_small. split.
  - apply Z.div_pos; lia.
  - apply Z.div_lt_upper_bound; lia.
Qed.

Lemma update_looped_step (v : Voice) :
  RuntimeSample.mode (sample_ v) = SampleMode.Looped ->
  released_ v = false ->
  loop_points_ok (sample_ v) ->
  in_loop v ->
  step_within_loop v ->
  exists v', update v = ret v' /\
    sample_ v' = sample_ v /\ released_ v' = released_ v /\ in_loop v' /\
    deltaPhaseFactor_ v' = deltaPhaseFactor_ v /\
    (pitch_within_loop v -> step_within_loop v').
Proof.
  intros Hmode Hrel Hok [Hraw Hin] Hstep.
  pose proof Hok as [Hstart [Hloop Hroom]].
  unfold update.
  destruct (Envelope.isFinished (volEnv_ v)) eqn:Hfin.
  { exists v. do 3 (split; [reflexivity |]).
    split; [split; assumption |]. split; [reflexivity |].
    intros _. exact Hstep. }
  cbn [sample_ phase_ released_ with_phase]. rewrite Hmode, Hrel.
  rewrite (getIntegerPart_small (phase_ v) Hraw) in Hin.
  unfold step_within_loop in Hstep.
  set (eL := RuntimeSample.endLoop (sample_ v)) in *.
  set (sL := RuntimeSample.startLoop (sample_ v)) in *.
  set (p := raw (phase_ v)) in *.
  set (d := raw (deltaPhase_ v)) in *.
  change (2 ^ 64)%Z with 18446744073709551616%Z in *.
  change (2 ^ 32)%Z with 4294967296%Z in *.
  assert (Hp : (p < eL * 4294967296)%Z).
  { pose proof (Z.div_mod p 4294967296 ltac:(lia)) as Hdm.
    pose proof (Z.mod_pos_bound p 4294967296 ltac:(lia)) as Hmb. nia. }
  assert (Hsum : raw (Fixed.add (phase_ v) (deltaPhase_ v)) = (p + d)%Z).
  { unfold Fixed.add, wrap64. cbn [raw]. fold p d.
    change (2 ^ 64)%Z with 18446744073709551616%Z.
    apply Z.mod_small. lia. }
  assert (Hint : Fixed.getIntegerPart (Fixed.add (phase_ v) (deltaPhase_ v))
                 = ((p + d) / 4294967296)%Z).
  { rewrite getIntegerPart_small; rewrite Hsum.
    - reflexivity.
    - change (2 ^ 64)%Z with 18446744073709551616%Z. lia. }
  rewrite Hint.
  assert (HeL : wrap32 (eL - 1) = (eL - 1)%Z).
  { unfold wrap32. change (2 ^ 32)%Z with 4294967296%Z. apply Z.mod_small. lia. }
  rewrite HeL.
  destruct (Z.ltb_spec (eL - 1) ((p + d) / 4294967296)) as [Hpast | Hbefore].
  - (* past the loop end: one loop length is taken off *)
    destruct (update_oscillators_playback
                (rewind_loop (with_phase (Fixed.add (phase_ v) (deltaPhase_ v)) v)))
      as [v' [Hret [Hph [Hs [Hr [Hf Hnext]]]]]].
    exists v'. split; [exact Hret |].
    split; [rewrite Hs; reflexivity |]. split; [rewrite Hr; exact Hrel |].
    split; [| split; [rewrite Hf; reflexivity | intros Hslow; apply Hnext; assumption]].
    unfold in_loop. rewrite Hph, Hs.
    cbn [rewind_loop with_phase phase_ sample_]. fold eL sL.
    assert (Hlen : raw (Fixed.of_uint32 (wrap32 (eL - sL))) = ((eL - sL) * 4294967296)%Z).
    { unfold Fixed.of_uint32, wrap32, wrap64. cbn [raw].
      change (2 ^ 64)%Z with 18446744073709551616%Z.
      change (2 ^ 32)%Z with 4294967296%Z.
      rewrite (Z.mod_small (eL - sL)) by lia.
      rewrite Z.shiftl_mul_pow2 by lia.
      change (2 ^ 32)%Z with 4294967296%Z.
      apply Z.mod_small. lia. }
    assert (Hlow : (eL * 4294967296 <= p + d)%Z).
    { assert (eL <= (p + d) / 4294967296)%Z as Hq by lia.
      pose proof (Z.mul_div_le (p + d) 4294967296 ltac:(lia)). nia. }
    assert (Hdiff : raw (Fixed.sub (Fixed.add (phase_ v) (deltaPhase_ v))
                           (Fixed.of_uint32 (wrap32 (eL - sL))))
                    = (p + d - (eL - sL) * 4294967296)%Z).
    { unfold Fixed.sub, wrap64. rewrite Hsum, Hlen.
      change (2 ^ 64)%Z with 18446744073709551616%Z.
      apply Z.mod_small. lia. }
    split.
    + rewrite Hdiff. change (2 ^ 64)%Z with 18446744073709551616%Z. lia.
    + rewrite getIntegerPart_small; rewrite Hdiff;
        change (2 ^ 64)%Z with 18446744073709551616%Z;
        change (2 ^ 32)%Z with 4294967296%Z; [| lia].
      split.
      * apply Z.div_le_lower_bound; lia.
      * apply Z.div_lt_upper_bound; lia.
  - (* still inside the loop *)
    destruct (update_oscillators_playback
                (with_phase (Fixed.add (phase_ v) (deltaPhase_ v)) v))
      as [v' [Hret [Hph [Hs [Hr [Hf Hnext]]]]]].
    exists v'. split; [exact Hret |].
    split; [rewrite Hs; reflexivity |]. split; [rewrite Hr; exact Hrel |].
    split; [| split; [rewrite Hf; reflexivity | intros Hslow; apply Hnext; assumption]].
    unfold in_loop. rewrite Hph, Hs.
    cbn [with_phase phase_ sample_]. fold eL.
    rewrite Hint, Hsum.
    change (2 ^ 64)%Z with 18446744073709551616%Z.
    split; [lia |]. split; [| lia].
    apply Z.le_trans with (p / 4294967296)%Z; [lia |].
    apply Z.div_le_mono; lia.
Qed.

(** A one-shot sample ([UnLooped] or [UnUsed]) that is still sounding after
    [update()] has the frame after its phase inside [[0, end]]: past
    [end - 1] the volume envelope is finished instead. *)
Lemma update_unlooped_below_end (v v' : Voice) :
  RuntimeSample.mode (sample_ v) = SampleMode.UnLooped
  \/ RuntimeSample.mode (sample_ v) = SampleMode.UnUsed ->
  (1 <= RuntimeSample.end_ (sample_ v) <= 2 ^ 32)%Z ->
  Envelope.isFinished (volEnv_ v) = false ->
  update v = ret v' ->
  Envelope.isFinished (volEnv_ v') = false ->
  (Fixed.getIntegerPart (phase_ v') + 1 <= RuntimeSample.end_ (sample_ v'))%Z.
Proof.
  intros Hmode Hend Hfin Hret Hfin'. unfold update in Hret. rewrite Hfin in Hret.
  cbn [sample_ phase_ with_phase] in Hret.
  assert (Hwrap : wrap32 (RuntimeSample.end_ (sample_ v) - 1)
                  = (RuntimeSample.end_ (sample_ v) - 1)%Z).
  { unfold wrap32. apply Z.mod_small. lia. }
  rewrite Hwrap in Hret.
  assert (Hbody :
    (if (RuntimeSample.end_ (sample_ v) - 1
         <? Fixed.getIntegerPart (Fixed.add (phase_ v) (deltaPhase_ v)))%Z
     then ret (finish_volEnv (with_phase (Fixed.add (phase_ v) (deltaPhase_ v)) v))
     else update_oscillators (with_phase (Fixed.add (phase_ v) (deltaPhase_ v)) v))
    = ret v').
  { destruct Hmode as [Hm | Hm]; rewrite Hm in Hret; exact Hret. }
  destruct (Z.ltb_spec (RuntimeSample.end_ (sample_ v) - 1)
              (Fixed.getIntegerPart (Fixed.add (phase_ v) (deltaPhase_ v))))
    as [Hpast | Hbelow].
  - injection Hbody as <-.
    cbn [finish_volEnv volEnv_ with_volEnv with_phase] in Hfin'.
    rewrite Envelope.isFinished_finish in Hfin'. discriminate.
  - destruct (update_oscillators_playback
                (with_phase (Fixed.add (phase_ v) (deltaPhase_ v)) v))
      as [v1 [Hret1 [Hph [Hs _]]]].
    rewrite Hret1 in Hbody. injection Hbody as <-.
    rewrite Hph, Hs. cbn [with_phase phase_ sample_]. lia.
Qed.

(** The path of [update()] on which the loop length is taken off. *)
Lemma update_rewinds (v : Voice) :
  Envelope.isFinished (volEnv_ v) = false ->
  RuntimeSample.mode (sample_ v) = SampleMode.Looped ->
  released_ v = false ->
  (wrap32 (RuntimeSample.endLoop (sample_ v) - 1)
   <? Fixed.getIntegerPart (Fixed.add (phase_ v) (deltaPhase_ v)))%Z = true ->
  update v =
  update_oscillators
    (rewind_loop (with_phase (Fixed.add (phase_ v) (deltaPhase_ v)) v)).
Proof.
  intros Hfin Hmode Hrel Hpast. unfold update. rewrite Hfin.
  cbn [sample_ phase_ released_ with_phase]. rewrite Hmode, Hpast, Hrel.
  reflexivity.
Qed.

(** [update_oscillators] returns, with the phase where it was, the volume
    envelope advanced by one call of its [update], and the phase increment
    the new pitch asks for. *)
Lemma update_oscillators_result (v : Voice) (hz : R) :
  conv.keyToHeltz conv.tables
    (modulated_pitch v (Envelope.update (deltaPhase_ v) (modEnv_ v))
       (LFO.update (deltaPhase_ v) (vibLFO_ v))
       (LFO.update (deltaPhase_ v) (modLFO_ v))) = ret hz ->
  exists v', update_oscillators v = ret v' /\
    phase_ v' = phase_ v /\ sample_ v' = sample_ v /\ released_ v' = released_ v /\
    volEnv_ v' = Envelope.update (deltaPhase_ v) (volEnv_ v) /\
    deltaPhase_ v' = Fixed.of_double (deltaPhaseFactor_ v * hz).
Proof.
  intros Hhz. unfold update_oscillators. rewrite Hhz.
  cbn [bind]. eexists. split; [reflexivity | repeat split].
Qed.

(** With a [deltaPhaseFactor_] this small, every call of [update()] finds a
    phase increment of at most one loop length. *)
Lemma updates_keep_step (k : nat) :
  forall v vk : Voice,
  RuntimeSample.mode (sample_ v) = SampleMode.Looped ->
  released_ v = false ->
  loop_points_ok (sample_ v) ->
  in_loop v ->
  step_within_loop v ->
  pitch_within_loop v ->
  updates k v = ret vk -> step_within_loop vk.
Proof.
  induction k as [| k IH]; intros v vk Hmode Hrel Hok Hin Hstep Hslow Hvk.
  - injection Hvk as <-. exact Hstep.
  - destruct (update_looped_step v Hmode Hrel Hok Hin Hstep)
      as [v1 [Hret [Hs [Hr [Hin1 [Hf Hnext]]]]]].
    cbn [updates] in Hvk. rewrite Hret in Hvk. cbn [bind] in Hvk.
    apply (IH v1 vk); try assumption.
    + rewrite Hs. exact Hmode.
    + rewrite Hr. exact Hrel.
    + rewrite Hs. exact Hok.
    + apply Hnext. exact Hslow.
    + unfold pitch_within_loop. rewrite Hf, Hs. exact Hslow.
Qed.

(** C1, as the code has it.  A voice that loops ([Looped], not released),
    with its loop points in order and its phase in [[start, endLoop)],
    keeps the integer part of its phase in [[start, endLoop)] through any
    number of calls of [update()], as long as each call finds a phase
    increment of at most one loop length: [update()] takes the loop length
    off once per call. *)
Theorem looped_phase_stays_in_loop (n : nat) :
  forall v : Voice,
  RuntimeSample.mode (sample_ v) = SampleMode.Looped ->
  released_ v = false ->
  loop_points_ok (sample_ v) ->
  in_loop v ->
  (forall k vk, (k < n)%nat -> updates k v = ret vk -> step_within_loop vk) ->
  exists v', updates n v = ret v' /\
    (RuntimeSample.start (sample_ v) <= Fixed.getIntegerPart (phase_ v')
     < RuntimeSample.endLoop (sample_ v))%Z.
Proof.
  induction n as [| n IH]; intros v Hmode Hrel Hok Hin Hsteps.
  - exists v. split; [reflexivity | apply Hin].
  - destruct (update_looped_step v Hmode Hrel Hok Hin
                (Hsteps O v ltac:(lia) eq_refl))
      as [v1 [Hret [Hs [Hr [Hin1 _]]]]].
    cbn [updates]. rewrite Hret. cbn [bind].
    destruct (IH v1) as [v' [Hret' Hin']].
    + rewrite Hs. exact Hmode.
    + rewrite Hr. exact Hrel.
    + rewrite Hs. exact Hok.
    + exact Hin1.
    + intros k vk Hk Hvk. apply (Hsteps (S k) vk ltac:(lia)).
      cbn [updates]. rewrite Hret. exact Hvk.
    + exists v'. split; [exact Hret' |]. rewrite <- Hs. exact Hin'.
Qed.

(** *** Further properties of the voice *)

Lemma update_oscillators_settings (v : Voice) :
  exists v', update_oscillators v = ret v' /\ same_settings v v' /\
    phase_ v' = phase_ v /\
    volEnv_ v' = Envelope.update (deltaPhase_ v) (volEnv_ v).
Proof.
  unfold update_oscillators.
  match goal with |- context [conv.keyToHeltz conv.tables ?k] =>
    destruct (conv_facts.keyToHeltz_returns k) as [hz [Hhz _]]; rewrite Hhz
  end.
  cbn [bind]. eexists. split; [reflexivity |].
  unfold same_settings. repeat split.
Qed.

(** [update()] returns for every voice (no table lookup throws), and it
    writes nothing but the phase, the phase increment, the two envelopes
    and the two oscillators. *)
Theorem update_keeps_settings (v : Voice) :
  exists v', update v = ret v' /\ same_settings v v'.
Proof.
  assert (Hosc : forall w, same_settings v w ->
            exists v', update_oscillators w = ret v' /\ same_settings v v').
  { intros w Hw. destruct (update_oscillators_settings w) as [v' [Hret [Hs _]]].
    exists v'. split; [exact Hret |].
    unfold same_settings in *.
    destruct Hw as [? [? [? [? [? [? [? [? [? [? [? ?]]]]]]]]]]].
    destruct Hs as [? [? [? [? [? [? [? [? [? [? [? ?]]]]]]]]]]].
    repeat split; congruence. }
  assert (Hfinish : forall w, same_settings v w ->
            exists v', ret (finish_volEnv w) = ret v' /\ same_settings v v').
  { intros w Hw. exists (finish_volEnv w). split; [reflexivity | exact Hw]. }
  assert (Hsame : forall ph, same_settings v (with_phase ph v))
    by (intros ph; unfold same_settings; repeat split).
  assert (Hrew : forall ph, same_settings v (rewind_loop (with_phase ph v)))
    by (intros ph; unfold same_settings; repeat split).
  unfold update.
  destruct (Envelope.isFinished (volEnv_ v)).
  { exists v. split; [reflexivity | unfold same_settings; repeat split]. }
  cbv zeta.
  destruct (RuntimeSample.mode
              (sample_ (with_phase (Fixed.add (phase_ v) (deltaPhase_ v)) v)));
    repeat match goal with
           | |- context [if ?c then _ else _] => destruct c
           end;
    first [apply Hosc; first [apply Hsame | apply Hrew]
          | apply Hfinish; apply Hsame].
Qed.

Lemma updates_finished (n : nat) (v : Voice) :
  Envelope.isFinished (volEnv_ v) = true -> updates n v = ret v.
Proof.
  intros Hfin. induction n as [| n IH]; [reflexivity |].
  cbn [updates]. unfold update at 1. rewrite Hfin. cbn [bind]. exact IH.
Qed.

(** A finished voice stays as it is: any number of [update()] calls returns
    it unchanged, [render()] is [{0, 0}] without a buffer access, and
    [isSounding()] is false. *)
Theorem finished_voice_is_inert (n : nat) (v : Voice) :
  Envelope.isFinished (volEnv_ v) = true ->
  updates n v = ret v /\ render v = ret (mkStereo 0 0) /\ isSounding v = false.
Proof.
  intros Hfin. split; [apply updates_finished; exact Hfin |].
  split; [apply render_finished; exact Hfin |].
  unfold isSounding. rewrite Hfin. reflexivity.
Qed.

Lemma accumulate_unrouted (d : SFGenerator.t) (ms : list M) :
  (forall m, In m ms -> Modulator.getDestination m <> d) ->
  forall acc, fold_left (add_if d) ms acc = acc.
Proof.
  induction ms as [| m ms IH]; intros Hnone acc; [reflexivity |].
  cbn [fold_left]. rewrite IH by (intros m' Hm'; apply Hnone; right; exact Hm').
  unfold add_if. rewrite SFGenerator_beq_neq; [reflexivity |].
  apply Hnone. left. reflexivity.
Qed.

(** A destination that no modulator routes to gets the modulation 0 from
    [updateModulatedParams]: its modulated generator is the generator
    itself, and the other entries of [modulations_] are not touched. *)
Theorem unrouted_destination_is_unmodulated (d : SFGenerator.t) (v : Voice) :
  (forall m, In m (modulators_ v) -> Modulator.getDestination m <> d) ->
  exists v', updateModulatedParams d v = ret v' /\
    modulations_ v' d = 0%R /\
    getModulatedGenerator v' d
    = (IZR (GeneratorSet.getOrDefault (generators_ v) d) + 0)%R /\
    (forall other, other <> d -> modulations_ v' other = modulations_ v other).
Proof.
  intros Hnone.
  destruct (updateModulatedParams_effect d v) as [v' [Hret [Hplay [_ Hmodl]]]].
  assert (Hzero : modulations_ v' d = 0%R).
  { rewrite Hmodl. unfold assign_modulation. rewrite SFGenerator_beq_refl.
    unfold accumulate. apply accumulate_unrouted. exact Hnone. }
  exists v'. split; [exact Hret |]. split; [exact Hzero |].
  split.
  - unfold getModulatedGenerator. rewrite Hzero.
    destruct Hplay as [_ [_ [_ [Hgen _]]]]. rewrite Hgen. reflexivity.
  - intros other Hne. rewrite Hmodl. unfold assign_modulation.
    rewrite SFGenerator_beq_neq by exact Hne. reflexivity.
Qed.

Lemma volume_of_range (v : Voice) :
  (0 <= left (volume_of v) <= 1)%R /\ (0 <= right (volume_of v) <= 1)%R.
Proof.
  unfold volume_of, Stereo.scaled_by. cbn [left right].
  match goal with |- context [conv.centibelToRatio_value ?x] =>
    pose proof (conv_facts.centibelToRatio_value_range x) as Hc;
    set (c := conv.centibelToRatio_value x) in *
  end.
  match goal with |- context [calculatePannedVolume ?x] =>
    destruct (calculatePannedVolume_range x) as [Hl Hr];
    set (g := calculatePannedVolume x) in *
  end.
  split; nra.
Qed.

(** Whenever [updateModulatedParams] recomputes [volume_] (destination
    [pan] or [initialAttenuation]), both channels end between 0 and 1: the
    attenuation is a ratio and the pan law gives gains. *)
Theorem recomputed_volume_is_a_gain (v : Voice) :
  (exists v', updateModulatedParams SFGenerator.pan v = ret v' /\
     (0 <= left (volume_ v') <= 1)%R /\ (0 <= right (volume_ v') <= 1)%R) /\
  (exists v', updateModulatedParams SFGenerator.initialAttenuation v = ret v' /\
     (0 <= left (volume_ v') <= 1)%R /\ (0 <= right (volume_ v') <= 1)%R).
Proof.
  split.
  - destruct (updateModulatedParams_volume SFGenerator.pan v) as [v' [Hret Hvol]].
    exists v'. split; [exact Hret |]. cbn in Hvol. rewrite Hvol.
    apply volume_of_range.
  - destruct (updateModulatedParams_volume SFGenerator.initialAttenuation v)
      as [v' [Hret Hvol]].
    exists v'. split; [exact Hret |]. cbn in Hvol. rewrite Hvol.
    apply volume_of_range.
Qed.

Lemma Rtrunc_IZR (z : Z) : Rtrunc (IZR z) = z.
Proof.
  unfold Rtrunc. destruct (Rlt_dec (IZR z) 0) as [Hneg | Hpos].
  - unfold Zceil. rewrite <- opp_IZR, ZfloorZ. lia.
  - apply ZfloorZ.
Qed.

(** An exclusive class written with [overrideGenerator] is what
    [getExclusiveClass()] reads back, for every 16-bit value, as long as no
    modulation is accumulated on [exclusiveClass]. *)
Theorem getExclusiveClass_reads_override (c : Z) (v : Voice) :
  (- 2 ^ 15 <= c < 2 ^ 15)%Z ->
  modulations_ v SFGenerator.exclusiveClass = 0%R ->
  getExclusiveClass (overrideGenerator SFGenerator.exclusiveClass c v) = c.
Proof.
  intros Hc Hmod.
  unfold getExclusiveClass, getModulatedGenerator, overrideGenerator,
    GeneratorSet.getOrDefault, GeneratorSet.set.
  cbn [generators_ modulations_ with_generators]. rewrite Hmod.
  cbn [SFGenerator.t_beq].
  rewrite Rplus_0_r. unfold int16_of_double. rewrite Rtrunc_IZR.
  change (2 ^ 15)%Z with 32768%Z in *. change (2 ^ 16)%Z with 65536%Z.
  rewrite Z.mod_small by lia. lia.
Qed.

Lemma forward_unmatched (matches : M -> bool) (deliver : M -> M) :
  forall (count i : nat) (v : Voice),
  (forall m, In m (modulators_ v) -> matches m = false) ->
  forward_to_modulators matches deliver count i v = ret v.
Proof.
  induction count as [| count IH]; intros i v Hnone; [reflexivity |].
  cbn [forward_to_modulators].
  destruct (nth_error (modulators_ v) i) as [m |] eqn:Hnth; [| reflexivity].
  rewrite (Hnone m (nth_error_In _ _ Hnth)). apply IH. exact Hnone.
Qed.

(** A controller that no modulator of the voice listens to changes nothing:
    [updateSFController] and [updateMIDIController] return the voice as it
    was (in particular a voice without modulators ignores every
    controller). *)
Theorem unmatched_controller_is_ignored (v : Voice) :
  (forall controller value,
     (forall m, In m (modulators_ v) ->
        Modulator.isSourceSFController controller m = false) ->
     updateSFController controller value v = ret v) /\
  (forall controller value,
     (forall m, In m (modulators_ v) ->
        Modulator.isSourceMIDIController controller m = false) ->
     updateMIDIController controller value v = ret v).
Proof.
  split; intros controller value Hnone.
  - apply forward_unmatched. exact Hnone.
  - apply forward_unmatched. exact Hnone.
Qed.

(** *** Cached parameters *)

Lemma updateModulatedParams_volume_sync (d : SFGenerator.t) (v v' : Voice) :
  volume_ v = volume_of v -> updateModulatedParams d v = ret v' ->
  volume_ v' = volume_of v'.
Proof.
  intros Hvol Hret. unfold updateModulatedParams in Hret.
  unfold volume_of, getModulatedGenerator in Hvol.
  destruct d;
    try rewrite conv_facts.centibelToRatio_closed_form in Hret;
    cbn [bind] in Hret; injection Hret as <-;
    unfold volume_of, getModulatedGenerator, assign_modulation;
    cbn [volume_ voicePitch_ generators_ modulations_ sample_ actualKey_
         with_modulations with_volume with_voicePitch with_modLFO with_vibLFO
         with_modEnv with_volEnv SFGenerator.t_beq];
    first [reflexivity | exact Hvol].
Qed.

Lemma updateModulatedParams_pitch_sync (d : SFGenerator.t) (v v' : Voice) :
  voicePitch_ v = voicePitch_of v \/ d = SFGenerator.coarseTune ->
  updateModulatedParams d v = ret v' ->
  voicePitch_ v' = voicePitch_of v'.
Proof.
  intros Hpitch Hret. unfold updateModulatedParams in Hret.
  unfold voicePitch_of, getModulatedGenerator in Hpitch.
  destruct d;
    try rewrite conv_facts.centibelToRatio_closed_form in Hret;
    cbn [bind] in Hret; injection Hret as <-;
    unfold voicePitch_of, getModulatedGenerator, assign_modulation;
    cbn [volume_ voicePitch_ generators_ modulations_ sample_ actualKey_
         with_modulations with_volume with_voicePitch with_modLFO with_vibLFO
         with_modEnv with_volEnv SFGenerator.t_beq];
    first [reflexivity | destruct Hpitch as [Hpitch | Hpitch]; [exact Hpitch | discriminate]].
Qed.

Lemma updateModulatedParams_in_sync (d : SFGenerator.t) (v v' : Voice) :
  in_sync v -> updateModulatedParams d v = ret v' -> in_sync v'.
Proof.
  intros [Hvol Hpitch] Hret. split.
  - exact (updateModulatedParams_volume_sync d v v' Hvol Hret).
  - exact (updateModulatedParams_pitch_sync d v v' (or_introl Hpitch) Hret).
Qed.

Lemma forward_in_sync (matches : M -> bool) (deliver : M -> M) :
  forall (count i : nat) (v v' : Voice),
  in_sync v -> forward_to_modulators matches deliver count i v = ret v' -> in_sync v'.
Proof.
  induction count as [| count IH]; intros i v v' Hsync Hret.
  - injection Hret as <-. exact Hsync.
  - cbn [forward_to_modulators] in Hret.
    destruct (nth_error (modulators_ v) i) as [m |];
      [| injection Hret as <-; exact Hsync].
    destruct (matches m); [| exact (IH _ _ _ Hsync Hret)].
    destruct (updateModulatedParams (Modulator.getDestination (deliver m))
                (with_modulators (assign_at i (deliver m) (modulators_ v)) v))
      as [v1 |] eqn:H1; [| discriminate].
    cbn [bind] in Hret.
    assert (Hsync1 : in_sync (with_modulators (assign_at i (deliver m) (modulators_ v)) v))
      by exact Hsync.
    apply (IH _ _ _ (updateModulatedParams_in_sync _ _ _ Hsync1 H1) Hret).
Qed.

Lemma update_settings (v v' : Voice) : update v = ret v' -> same_settings v v'.
Proof.
  assert (Hosc : forall w, same_settings v w ->
            update_oscillators w = ret v' -> same_settings v v').
  { intros w Hw Hret. destruct (update_oscillators_settings w) as [v1 [Hret1 [Hs _]]].
    rewrite Hret1 in Hret. injection Hret as <-.
    unfold same_settings in *.
    destruct Hw as [? [? [? [? [? [? [? [? [? [? [? ?]]]]]]]]]]].
    destruct Hs as [? [? [? [? [? [? [? [? [? [? [? ?]]]]]]]]]]].
    repeat split; congruence. }
  assert (Hsame : forall ph, same_settings v (with_phase ph v))
    by (intros ph; unfold same_settings; repeat split).
  assert (Hrew : forall ph, same_settings v (rewind_loop (with_phase ph v)))
    by (intros ph; unfold same_settings; repeat split).
  unfold update.
  destruct (Envelope.isFinished (volEnv_ v)).
  { intros Hret. injection Hret as <-. unfold same_settings. repeat split. }
  cbv zeta.
  destruct (RuntimeSample.mode
              (sample_ (with_phase (Fixed.add (phase_ v) (deltaPhase_ v)) v)));
    repeat match goal with
           | |- context [if ?c then _ else _] => destruct c
           end;
    intros Hret;
    first [ injection Hret as <-; apply Hsame
          | apply (Hosc _ (Hsame _) Hret)
          | apply (Hosc _ (Hrew _) Hret) ].
Qed.

(** [volume_] and [voicePitch_] are caches of what the generators and
    [modulations_] give, and every operation that can change
    [modulations_] keeps them so: once in sync, a voice stays in sync
    through [updateModulatedParams], [updateSFController],
    [updateMIDIController] and [update()]. *)
Theorem cached_parameters_stay_in_sync (v : Voice) :
  in_sync v ->
  (forall d v', updateModulatedParams d v = ret v' -> in_sync v') /\
  (forall controller value v',
     updateSFController controller value v = ret v' -> in_sync v') /\
  (forall controller value v',
     updateMIDIController controller value v = ret v' -> in_sync v') /\
  (forall v', update v = ret v' -> in_sync v').
Proof.
  intros Hsync. split; [| split; [| split]].
  - intros d v'. apply updateModulatedParams_in_sync. exact Hsync.
  - intros controller value v'. apply forward_in_sync. exact Hsync.
  - intros controller value v'. apply forward_in_sync. exact Hsync.
  - intros v' Hret. apply update_settings in Hret.
    destruct Hret as [Hs [Hg [_ [Hm [Hvol [Hp [_ [_ [_ [Hk _]]]]]]]]]].
    destruct Hsync as [Hv Hpitch].
    unfold in_sync, volume_of, voicePitch_of, getModulatedGenerator in *.
    rewrite Hs, Hg, Hm, Hvol, Hp, Hk. split; assumption.
Qed.

Lemma updateModulatedParams_each_in_sync (gens : list SFGenerator.t) :
  forall v v' : Voice,
  in_sync v -> updateModulatedParams_each gens v = ret v' -> in_sync v'.
Proof.
  induction gens as [| g gens IH]; intros v v' Hsync Hret.
  - injection Hret as <-. exact Hsync.
  - cbn [updateModulatedParams_each] in Hret.
    destruct (updateModulatedParams g v) as [v1 |] eqn:H1; [| discriminate].
    cbn [bind] in Hret.
    apply (IH _ _ (updateModulatedParams_in_sync _ _ _ Hsync H1) Hret).
Qed.

Lemma updateModulatedParams_each_app (l1 l2 : list SFGenerator.t) :
  forall v : Voice,
  updateModulatedParams_each (l1 ++ l2) v =
  (v' <- updateModulatedParams_each l1 v ;; updateModulatedParams_each l2 v').
Proof.
  induction l1 as [| g l1 IH]; intros v; [reflexivity |].
  cbn [app updateModulatedParams_each].
  destruct (updateModulatedParams g v) as [v1 |]; [| reflexivity].
  cbn [bind]. apply IH.
Qed.

Lemma updateModulatedParams_each_settings (gens : list SFGenerator.t) :
  forall v v' : Voice,
  updateModulatedParams_each gens v = ret v' ->
  modulators_ v' = modulators_ v /\ generators_ v' = generators_ v /\
  released_ v' = released_ v /\
  (volume_ v = volume_of v -> volume_ v' = volume_of v').
Proof.
  induction gens as [| g gens IH]; intros v v' Hret.
  - injection Hret as <-. repeat split. intros H; exact H.
  - cbn [updateModulatedParams_each] in Hret.
    destruct (updateModulatedParams_effect g v) as [v1 [H1 [Hplay [Hmods _]]]].
    rewrite H1 in Hret. cbn [bind] in Hret.
    destruct (IH _ _ Hret) as [Hm [Hg [Hr Hvol]]].
    destruct Hplay as [_ [_ [_ [Hg1 Hr1]]]].
    split; [congruence |]. split; [congruence |]. split; [congruence |].
    intros Hsync. apply Hvol.
    exact (updateModulatedParams_volume_sync g v v1 Hsync H1).
Qed.

Lemma updateSFController_settings (controller : SFGeneralController.t) (value : Z)
  (v : Voice) :
  exists v', updateSFController controller value v = ret v' /\
    length (modulators_ v') = length (modulators_ v) /\
    generators_ v' = generators_ v /\ released_ v' = released_ v.
Proof.
  destruct (forward_to_modulators_effect
              (Modulator.isSourceSFController controller)
              (Modulator.updateSFController controller value)
              (Modulator.getDestination_updateSFController controller value)
              (length (modulators_ v)) 0 v ltac:(lia))
    as [v' [Hret [Hplay [Hmods _]]]].
  exists v'. split; [exact Hret |].
  destruct Hplay as [_ [_ [_ [Hg Hr]]]].
  split; [| split; assumption].
  rewrite Hmods. cbn [firstn skipn app]. unfold delivered. apply length_map.
Qed.

(** The constructor returns for every input, and the voice it returns is
    whole: one modulator per modulator parameter, the generators it was
    given, not released, and [volume_] and [voicePitch_] computed from the
    generators and modulations it ends with (the placeholders they hold
    before the initial [updateModulatedParams] calls are gone), so both
    channels of [volume_] are between 0 and 1. *)
Theorem make_gives_a_synced_voice (pitch0 : R) (delta0 : FixedPoint) (noteID : Z)
  (outputRate : R) (sample : Sample.t) (generators : GeneratorSet.t)
  (modparams : list P) (key velocity : Z) :
  exists v : Voice,
    make pitch0 delta0 noteID outputRate sample generators modparams key velocity = ret v /\
    in_sync v /\
    length (modulators_ v) = length modparams /\
    generators_ v = generators /\
    released_ v = false /\
    (0 <= left (volume_ v) <= 1)%R /\ (0 <= right (volume_ v) <= 1)%R.
Proof.
  unfold make.
  match goal with |- context [conv.keyToHeltz conv.tables ?k] =>
    destruct (conv_facts.keyToHeltz_returns k) as [hz [Hhz _]]; rewrite Hhz
  end.
  cbn [bind].
  match goal with |- context [updateSFController _ _ ?v0] => set (v0' := v0) end.
  destruct (updateSFController_settings SFGeneralController.noteOnVelocity velocity v0')
    as [v1 [H1 [L1 [G1 R1]]]]. rewrite H1. cbn [bind].
  destruct (updateSFController_settings SFGeneralController.noteOnKeyNumber key v1)
    as [v2 [H2 [L2 [G2 R2]]]]. rewrite H2. cbn [bind].
  destruct (updateSFController_settings SFGeneralController.pitchWheelSensitivity 2 v2)
    as [v3 [H3 [L3 [G3 R3]]]]. rewrite H3. cbn [bind].
  change INIT_GENERATORS
    with ([SFGenerator.pan]
          ++ removelast (tl INIT_GENERATORS) ++ [SFGenerator.coarseTune]).
  rewrite updateModulatedParams_each_app.
  cbn [updateModulatedParams_each].
  destruct (updateModulatedParams_volume SFGenerator.pan v3) as [v4 [H4 V4]].
  destruct (updateModulatedParams_effect SFGenerator.pan v3)
    as [v4' [H4' [P4 [M4 _]]]].
  rewrite H4 in H4'. injection H4' as <-.
  rewrite H4. cbn [bind]. cbn in V4.
  rewrite updateModulatedParams_each_app.
  destruct (updateModulatedParams_each_playback (removelast (tl INIT_GENERATORS)) v4)
    as [v5 [H5 _]].
  rewrite H5. cbn [bind updateModulatedParams_each].
  destruct (updateModulatedParams_each_settings _ _ _ H5) as [M5 [G5 [R5 V5]]].
  destruct (updateModulatedParams_effect SFGenerator.coarseTune v5)
    as [v [H6 [P6 [M6 _]]]].
  rewrite H6. cbn [bind]. exists v. split; [reflexivity |].
  assert (Hvol : volume_ v = volume_of v)
    by exact (updateModulatedParams_volume_sync _ _ _ (V5 V4) H6).
  destruct P4 as [_ [_ [_ [G4 R4]]]]. destruct P6 as [_ [_ [_ [G6 R6]]]].
  split; [split; [exact Hvol |] |].
  { exact (updateModulatedParams_pitch_sync _ _ _ (or_intror eq_refl) H6). }
  split.
  { rewrite M6, M5, M4, L3, L2, L1. unfold v0'. cbn [modulators_]. apply length_map. }
  split; [rewrite G6, G5, G4, G3, G2, G1; reflexivity |].
  split; [rewrite R6, R5, R4, R3, R2, R1; reflexivity |].
  rewrite Hvol. apply volume_of_range.
Qed.

(** *** Looping and one-shot playback *)

(** The loop check of [update()], as both looping modes run it: advance,
    and past [endLoop - 1] take one loop length off. *)
Lemma loop_body_step (v : Voice) :
  loop_points_ok (sample_ v) ->
  in_loop v ->
  step_within_loop v ->
  exists v',
    (if (wrap32 (RuntimeSample.endLoop (sample_ v) - 1)
         <? Fixed.getIntegerPart (Fixed.add (phase_ v) (deltaPhase_ v)))%Z
     then update_oscillators
            (rewind_loop (with_phase (Fixed.add (phase_ v) (deltaPhase_ v)) v))
     else update_oscillators (with_phase (Fixed.add (phase_ v) (deltaPhase_ v)) v))
    = ret v' /\
    sample_ v' = sample_ v /\ released_ v' = released_ v /\ in_loop v' /\
    deltaPhaseFactor_ v' = deltaPhaseFactor_ v /\
    (pitch_within_loop v -> step_within_loop v').
Proof.
  intros Hok [Hraw Hin] Hstep.
  pose proof Hok as [Hstart [Hloop Hroom]].
  rewrite (getIntegerPart_small (phase_ v) Hraw) in Hin.
  unfold step_within_loop in Hstep.
  set (eL := RuntimeSample.endLoop (sample_ v)) in *.
  set (sL := RuntimeSample.startLoop (sample_ v)) in *.
  set (p := raw (phase_ v)) in *.
  set (d := raw (deltaPhase_ v)) in *.
  change (2 ^ 64)%Z with 18446744073709551616%Z in *.
  change (2 ^ 32)%Z with 4294967296%Z in *.
  assert (Hp : (p < eL * 4294967296)%Z).
  { pose proof (Z.div_mod p 4294967296 ltac:(lia)) as Hdm.
    pose proof (Z.mod_pos_bound p 4294967296 ltac:(lia)) as Hmb. nia. }
  assert (Hsum : raw (Fixed.add (phase_ v) (deltaPhase_ v)) = (p + d)%Z).
  { unfold Fixed.add, wrap64. cbn [raw]. fold p d.
    change (2 ^ 64)%Z with 18446744073709551616%Z.
    apply Z.mod_small. lia. }
  assert (Hint : Fixed.getIntegerPart (Fixed.add (phase_ v) (deltaPhase_ v))
                 = ((p + d) / 4294967296)%Z).
  { rewrite getIntegerPart_small; rewrite Hsum.
    - reflexivity.
    - change (2 ^ 64)%Z with 18446744073709551616%Z. lia. }
  rewrite Hint.
  assert (HeL : wrap32 (eL - 1) = (eL - 1)%Z).
  { unfold wrap32. change (2 ^ 32)%Z with 4294967296%Z. apply Z.mod_small. lia. }
  rewrite HeL.
  destruct (Z.ltb_spec (eL - 1) ((p + d) / 4294967296)) as [Hpast | Hbefore].
  - (* past the loop end: one loop length is taken off *)
    destruct (update_oscillators_playback
                (rewind_loop (with_phase (Fixed.add (phase_ v) (deltaPhase_ v)) v)))
      as [v' [Hret [Hph [Hs [Hr [Hf Hnext]]]]]].
    exists v'. split; [exact Hret |].
    split; [rewrite Hs; reflexivity |]. split; [exact Hr |].
    split; [| split; [rewrite Hf; reflexivity | intros Hslow; apply Hnext; assumption]].
    unfold in_loop. rewrite Hph, Hs.
    cbn [rewind_loop with_phase phase_ sample_]. fold eL sL.
    assert (Hlen : raw (Fixed.of_uint32 (wrap32 (eL - sL))) = ((eL - sL) * 4294967296)%Z).
    { unfold Fixed.of_uint32, wrap32, wrap64. cbn [raw].
      change (2 ^ 64)%Z with 18446744073709551616%Z.
      change (2 ^ 32)%Z with 4294967296%Z.
      rewrite (Z.mod_small (eL - sL)) by lia.
      rewrite Z.shiftl_mul_pow2 by lia.
      change (2 ^ 32)%Z with 4294967296%Z.
      apply Z.mod_small. lia. }
    assert (Hlow : (eL * 4294967296 <= p + d)%Z).
    { assert (eL <= (p + d) / 4294967296)%Z as Hq by lia.
      pose proof (Z.mul_div_le (p + d) 4294967296 ltac:(lia)). nia. }
    assert (Hdiff : raw (Fixed.sub (Fixed.add (phase_ v) (deltaPhase_ v))
                           (Fixed.of_uint32 (wrap32 (eL - sL))))
                    = (p + d - (eL - sL) * 4294967296)%Z).
    { unfold Fixed.sub, wrap64. rewrite Hsum, Hlen.
      change (2 ^ 64)%Z with 18446744073709551616%Z.
      apply Z.mod_small. lia. }
    split.
    + rewrite Hdiff. change (2 ^ 64)%Z with 18446744073709551616%Z. lia.
    + rewrite getIntegerPart_small; rewrite Hdiff;
        change (2 ^ 64)%Z with 18446744073709551616%Z;
        change (2 ^ 32)%Z with 4294967296%Z; [| lia].
      split.
      * apply Z.div_le_lower_bound; lia.
      * apply Z.div_lt_upper_bound; lia.
  - (* still inside the loop *)
    destruct (update_oscillators_playback
                (with_phase (Fixed.add (phase_ v) (deltaPhase_ v)) v))
      as [v' [Hret [Hph [Hs [Hr [Hf Hnext]]]]]].
    exists v'. split; [exact Hret |].
    split; [rewrite Hs; reflexivity |]. split; [exact Hr |].
    split; [| split; [rewrite Hf; reflexivity | intros Hslow; apply Hnext; assumption]].
    unfold in_loop. rewrite Hph, Hs.
    cbn [with_phase phase_ sample_]. fold eL.
    rewrite Hint, Hsum.
    change (2 ^ 64)%Z with 18446744073709551616%Z.
    split; [lia |]. split; [| lia].
    apply Z.le_trans with (p / 4294967296)%Z; [lia |].
    apply Z.div_le_mono; lia.
Qed.

Lemma update_loops_step (v : Voice) :
  loops v ->
  loop_points_ok (sample_ v) ->
  in_loop v ->
  step_within_loop v ->
  exists v', update v = ret v' /\
    sample_ v' = sample_ v /\ released_ v' = released_ v /\ in_loop v' /\
    deltaPhaseFactor_ v' = deltaPhaseFactor_ v /\
    (pitch_within_loop v -> step_within_loop v').
Proof.
  intros [Hrel Hmode] Hok Hin Hstep.
  unfold update.
  destruct (Envelope.isFinished (volEnv_ v)) eqn:Hfin.
  { exists v. do 3 (split; [reflexivity |]).
    split; [exact Hin |]. split; [reflexivity |].
    intros _. exact Hstep. }
  cbn [sample_ phase_ released_ with_phase].
  destruct (loop_body_step v Hok Hin Hstep) as [v' [Hret Hrest]].
  exists v'. split; [| exact Hrest].
  destruct Hmode as [Hmode | Hmode]; rewrite Hmode, Hrel; exact Hret.
Qed.

Lemma updates_loops (n : nat) :
  forall v : Voice,
  loops v ->
  loop_points_ok (sample_ v) ->
  in_loop v ->
  step_within_loop v ->
  pitch_within_loop v ->
  exists v', updates n v = ret v' /\
    sample_ v' = sample_ v /\ released_ v' = released_ v /\ in_loop v' /\
    step_within_loop v'.
Proof.
  induction n as [| n IH]; intros v Hloops Hok Hin Hstep Hslow.
  - exists v. do 3 (split; [reflexivity |]). split; assumption.
  - destruct (update_loops_step v Hloops Hok Hin Hstep)
      as [v1 [Hret [Hs [Hr [Hin1 [Hf Hnext]]]]]].
    cbn [updates]. rewrite Hret. cbn [bind].
    destruct (IH v1) as [v' [Hret' [Hs' [Hr' [Hin' Hstep']]]]].
    + unfold loops. rewrite Hs, Hr. exact Hloops.
    + rewrite Hs. exact Hok.
    + exact Hin1.
    + apply Hnext. exact Hslow.
    + unfold pitch_within_loop. rewrite Hf, Hs. exact Hslow.
    + exists v'. split; [exact Hret' |].
      split; [congruence |]. split; [congruence |]. split; assumption.
Qed.

Lemma render_returns_in_bounds (v : Voice) :
  (Fixed.getIntegerPart (phase_ v) + 1
   < Z.of_nat (length (RuntimeSample.buffer (sample_ v))))%Z ->
  exists out, render v = ret out.
Proof.
  intros Hin.
  pose proof (getIntegerPart_range (phase_ v)) as Hi.
  set (i := Fixed.getIntegerPart (phase_ v)) in *.
  assert (Hread : forall k, (0 <= k <= i + 1)%Z ->
            exists x, at_ (RuntimeSample.buffer (sample_ v)) k = ret x).
  { intros k Hk.
    destruct (nth_error (RuntimeSample.buffer (sample_ v)) (Z.to_nat k)) as [x |] eqn:Hn.
    - exists x. apply at_in_range; [lia | exact Hn].
    - apply nth_error_None in Hn. lia. }
  assert (Hnext : (0 <= wrap32 (i + 1) <= i + 1)%Z).
  { unfold wrap32. split; [apply Z.mod_pos_bound; lia |].
    apply Z.mod_le; lia. }
  destruct (Hread i ltac:(lia)) as [a Ha].
  destruct (Hread (wrap32 (i + 1)) Hnext) as [b Hb].
  destruct (Envelope.isFinished (volEnv_ v)) eqn:Hfin.
  - exists (mkStereo 0 0). apply render_finished. exact Hfin.
  - exists (rendered v a b). apply render_sounding; assumption.
Qed.

(** A looping voice ([Looped] or [LoopedWithRemainder], not released)
    whose [deltaPhaseFactor_] keeps every phase increment within one loop
    length stays a looping voice with its phase in [[start, endLoop)]
    through any number of calls of [update()]; with the frame at [endLoop]
    in the buffer, [render()] then returns a sample after each of them. *)
Theorem sustained_loop_keeps_playing (n : nat) (v : Voice) :
  loops v ->
  loop_points_ok (sample_ v) ->
  in_loop v ->
  step_within_loop v ->
  pitch_within_loop v ->
  (RuntimeSample.endLoop (sample_ v)
   < Z.of_nat (length (RuntimeSample.buffer (sample_ v))))%Z ->
  exists v', updates n v = ret v' /\
    loops v' /\
    (RuntimeSample.start (sample_ v) <= Fixed.getIntegerPart (phase_ v')
     < RuntimeSample.endLoop (sample_ v))%Z /\
    exists out, render v' = ret out.
Proof.
  intros Hloops Hok Hin Hstep Hslow Hlen.
  destruct (updates_loops n v Hloops Hok Hin Hstep Hslow)
    as [v' [Hret [Hs [Hr [[_ Hin'] _]]]]].
  exists v'. split; [exact Hret |].
  split; [unfold loops; rewrite Hs, Hr; exact Hloops |].
  rewrite Hs in Hin'. split; [exact Hin' |].
  apply render_returns_in_bounds. rewrite Hs. lia.
Qed.

Lemma update_plays_to_end (v : Voice) :
  plays_to_end v ->
  (1 <= RuntimeSample.end_ (sample_ v) <= 2 ^ 32)%Z ->
  exists v', update v = ret v' /\
    sample_ v' = sample_ v /\ released_ v' = released_ v /\
    (Envelope.isFinished (volEnv_ v') = false ->
     Envelope.isFinished (volEnv_ v) = false /\
     phase_ v' = Fixed.add (phase_ v) (deltaPhase_ v) /\
     (Fixed.getIntegerPart (phase_ v') + 1 <= RuntimeSample.end_ (sample_ v))%Z).
Proof.
  intros Hmode Hend. unfold update.
  destruct (Envelope.isFinished (volEnv_ v)) eqn:Hfin.
  { exists v. do 3 (split; [reflexivity |]). intros H. congruence. }
  cbn [sample_ phase_ released_ with_phase].
  assert (Hwrap : wrap32 (RuntimeSample.end_ (sample_ v) - 1)
                  = (RuntimeSample.end_ (sample_ v) - 1)%Z).
  { unfold wrap32. apply Z.mod_small. lia. }
  rewrite Hwrap.
  assert (Hbody : exists v',
    (if (RuntimeSample.end_ (sample_ v) - 1
         <? Fixed.getIntegerPart (Fixed.add (phase_ v) (deltaPhase_ v)))%Z
     then ret (finish_volEnv (with_phase (Fixed.add (phase_ v) (deltaPhase_ v)) v))
     else update_oscillators (with_phase (Fixed.add (phase_ v) (deltaPhase_ v)) v))
    = ret v' /\
    sample_ v' = sample_ v /\ released_ v' = released_ v /\
    (Envelope.isFinished (volEnv_ v') = false ->
     false = false /\
     phase_ v' = Fixed.add (phase_ v) (deltaPhase_ v) /\
     (Fixed.getIntegerPart (phase_ v') + 1 <= RuntimeSample.end_ (sample_ v))%Z)).
  { destruct (Z.ltb_spec (RuntimeSample.end_ (sample_ v) - 1)
                (Fixed.getIntegerPart (Fixed.add (phase_ v) (deltaPhase_ v))))
      as [Hpast | Hbelow].
    - eexists. split; [reflexivity |]. do 2 (split; [reflexivity |]).
      cbn [finish_volEnv volEnv_ with_volEnv with_phase].
      rewrite Envelope.isFinished_finish. discriminate.
    - destruct (update_oscillators_playback
                  (with_phase (Fixed.add (phase_ v) (deltaPhase_ v)) v))
        as [v1 [Hret1 [Hph [Hs [Hr _]]]]].
      exists v1. split; [exact Hret1 |].
      split; [exact Hs |]. split; [exact Hr |].
      intros _. split; [reflexivity |]. rewrite Hph.
      cbn [with_phase phase_]. split; [reflexivity | lia]. }
  destruct Hbody as [v' [Hret Hrest]]. exists v'. split; [| exact Hrest].
  destruct Hmode as [Hm | [Hm | [Hm Hrel]]]; rewrite Hm; [| | rewrite Hrel]; exact Hret.
Qed.

(** A voice that plays through to [end] (a one-shot sample, or a
    [LoopedWithRemainder] one after release) never reads past [end]: after
    one or more calls of [update()] it is either finished or has the frame
    after its phase at most at [end], so that with the frame at [end] in
    the buffer [render()] returns a sample. *)
Theorem played_out_voice_stops_at_end (n : nat) :
  forall v : Voice,
  plays_to_end v ->
  (1 <= RuntimeSample.end_ (sample_ v) <= 2 ^ 32)%Z ->
  (RuntimeSample.end_ (sample_ v)
   < Z.of_nat (length (RuntimeSample.buffer (sample_ v))))%Z ->
  exists v', updates (S n) v = ret v' /\
    (isSounding v' = false \/
     (Fixed.getIntegerPart (phase_ v') + 1 <= RuntimeSample.end_ (sample_ v))%Z) /\
    exists out, render v' = ret out.
Proof.
  induction n as [| n IH]; intros v Hmode Hend Hlen.
  - destruct (update_plays_to_end v Hmode Hend) as [v' [Hret [Hs [_ Hnext]]]].
    cbn [updates]. rewrite Hret. cbn [bind]. exists v'. split; [reflexivity |].
    unfold isSounding.
    destruct (Envelope.isFinished (volEnv_ v')) eqn:Hfin.
    + split; [left; reflexivity |].
      exists (mkStereo 0 0). apply render_finished. exact Hfin.
    + destruct (Hnext eq_refl) as [_ [_ Hbound]].
      split; [right; exact Hbound |].
      apply render_returns_in_bounds. rewrite Hs. lia.
  - destruct (update_plays_to_end v Hmode Hend) as [v1 [Hret [Hs [Hr _]]]].
    destruct (IH v1) as [v' [Hret' Hrest]].
    + unfold plays_to_end. rewrite Hs, Hr. exact Hmode.
    + rewrite Hs. exact Hend.
    + rewrite Hs. exact Hlen.
    + exists v'. split.
      * change (updates (S (S n)) v) with (v1' <- update v ;; updates (S n) v1').
        rewrite Hret. exact Hret'.
      * rewrite Hs in Hrest. exact Hrest.
Qed.

(** A released [Looped] voice does not wrap any more: [update()] either
    finishes it (the phase went past [endLoop - 1]) or leaves it in
    [[start, endLoop)] with the phase advanced by exactly [deltaPhase_];
    the loop length is never taken off. *)
Theorem released_loop_is_not_rewound (v : Voice) :
  RuntimeSample.mode (sample_ v) = SampleMode.Looped ->
  released_ v = true ->
  Envelope.isFinished (volEnv_ v) = false ->
  loop_points_ok (sample_ v) ->
  in_loop v ->
  step_within_loop v ->
  exists v', update v = ret v' /\
    raw (phase_ v') = (raw (phase_ v) + raw (deltaPhase_ v))%Z /\
    (isSounding v' = false \/
     (RuntimeSample.start (sample_ v) <= Fixed.getIntegerPart (phase_ v')
      < RuntimeSample.endLoop (sample_ v))%Z).
Proof.
  intros Hmode Hrel Hfin Hok [Hraw Hin] Hstep.
  pose proof Hok as [Hstart [Hloop Hroom]].
  unfold update. rewrite Hfin.
  cbn [sample_ phase_ released_ with_phase]. rewrite Hmode, Hrel.
  rewrite (getIntegerPart_small (phase_ v) Hraw) in Hin.
  unfold step_within_loop in Hstep.
  set (eL := RuntimeSample.endLoop (sample_ v)) in *.
  set (sL := RuntimeSample.startLoop (sample_ v)) in *.
  set (p := raw (phase_ v)) in *.
  set (d := raw (deltaPhase_ v)) in *.
  change (2 ^ 64)%Z with 18446744073709551616%Z in *.
  change (2 ^ 32)%Z with 4294967296%Z in *.
  assert (Hp : (p < eL * 4294967296)%Z).
  { pose proof (Z.div_mod p 4294967296 ltac:(lia)) as Hdm.
    pose proof (Z.mod_pos_bound p 4294967296 ltac:(lia)) as Hmb. nia. }
  assert (Hsum : raw (Fixed.add (phase_ v) (deltaPhase_ v)) = (p + d)%Z).
  { unfold Fixed.add, wrap64. cbn [raw]. fold p d.
    change (2 ^ 64)%Z with 18446744073709551616%Z.
    apply Z.mod_small. lia. }
  assert (Hint : Fixed.getIntegerPart (Fixed.add (phase_ v) (deltaPhase_ v))
                 = ((p + d) / 4294967296)%Z).
  { rewrite getIntegerPart_small; rewrite Hsum.
    - reflexivity.
    - change (2 ^ 64)%Z with 18446744073709551616%Z. lia. }
  rewrite Hint.
  assert (HeL : wrap32 (eL - 1) = (eL - 1)%Z).
  { unfold wrap32. change (2 ^ 32)%Z with 4294967296%Z. apply Z.mod_small. lia. }
  rewrite HeL.
  destruct (Z.ltb_spec (eL - 1) ((p + d) / 4294967296)) as [Hpast | Hbefore].
  - eexists. split; [reflexivity |].
    cbn [finish_volEnv with_volEnv with_phase phase_ volEnv_].
    split; [exact Hsum |]. left.
    unfold isSounding, finish_volEnv. cbn [volEnv_ with_volEnv with_phase].
    rewrite Envelope.isFinished_finish. reflexivity.
  - destruct (update_oscillators_playback
                (with_phase (Fixed.add (phase_ v) (deltaPhase_ v)) v))
      as [v' [Hret [Hph [Hs _]]]].
    exists v'. split; [exact Hret |]. rewrite Hph.
    cbn [with_phase phase_]. split; [exact Hsum |]. right.
    rewrite Hint. split; [| lia].
    apply Z.le_trans with (p / 4294967296)%Z; [lia |].
    apply Z.div_le_mono; lia.
Qed.

(** *** The same controller value again *)

Lemma delivered_again (matches : M -> bool) (deliver : M -> M) (ms : list M) :
  (forall m, matches (deliver m) = matches m) ->
  (forall m, deliver (deliver m) = deliver m) ->
  delivered matches deliver (delivered matches deliver ms) = delivered matches deliver ms.
Proof.
  intros Hmatch Hidem. unfold delivered. rewrite map_map. apply map_ext.
  intros m. destruct (matches m) eqn:Hm.
  - rewrite Hmatch, Hm. apply Hidem.
  - rewrite Hm. reflexivity.
Qed.

Lemma targeted_delivered (matches : M -> bool) (deliver : M -> M)
  (d : SFGenerator.t) (ms : list M) :
  (forall m, Modulator.getDestination (deliver m) = Modulator.getDestination m) ->
  (forall m, matches (deliver m) = matches m) ->
  targeted matches d (delivered matches deliver ms) = targeted matches d ms.
Proof.
  intros Hdest Hmatch. unfold targeted, delivered.
  induction ms as [| m ms IH]; [reflexivity |].
  cbn [map existsb]. rewrite IH. f_equal.
  destruct (matches m) eqn:Hm.
  - rewrite Hmatch, Hm, Hdest. reflexivity.
  - rewrite Hm. reflexivity.
Qed.

Lemma forward_again (matches : M -> bool) (deliver : M -> M) (v v1 : Voice) :
  (forall m, Modulator.getDestination (deliver m) = Modulator.getDestination m) ->
  (forall m, matches (deliver m) = matches m) ->
  (forall m, deliver (deliver m) = deliver m) ->
  forward_to_modulators matches deliver (length (modulators_ v)) 0 v = ret v1 ->
  exists v2,
    forward_to_modulators matches deliver (length (modulators_ v1)) 0 v1 = ret v2 /\
    same_playback v1 v2 /\
    modulators_ v2 = modulators_ v1 /\
    (forall d, modulations_ v2 d = modulations_ v1 d) /\
    volume_ v2 = volume_ v1.
Proof.
  intros Hdest Hmatch Hidem Hret1.
  destruct (forward_to_modulators_effect matches deliver Hdest
              (length (modulators_ v)) 0 v ltac:(lia))
    as [v1' [Hret [_ [Hmods [Hmodl Hvol]]]]].
  rewrite Hret in Hret1. injection Hret1 as ->.
  destruct (forward_to_modulators_effect matches deliver Hdest
              (length (modulators_ v1)) 0 v1 ltac:(lia))
    as [v2 [Hret2 [Hplay2 [Hmods2 [Hmodl2 Hvol2]]]]].
  cbn [firstn skipn app] in *.
  assert (Hsame : modulators_ v2 = modulators_ v1).
  { rewrite Hmods2, Hmods. apply delivered_again; assumption. }
  assert (Htarget : forall d, targeted matches d (modulators_ v1)
                              = targeted matches d (modulators_ v)).
  { intros d. rewrite Hmods. apply targeted_delivered; assumption. }
  assert (Hmodl_same : forall d, modulations_ v2 d = modulations_ v1 d).
  { intros d. rewrite Hmodl2, Htarget, Hsame.
    destruct (targeted matches d (modulators_ v)) eqn:Ht; [| reflexivity].
    rewrite Hmodl, Ht. reflexivity. }
  exists v2. split; [exact Hret2 |]. split; [exact Hplay2 |].
  split; [exact Hsame |]. split; [exact Hmodl_same |].
  rewrite Hvol2, !Htarget.
  destruct (targeted matches SFGenerator.pan (modulators_ v)
            || targeted matches SFGenerator.initialAttenuation (modulators_ v))
    eqn:Ht; [| reflexivity].
  rewrite Hvol. destruct Hplay2 as [_ [_ [_ [Hgen _]]]].
  unfold volume_of, getModulatedGenerator. rewrite Hgen, !Hmodl_same. reflexivity.
Qed.

(** A controller value that arrives a second time changes nothing that
    the first arrival settled, for modulators whose [updateSFController]
    keeps their source and is idempotent: the second [updateSFController]
    returns a voice with the same modulators, the same [modulations_], the
    same [volume_] and the same playback state. *)
Theorem repeated_controller_value_settles (controller : SFGeneralController.t)
  (value : Z) (v v1 : Voice) :
  (forall m, Modulator.isSourceSFController controller
               (Modulator.updateSFController controller value m)
             = Modulator.isSourceSFController controller m) ->
  (forall m, Modulator.updateSFController controller value
               (Modulator.updateSFController controller value m)
             = Modulator.updateSFController controller value m) ->
  updateSFController controller value v = ret v1 ->
  exists v2,
    updateSFController controller value v1 = ret v2 /\
    same_playback v1 v2 /\
    modulators_ v2 = modulators_ v1 /\
    (forall d, modulations_ v2 d = modulations_ v1 d) /\
    volume_ v2 = volume_ v1.
Proof.
  intros Hmatch Hidem Hret.
  exact (forward_again _ _ v v1
           (Modulator.getDestination_updateSFController controller value)
           Hmatch Hidem Hret).
Qed.

(** *** The rendered sample *)

Lemma getFractionalPart_range (a : FixedPoint) :
  (0 <= Fixed.getFractionalPart a < 1)%R.
Proof.
  unfold Fixed.getFractionalPart.
  change (2 ^ 32 - 1)%Z with (Z.ones 32). rewrite Z.land_ones by lia.
  pose proof (Z.mod_pos_bound (raw a) (2 ^ 32) ltac:(lia)) as [H0 H1].
  apply IZR_le in H0. apply IZR_lt in H1.
  set (x := IZR (raw a mod 2 ^ 32)) in *.
  assert (Hpos : (0 < IZR (2 ^ 32))%R) by (apply IZR_lt; lia).
  split.
  - apply Rmult_le_pos; [exact H0 | left; apply Rinv_0_lt_compat; exact Hpos].
  - apply Rmult_lt_reg_r with (IZR (2 ^ 32)); [exact Hpos |].
    unfold Rdiv. rewrite Rmult_assoc, Rinv_l by lra. lra.
Qed.

(** Frames are 16-bit, the attenuation is a ratio and the interpolation
    weight is in [[0, 1)]: a rendered sample is at most the volume
    envelope's value times the channel's [volume_] times 32768/32767 in
    magnitude, on either channel. *)
Theorem render_is_bounded (v : Voice) (out : StereoValue) :
  (forall x, In x (RuntimeSample.buffer (sample_ v)) -> (-32768 <= x <= 32767)%Z) ->
  render v = ret out ->
  (Rabs (left out)
   <= Rabs (Envelope.getValue (volEnv_ v)) * Rabs (left (volume_ v)) * (32768 / 32767))%R /\
  (Rabs (right out)
   <= Rabs (Envelope.getValue (volEnv_ v)) * Rabs (right (volume_ v)) * (32768 / 32767))%R.
Proof.
  intros Hframes Hret.
  assert (Hbound : forall e c r a b vol : R,
            (0 <= c <= 1)%R -> (0 <= r < 1)%R ->
            (-32768 <= a <= 32767)%R -> (-32768 <= b <= 32767)%R ->
            (Rabs (e * c * vol * (((1 - r) * a + r * b) / 32767))
             <= Rabs e * Rabs vol * (32768 / 32767))%R).
  { intros e c r a b vol Hc Hr Ha Hb.
    replace (e * c * vol * (((1 - r) * a + r * b) / 32767))%R
      with ((e * vol) * (c * (((1 - r) * a + r * b) / 32767)))%R by lra.
    rewrite Rabs_mult, (Rabs_mult e vol), Rmult_assoc, Rmult_assoc.
    apply Rmult_le_compat_l; [apply Rabs_pos |].
    apply Rmult_le_compat_l; [apply Rabs_pos |].
    apply Rabs_le.
    assert (-32768 <= (1 - r) * a + r * b <= 32768)%R by nra.
    split; nra. }
  unfold render in Hret.
  destruct (Envelope.isFinished (volEnv_ v)).
  { injection Hret as <-. cbn [left right].
    replace 0.0%R with 0%R by lra. rewrite Rabs_R0.
    split; (apply Rmult_le_pos; [apply Rmult_le_pos; apply Rabs_pos | lra]). }
  cbv zeta in Hret.
  destruct (at_ (RuntimeSample.buffer (sample_ v)) (Fixed.getIntegerPart (phase_ v)))
    as [a |] eqn:Ha; [| discriminate].
  cbn [bind] in Hret.
  destruct (at_ (RuntimeSample.buffer (sample_ v))
              (wrap32 (Fixed.getIntegerPart (phase_ v) + 1)))
    as [b |] eqn:Hb; [| discriminate].
  cbn [bind] in Hret.
  rewrite conv_facts.centibelToRatio_closed_form in Hret. cbn [bind] in Hret.
  injection Hret as <-.
  assert (Hin : forall i x, at_ (RuntimeSample.buffer (sample_ v)) i = ret x ->
                  (-32768 <= IZR x <= 32767)%R).
  { intros i x Hx. unfold at_ in Hx.
    destruct (i <? 0)%Z; [discriminate |].
    destruct (nth_error (RuntimeSample.buffer (sample_ v)) (Z.to_nat i)) as [y |] eqn:Hn;
      [| discriminate].
    injection Hx as ->. apply nth_error_In in Hn.
    destruct (Hframes x Hn) as [Hlo Hhi].
    apply IZR_le in Hlo. apply IZR_le in Hhi. lra. }
  pose proof (Hin _ _ Ha) as Hra. pose proof (Hin _ _ Hb) as Hrb.
  pose proof (getFractionalPart_range (phase_ v)) as Hr.
  match goal with |- context [conv.centibelToRatio_value ?x] =>
    pose proof (conv_facts.centibelToRatio_value_range x) as Hc
  end.
  unfold Stereo.scale, Stereo.scaled_by, INT16_MAX. cbn [left right].
  split.
  - match goal with |- (Rabs ?lhs <= _)%R =>
      replace lhs with
        (Envelope.getValue (volEnv_ v)
         * conv.centibelToRatio_value
             (getModulatedGenerator v SFGenerator.modLfoToVolume * LFO.getValue (modLFO_ v))
         * left (volume_ v)
         * (((1 - Fixed.getFractionalPart (phase_ v)) * IZR a
             + Fixed.getFractionalPart (phase_ v) * IZR b) / 32767))%R by lra
    end.
    apply Hbound; assumption.
  - match goal with |- (Rabs ?lhs <= _)%R =>
      replace lhs with
        (Envelope.getValue (volEnv_ v)
         * conv.centibelToRatio_value
             (getModulatedGenerator v SFGenerator.modLfoToVolume * LFO.getValue (modLFO_ v))
         * right (volume_ v)
         * (((1 - Fixed.getFractionalPart (phase_ v)) * IZR a
             + Fixed.getFractionalPart (phase_ v) * IZR b) / 32767))%R by lra
    end.
    apply Hbound; assumption.
Qed.

(** *** The phase and the sample buffer *)

Lemma reads_within_sample (v : Voice) :
  (RuntimeSample.end_ (sample_ v)
   < Z.of_nat (length (RuntimeSample.buffer (sample_ v))))%Z ->
  within_sample v ->
  exists a b,
    at_ (RuntimeSample.buffer (sample_ v)) (Fixed.getIntegerPart (phase_ v)) = ret a /\
    at_ (RuntimeSample.buffer (sample_ v))
        (wrap32 (Fixed.getIntegerPart (phase_ v) + 1)) = ret b /\
    exists out, render v = ret out.
Proof.
  intros Hlen [Hstart Hend].
  pose proof (getIntegerPart_range (phase_ v)) as Hi.
  set (i := Fixed.getIntegerPart (phase_ v)) in *.
  assert (Hread : forall k, (0 <= k <= i + 1)%Z ->
            exists x, at_ (RuntimeSample.buffer (sample_ v)) k = ret x).
  { intros k Hk.
    destruct (nth_error (RuntimeSample.buffer (sample_ v)) (Z.to_nat k)) as [x |] eqn:Hn.
    - exists x. apply at_in_range; [lia | exact Hn].
    - apply nth_error_None in Hn. lia. }
  assert (Hnext : (0 <= wrap32 (i + 1) <= i + 1)%Z).
  { unfold wrap32. split; [apply Z.mod_pos_bound; lia |].
    apply Z.mod_le; lia. }
  destruct (Hread i ltac:(lia)) as [a Ha].
  destruct (Hread (wrap32 (i + 1)) Hnext) as [b Hb].
  exists a, b. split; [exact Ha |]. split; [exact Hb |].
  destruct (Envelope.isFinished (volEnv_ v)) eqn:Hfin.
  - exists (mkStereo 0 0). apply render_finished. exact Hfin.
  - exists (rendered v a b). apply render_sounding; assumption.
Qed.

Lemma render_still_playable (v v' : Voice) :
  (RuntimeSample.end_ (sample_ v)
   < Z.of_nat (length (RuntimeSample.buffer (sample_ v))))%Z ->
  still_playable v v' -> exists out, render v' = ret out.
Proof.
  intros Hlen [Hs [_ [_ [Hsilent | Hin]]]].
  - exists (mkStereo 0 0). apply render_finished.
    unfold isSounding in Hsilent. apply negb_false_iff in Hsilent. exact Hsilent.
  - destruct (reads_within_sample v') as [a [b [_ [_ Hout]]]];
      [rewrite Hs; exact Hlen | exact Hin | exact Hout].
Qed.

(** The loop check of [update()] on a phase anywhere in the sample: when
    the increment is at most one loop length, the phase is in the sample
    again afterwards. *)
Lemma loop_body_within_sample (v : Voice) :
  sample_points_ok (sample_ v) ->
  (0 <= raw (phase_ v) < 2 ^ 64)%Z ->
  within_sample v ->
  step_within_loop v ->
  exists v',
    (if (wrap32 (RuntimeSample.endLoop (sample_ v) - 1)
         <? Fixed.getIntegerPart (Fixed.add (phase_ v) (deltaPhase_ v)))%Z
     then update_oscillators
            (rewind_loop (with_phase (Fixed.add (phase_ v) (deltaPhase_ v)) v))
     else update_oscillators (with_phase (Fixed.add (phase_ v) (deltaPhase_ v)) v))
    = ret v' /\
    sample_ v' = sample_ v /\ released_ v' = released_ v /\
    (0 <= raw (phase_ v') < 2 ^ 64)%Z /\ within_sample v'.
Proof.
  intros [Hstart [Hloop [Hinside Hroom]]] Hraw [Hlo Hhi] Hstep.
  rewrite (getIntegerPart_small (phase_ v) Hraw) in Hlo, Hhi.
  unfold step_within_loop in Hstep.
  set (eL := RuntimeSample.endLoop (sample_ v)) in *.
  set (sL := RuntimeSample.startLoop (sample_ v)) in *.
  set (st := RuntimeSample.start (sample_ v)) in *.
  set (en := RuntimeSample.end_ (sample_ v)) in *.
  set (p := raw (phase_ v)) in *.
  set (d := raw (deltaPhase_ v)) in *.
  change (2 ^ 64)%Z with 18446744073709551616%Z in *.
  change (2 ^ 32)%Z with 4294967296%Z in *.
  assert (Hp : (st * 4294967296 <= p < en * 4294967296)%Z).
  { pose proof (Z.div_mod p 4294967296 ltac:(lia)) as Hdm.
    pose proof (Z.mod_pos_bound p 4294967296 ltac:(lia)) as Hmb. nia. }
  assert (Hsum : raw (Fixed.add (phase_ v) (deltaPhase_ v)) = (p + d)%Z).
  { unfold Fixed.add, wrap64. cbn [raw]. fold p d.
    change (2 ^ 64)%Z with 18446744073709551616%Z.
    apply Z.mod_small. nia. }
  assert (Hint : Fixed.getIntegerPart (Fixed.add (phase_ v) (deltaPhase_ v))
                 = ((p + d) / 4294967296)%Z).
  { rewrite getIntegerPart_small; rewrite Hsum.
    - reflexivity.
    - change (2 ^ 64)%Z with 18446744073709551616%Z. nia. }
  rewrite Hint.
  assert (HeL : wrap32 (eL - 1) = (eL - 1)%Z).
  { unfold wrap32. change (2 ^ 32)%Z with 4294967296%Z. apply Z.mod_small. lia. }
  rewrite HeL.
  assert (Hmono : (p / 4294967296 <= (p + d) / 4294967296)%Z)
    by (apply Z.div_le_mono; lia).
  destruct (Z.ltb_spec (eL - 1) ((p + d) / 4294967296)) as [Hpast | Hbefore].
  - destruct (update_oscillators_playback
                (rewind_loop (with_phase (Fixed.add (phase_ v) (deltaPhase_ v)) v)))
      as [v' [Hret [Hph [Hs [Hr _]]]]].
    exists v'. split; [exact Hret |].
    split; [rewrite Hs; reflexivity |]. split; [exact Hr |].
    unfold within_sample. rewrite Hph, Hs.
    cbn [rewind_loop with_phase phase_ sample_]. fold eL sL st en.
    assert (Hlen : raw (Fixed.of_uint32 (wrap32 (eL - sL))) = ((eL - sL) * 4294967296)%Z).
    { unfold Fixed.of_uint32, wrap32, wrap64. cbn [raw].
      change (2 ^ 64)%Z with 18446744073709551616%Z.
      change (2 ^ 32)%Z with 4294967296%Z.
      rewrite (Z.mod_small (eL - sL)) by lia.
      rewrite Z.shiftl_mul_pow2 by lia.
      change (2 ^ 32)%Z with 4294967296%Z.
      apply Z.mod_small. lia. }
    assert (Hlow : (eL * 4294967296 <= p + d)%Z).
    { assert (eL <= (p + d) / 4294967296)%Z as Hq by lia.
      pose proof (Z.mul_div_le (p + d) 4294967296 ltac:(lia)). nia. }
    assert (Hdiff : raw (Fixed.sub (Fixed.add (phase_ v) (deltaPhase_ v))
                           (Fixed.of_uint32 (wrap32 (eL - sL))))
                    = (p + d - (eL - sL) * 4294967296)%Z).
    { unfold Fixed.sub, wrap64. rewrite Hsum, Hlen.
      change (2 ^ 64)%Z with 18446744073709551616%Z.
      apply Z.mod_small. nia. }
    assert (Hword : (0 <= p + d - (eL - sL) * 4294967296 < 18446744073709551616)%Z)
      by nia.
    split; [rewrite Hdiff; exact Hword |].
    rewrite getIntegerPart_small; rewrite Hdiff;
      change (2 ^ 64)%Z with 18446744073709551616%Z;
      change (2 ^ 32)%Z with 4294967296%Z; [| exact Hword].
    split.
    + apply Z.div_le_lower_bound; nia.
    + assert ((p + d - (eL - sL) * 4294967296) / 4294967296 < en)%Z; [| lia].
      apply Z.div_lt_upper_bound; nia.
  - destruct (update_oscillators_playback
                (with_phase (Fixed.add (phase_ v) (deltaPhase_ v)) v))
      as [v' [Hret [Hph [Hs [Hr _]]]]].
    exists v'. split; [exact Hret |].
    split; [rewrite Hs; reflexivity |]. split; [exact Hr |].
    unfold within_sample. rewrite Hph, Hs.
    cbn [with_phase phase_ sample_]. fold eL st en.
    rewrite Hint, Hsum.
    change (2 ^ 64)%Z with 18446744073709551616%Z.
    split; [nia |]. split; lia.
Qed.

Lemma update_loops_within_sample (v : Voice) :
  (0 <= raw (phase_ v) < 2 ^ 64)%Z ->
  within_sample v ->
  loops v -> sample_points_ok (sample_ v) -> step_within_loop v ->
  exists v', update v = ret v' /\ still_playable v v'.
Proof.
  intros Hraw Hin [Hrel Hmode] Hok Hstep. unfold update.
  destruct (Envelope.isFinished (volEnv_ v)) eqn:Hfin.
  { exists v. split; [reflexivity |].
    split; [reflexivity |]. split; [reflexivity |]. split; [exact Hraw |].
    right. exact Hin. }
  cbn [sample_ phase_ released_ with_phase].
  destruct (loop_body_within_sample v Hok Hraw Hin Hstep)
    as [v' [Hret [Hs [Hr [Hraw' Hin']]]]].
  exists v'. split.
  - destruct Hmode as [Hmode | Hmode]; rewrite Hmode, Hrel; exact Hret.
  - split; [exact Hs |]. split; [exact Hr |]. split; [exact Hraw' |].
    right. exact Hin'.
Qed.

Lemma update_drains_within_sample (v : Voice) :
  (0 <= raw (phase_ v) < 2 ^ 64)%Z ->
  within_sample v ->
  drains v -> drain_points_ok v -> no_carry v ->
  exists v', update v = ret v' /\ still_playable v v'.
Proof.
  intros Hraw [Hlo Hhi] Hmode [Hend HendLoop] [Hd Hcarry]. unfold update.
  destruct (Envelope.isFinished (volEnv_ v)) eqn:Hfin.
  { exists v. split; [reflexivity |].
    split; [reflexivity |]. split; [reflexivity |]. split; [exact Hraw |].
    left. unfold isSounding. rewrite Hfin. reflexivity. }
  cbn [sample_ phase_ released_ with_phase].
  pose proof (getIntegerPart_range (phase_ v)) as Hi.
  rewrite (getIntegerPart_small (phase_ v) Hraw) in Hlo, Hhi, Hi.
  set (p := raw (phase_ v)) in *.
  set (d := raw (deltaPhase_ v)) in *.
  set (st := RuntimeSample.start (sample_ v)) in *.
  set (en := RuntimeSample.end_ (sample_ v)) in *.
  assert (Hsum : raw (Fixed.add (phase_ v) (deltaPhase_ v)) = (p + d)%Z).
  { unfold Fixed.add, wrap64. cbn [raw]. fold p d. apply Z.mod_small. lia. }
  assert (Hint : Fixed.getIntegerPart (Fixed.add (phase_ v) (deltaPhase_ v))
                 = ((p + d) / 2 ^ 32)%Z).
  { rewrite getIntegerPart_small; rewrite Hsum; [reflexivity | lia]. }
  assert (Hmono : (p / 2 ^ 32 <= (p + d) / 2 ^ 32)%Z)
    by (apply Z.div_le_mono; lia).
  (* the voice stops at [bound]: [end], or [endLoop] for a released loop *)
  assert (Hstop : forall bound : Z,
            (1 <= bound <= en)%Z -> (bound <= 2 ^ 32)%Z ->
            exists v',
              (if (wrap32 (bound - 1)
                   <? Fixed.getIntegerPart (Fixed.add (phase_ v) (deltaPhase_ v)))%Z
               then ret (finish_volEnv
                           (with_phase (Fixed.add (phase_ v) (deltaPhase_ v)) v))
               else update_oscillators
                      (with_phase (Fixed.add (phase_ v) (deltaPhase_ v)) v))
              = ret v' /\ still_playable v v').
  { intros bound Hbound Hword.
    assert (Hwrap : wrap32 (bound - 1) = (bound - 1)%Z)
      by (unfold wrap32; apply Z.mod_small; lia).
    rewrite Hwrap, Hint.
    destruct (Z.ltb_spec (bound - 1) ((p + d) / 2 ^ 32)) as [Hpast | Hbelow].
    - eexists. split; [reflexivity |].
      split; [reflexivity |]. split; [reflexivity |].
      split; [cbn [finish_volEnv with_volEnv with_phase phase_]; rewrite Hsum; lia |].
      left. unfold isSounding, finish_volEnv. cbn [volEnv_ with_volEnv with_phase].
      rewrite Envelope.isFinished_finish. reflexivity.
    - destruct (update_oscillators_playback
                  (with_phase (Fixed.add (phase_ v) (deltaPhase_ v)) v))
        as [v' [Hret [Hph [Hs [Hr _]]]]].
      exists v'. split; [exact Hret |].
      split; [exact Hs |]. split; [exact Hr |].
      rewrite Hph. cbn [with_phase phase_].
      split; [rewrite Hsum; lia |].
      right. unfold within_sample. rewrite Hph, Hs.
      cbn [with_phase phase_ sample_]. fold st en. rewrite Hint. lia. }
  destruct Hmode as [[Hm | [Hm | [Hm Hrel]]] | [Hm Hrel]].
  - rewrite Hm. apply Hstop; lia.
  - rewrite Hm. apply Hstop; lia.
  - rewrite Hm, Hrel. apply Hstop; lia.
  - rewrite Hm, Hrel. specialize (HendLoop Hm).
    destruct (Hstop (RuntimeSample.endLoop (sample_ v)) HendLoop ltac:(lia))
      as [v' [Hret Hkept]].
    exists v'. split; [| exact Hkept].
    destruct (wrap32 (RuntimeSample.endLoop (sample_ v) - 1)
              <? Fixed.getIntegerPart (Fixed.add (phase_ v) (deltaPhase_ v)))%Z;
      exact Hret.
Qed.

(** C6, as the code has it.  With a buffer longer than [sample.end] and a
    phase whose integer part [i] satisfies [start <= i] and [i + 1 <= end],
    [render()] returns a sample: neither [buffer->at(i)] nor
    [buffer->at(i + 1)] throws (and no table lookup does).  [update()]
    hands such a phase on, or finishes the voice, and [render()] returns
    again afterwards,
    - while the voice loops ([Looped] or [LoopedWithRemainder], not
      released): when the loop lies in the sample and the call finds a
      phase increment of at most one loop length;
    - once it does not ([UnLooped], [UnUsed], or released): when the
      address it stops at is a 32-bit address of the sample and the
      addition [phase_ += deltaPhase_] does not carry out of its 64 bits. *)
Theorem render_does_not_throw (v : Voice) :
  (RuntimeSample.end_ (sample_ v)
   < Z.of_nat (length (RuntimeSample.buffer (sample_ v))))%Z ->
  within_sample v ->
  (exists a b,
     at_ (RuntimeSample.buffer (sample_ v)) (Fixed.getIntegerPart (phase_ v)) = ret a /\
     at_ (RuntimeSample.buffer (sample_ v))
         (wrap32 (Fixed.getIntegerPart (phase_ v) + 1)) = ret b /\
     exists out, render v = ret out) /\
  ((0 <= raw (phase_ v) < 2 ^ 64)%Z ->
   loops v -> sample_points_ok (sample_ v) -> step_within_loop v ->
   exists v', update v = ret v' /\ still_playable v v' /\
              exists out, render v' = ret out) /\
  ((0 <= raw (phase_ v) < 2 ^ 64)%Z ->
   drains v -> drain_points_ok v -> no_carry v ->
   exists v', update v = ret v' /\ still_playable v v' /\
              exists out, render v' = ret out).
Proof.
  intros Hlen Hin.
  split; [apply reads_within_sample; assumption |].
  split.
  - intros Hraw Hloops Hok Hstep.
    destruct (update_loops_within_sample v Hraw Hin Hloops Hok Hstep)
      as [v' [Hret Hkept]].
    exists v'. split; [exact Hret |]. split; [exact Hkept |].
    apply (render_still_playable v v' Hlen Hkept).
  - intros Hraw Hdrains Hok Hcarry.
    destruct (update_drains_within_sample v Hraw Hin Hdrains Hok Hcarry)
      as [v' [Hret Hkept]].
    exists v'. split; [exact Hret |]. split; [exact Hkept |].
    apply (render_still_playable v v' Hlen Hkept).
Qed.

End Components.

End Voice_facts.

(** ** The example voices *)

Module Examples_facts.
Import Examples.

Lemma render_formula_witness :
  Voice.render (playing SampleMode.Looped 11 1)
  = ret (Voice.rendered (playing SampleMode.Looped 11 1) 5000 4000).
Proof.
  apply (proj2 (Voice_facts.render_formula (playing SampleMode.Looped 11 1)));
    reflexivity.
Defined.

Lemma render_does_not_throw_witness :
  (exists a b,
     at_ ramp 11 = ret a /\ at_ ramp 12 = ret b /\
     exists out, Voice.render (playing SampleMode.Looped 11 1) = ret out) /\
  (exists v',
     Voice.update (playing SampleMode.Looped 11 1) = ret v' /\
     Voice.still_playable (playing SampleMode.Looped 11 1) v' /\
     exists out, Voice.render v' = ret out) /\
  (exists v',
     Voice.update (playing SampleMode.UnLooped 15 1) = ret v' /\
     Voice.still_playable (playing SampleMode.UnLooped 15 1) v' /\
     exists out, Voice.render v' = ret out).
Proof.
  destruct (Voice_facts.render_does_not_throw (playing SampleMode.Looped 11 1))
    as [Hreads [Hloops _]];
    [vm_compute; reflexivity | unfold Voice.within_sample; vm_compute; split; congruence |].
  destruct (Voice_facts.render_does_not_throw (playing SampleMode.UnLooped 15 1))
    as [_ [_ Hdrains]];
    [vm_compute; reflexivity | unfold Voice.within_sample; vm_compute; split; congruence |].
  split; [exact Hreads |]. split.
  - apply Hloops.
    + vm_compute. split; congruence.
    + split; [reflexivity | left; reflexivity].
    + unfold Voice.sample_points_ok. vm_compute. repeat split; congruence.
    + unfold Voice.step_within_loop. vm_compute. split; congruence.
  - apply Hdrains.
    + vm_compute. split; congruence.
    + left. left. reflexivity.
    + split; [vm_compute; congruence | intros Hmode; discriminate Hmode].
    + unfold Voice.no_carry. vm_compute. split; congruence.
Defined.

Lemma keyToHeltz_root : conv.keyToHeltz conv.tables 60 = ret root_hz.
Proof.
  apply (conv_facts.keyToHeltz_closed_form 60 5);
    [lia | lra | exact (conv_facts.mul_100_whole 60 ltac:(lia)) | simpl; lra].
Qed.

Lemma keyToHeltz_three_octaves_up :
  conv.keyToHeltz conv.tables 96 = ret (8 * root_hz)%R.
Proof.
  rewrite (conv_facts.keyToHeltz_closed_form 96 8);
    [| lia | lra | exact (conv_facts.mul_100_whole 96 ltac:(lia)) | simpl; lra].
  f_equal. unfold root_hz, conv.keyToHeltz_value.
  replace (96 * 100)%R with (IZR 9600) by lra.
  replace (60 * 100)%R with (IZR 6000) by lra.
  rewrite !ZfloorZ.
  change (9600 + 300 - 1200 * Z.of_nat 8)%Z with 300%Z.
  change (6000 + 300 - 1200 * Z.of_nat 5)%Z with 300%Z.
  simpl. lra.
Qed.

Lemma root_hz_positive : (0 < root_hz)%R.
Proof.
  unfold root_hz, conv.keyToHeltz_value.
  apply Rmult_lt_0_compat; [apply pow_lt; lra |].
  apply Rmult_lt_0_compat; [lra | apply exp_pos].
Qed.

(** A looping voice three octaves above its root key, at frame 11 of the
    4-frame loop [[8, 12)]: it advances 8 frames per output sample.
    [update()] takes it to frame 19, takes the loop length off once, and
    leaves it at frame 15: outside the loop, still sounding, and with the
    same phase increment for the next call. *)
Lemma looped_phase_escapes_loop :
  exists v',
    Voice.update (three_octaves_up 11) = ret v' /\
    RuntimeSample.mode (Voice.sample_ v') = SampleMode.Looped /\
    Voice.released_ v' = false /\
    Fixed.getIntegerPart (Voice.phase_ (three_octaves_up 11)) = 11%Z /\
    RuntimeSample.startLoop (Voice.sample_ v') = 8%Z /\
    RuntimeSample.endLoop (Voice.sample_ v') = 12%Z /\
    Fixed.getIntegerPart (Voice.phase_ v') = 15%Z /\
    Envelope.isFinished (Voice.volEnv_ v') = false /\
    Voice.deltaPhase_ v' = Voice.deltaPhase_ (three_octaves_up 11).
Proof.
  rewrite Voice_facts.update_rewinds by reflexivity.
  match goal with |- context [Voice.update_oscillators ?v] =>
    destruct (Voice_facts.update_oscillators_result v (8 * root_hz))
      as [v' [Hret [Hph [Hs [Hr [Henv Hdelta]]]]]]
  end.
  { rewrite <- keyToHeltz_three_octaves_up. f_equal.
    unfold Voice.modulated_pitch, Voice.getModulatedGenerator,
      GeneratorSet.getOrDefault.
    cbn [Voice.voicePitch_ Voice.generators_ Voice.modulations_ Voice.rewind_loop
           Voice.with_phase three_octaves_up].
    lra. }
  exists v'. split; [exact Hret |].
  rewrite Hph, Hs, Hr, Henv, Hdelta.
  do 7 (split; [vm_compute; reflexivity |]).
  cbn [Voice.deltaPhaseFactor_ Voice.deltaPhase_ Voice.rewind_loop Voice.with_phase
         three_octaves_up].
  replace (1 / root_hz * (8 * root_hz))%R with (IZR 8)
    by (pose proof root_hz_positive; field; lra).
  unfold Fixed.of_double. rewrite <- mult_IZR, ZfloorZ. reflexivity.
Qed.

Lemma looped_phase_stays_in_loop_witness :
  exists v',
    Voice.updates (Z.to_nat 1000000)
      (playing_at (1 / 10000) SampleMode.Looped 11 1) = ret v' /\
    (0 <= Fixed.getIntegerPart (Voice.phase_ v') < 12)%Z.
Proof.
  assert (Hok : Voice.loop_points_ok
                  (Voice.sample_ (playing_at (1 / 10000) SampleMode.Looped 11 1))).
  { unfold Voice.loop_points_ok. vm_compute. repeat split; congruence. }
  assert (Hin : Voice.in_loop (playing_at (1 / 10000) SampleMode.Looped 11 1)).
  { unfold Voice.in_loop. vm_compute. repeat split; congruence. }
  apply (Voice_facts.looped_phase_stays_in_loop (Z.to_nat 1000000)
           (playing_at (1 / 10000) SampleMode.Looped 11 1)
           eq_refl eq_refl Hok Hin).
  intros k vk _ Hvk.
  apply (Voice_facts.updates_keep_step k
           (playing_at (1 / 10000) SampleMode.Looped 11 1) vk
           eq_refl eq_refl Hok Hin); [| | exact Hvk].
  - unfold Voice.step_within_loop. vm_compute. split; congruence.
  - unfold Voice.pitch_within_loop.
    change (Voice.deltaPhaseFactor_ (playing_at (1 / 10000) SampleMode.Looped 11 1))
      with (1 / 10000)%R.
    change (RuntimeSample.endLoop _ - RuntimeSample.startLoop _)%Z with 4%Z.
    lra.
Defined.

Lemma make_starts_at_bank_start_witness :
  exists v : RefVoice,
    Voice.make 0 (Fixed.of_uint32 0) 0 44100 bank_sample start_one_frame_later
      [] 60 100 = ret v /\
    Fixed.getIntegerPart (Voice.phase_ v) = 0%Z /\
    RuntimeSample.start (Voice.sample_ v) = 1%Z /\
    Voice.isSounding v = negb (Envelope.isFinished (Voice.volEnv_ v)).
Proof.
  apply (Voice_facts.make_starts_at_bank_start 0 (Fixed.of_uint32 0) 0 44100
           bank_sample start_one_frame_later [] 60 100).
  vm_compute. split; congruence.
Defined.


Lemma velocity_100_value :
  RefModulator.getValue velocity_100 = (10 * (100 / 128) * (100 / 128))%R.
Proof. reflexivity. Qed.

Lemma velocity_100_again :
  RefModulator.updateSFController SFGeneralController.noteOnVelocity 100 velocity_100
  = velocity_100.
Proof. reflexivity. Qed.


Lemma finished_voice_is_inert_witness :
  Voice.updates 1000 played_out = ret played_out /\
  Voice.render played_out = ret (mkStereo 0 0) /\
  Voice.isSounding played_out = false.
Proof.
  apply (Voice_facts.finished_voice_is_inert 1000 played_out). reflexivity.
Defined.

Lemma unrouted_destination_is_unmodulated_witness :
  exists v',
    Voice.updateModulatedParams SFGenerator.initialAttenuation panned = ret v' /\
    Voice.modulations_ v' SFGenerator.initialAttenuation = 0%R /\
    Voice.getModulatedGenerator v' SFGenerator.initialAttenuation
    = (IZR (GeneratorSet.getOrDefault (Voice.generators_ panned)
              SFGenerator.initialAttenuation) + 0)%R /\
    (forall other, other <> SFGenerator.initialAttenuation ->
       Voice.modulations_ v' other = Voice.modulations_ panned other).
Proof.
  apply (Voice_facts.unrouted_destination_is_unmodulated
           SFGenerator.initialAttenuation panned).
  intros m [<- | []]. discriminate.
Defined.

Lemma getExclusiveClass_reads_override_witness :
  Voice.getExclusiveClass
    (Voice.overrideGenerator SFGenerator.exclusiveClass 5 panned) = 5%Z.
Proof.
  apply (Voice_facts.getExclusiveClass_reads_override 5 panned);
    [lia | reflexivity].
Defined.

Lemma cached_parameters_stay_in_sync_witness :
  (forall d v', Voice.updateModulatedParams d panned_in_sync = ret v' ->
     Voice.in_sync v') /\
  (forall controller value v',
     Voice.updateSFController controller value panned_in_sync = ret v' ->
     Voice.in_sync v') /\
  (forall controller value v',
     Voice.updateMIDIController controller value panned_in_sync = ret v' ->
     Voice.in_sync v') /\
  (forall v', Voice.update panned_in_sync = ret v' -> Voice.in_sync v').
Proof.
  apply (Voice_facts.cached_parameters_stay_in_sync panned_in_sync).
  split; reflexivity.
Defined.

Lemma sustained_loop_keeps_playing_witness :
  exists v',
    Voice.updates (Z.to_nat 1000000)
      (playing_at (1 / 10000) SampleMode.LoopedWithRemainder 11 1) = ret v' /\
    Voice.loops v' /\
    (0 <= Fixed.getIntegerPart (Voice.phase_ v') < 12)%Z /\
    exists out, Voice.render v' = ret out.
Proof.
  apply (Voice_facts.sustained_loop_keeps_playing (Z.to_nat 1000000)
           (playing_at (1 / 10000) SampleMode.LoopedWithRemainder 11 1)).
  - split; [reflexivity | right; reflexivity].
  - unfold Voice.loop_points_ok. vm_compute. repeat split; congruence.
  - unfold Voice.in_loop. vm_compute. repeat split; congruence.
  - unfold Voice.step_within_loop. vm_compute. split; congruence.
  - unfold Voice.pitch_within_loop.
    change (Voice.deltaPhaseFactor_
              (playing_at (1 / 10000) SampleMode.LoopedWithRemainder 11 1))
      with (1 / 10000)%R.
    change (RuntimeSample.endLoop _ - RuntimeSample.startLoop _)%Z with 4%Z.
    lra.
  - vm_compute. reflexivity.
Defined.

Lemma played_out_voice_stops_at_end_witness :
  exists v',
    Voice.updates 10 (playing SampleMode.UnLooped 11 1) = ret v' /\
    (Voice.isSounding v' = false \/
     (Fixed.getIntegerPart (Voice.phase_ v') + 1 <= 16)%Z) /\
    exists out, Voice.render v' = ret out.
Proof.
  apply (Voice_facts.played_out_voice_stops_at_end 9
           (playing SampleMode.UnLooped 11 1)).
  - left. reflexivity.
  - vm_compute. split; congruence.
  - vm_compute. reflexivity.
Defined.

Lemma released_loop_is_not_rewound_witness :
  exists v',
    Voice.update let_go = ret v' /\
    raw (Voice.phase_ v')
    = (raw (Voice.phase_ let_go) + raw (Voice.deltaPhase_ let_go))%Z /\
    (Voice.isSounding v' = false \/
     (0 <= Fixed.getIntegerPart (Voice.phase_ v') < 12)%Z).
Proof.
  apply (Voice_facts.released_loop_is_not_rewound let_go).
  - reflexivity.
  - reflexivity.
  - reflexivity.
  - unfold Voice.loop_points_ok. vm_compute. repeat split; congruence.
  - unfold Voice.in_loop. vm_compute. repeat split; congruence.
  - unfold Voice.step_within_loop. vm_compute. split; congruence.
Defined.

Lemma repeated_controller_value_settles_witness :
  exists v1 v2 : RefVoice,
    Voice.updateSFController SFGeneralController.noteOnVelocity 100 panned = ret v1 /\
    Voice.updateSFController SFGeneralController.noteOnVelocity 100 v1 = ret v2 /\
    Voice.same_playback v1 v2 /\
    Voice.modulators_ v2 = Voice.modulators_ v1 /\
    (forall d, Voice.modulations_ v2 d = Voice.modulations_ v1 d) /\
    Voice.volume_ v2 = Voice.volume_ v1.
Proof.
  destruct (Voice_facts.updateSFController_playback
              SFGeneralController.noteOnVelocity 100 panned) as [v1 [H1 _]].
  destruct (Voice_facts.repeated_controller_value_settles
              SFGeneralController.noteOnVelocity 100 panned v1) as [v2 H2].
  - intros m. reflexivity.
  - intros [p s a x].
    unfold Modulator.updateSFController, RefModulator_ops,
      RefModulator.updateSFController, RefModulator.deliver.
    cbn [RefModulator.param_ RefModulator.source_ RefModulator.amountSource_
         RefModulator.calculateValue].
    destruct (RefModulator.isGeneral SFGeneralController.noteOnVelocity
                (RefModulator.sourceOp p)),
             (RefModulator.isGeneral SFGeneralController.noteOnVelocity
                (RefModulator.amountSourceOp p)); reflexivity.
  - exact H1.
  - exists v1, v2. split; [exact H1 | exact H2].
Defined.

Lemma ramp_is_16_bit (x : Z) : In x ramp -> (-32768 <= x <= 32767)%Z.
Proof.
  intros Hx. unfold ramp in Hx. cbn [In] in Hx.
  repeat (destruct Hx as [<- | Hx]; [lia |]). contradiction.
Qed.

Lemma render_is_bounded_witness :
  (Rabs (left (Voice.rendered (playing SampleMode.Looped 11 1) 5000 4000))
   <= Rabs (Envelope.getValue (Voice.volEnv_ (playing SampleMode.Looped 11 1)))
      * Rabs (left (Voice.volume_ (playing SampleMode.Looped 11 1)))
      * (32768 / 32767))%R /\
  (Rabs (right (Voice.rendered (playing SampleMode.Looped 11 1) 5000 4000))
   <= Rabs (Envelope.getValue (Voice.volEnv_ (playing SampleMode.Looped 11 1)))
      * Rabs (right (Voice.volume_ (playing SampleMode.Looped 11 1)))
      * (32768 / 32767))%R.
Proof.
  apply (Voice_facts.render_is_bounded (playing SampleMode.Looped 11 1)
           (Voice.rendered (playing SampleMode.Looped 11 1) 5000 4000)).
  - exact ramp_is_16_bit.
  - apply Voice_facts.render_sounding; reflexivity.
Defined.

(** The key 60.01 is no double; the double nearest to it is a little
    below, and times 100 it rounds to 6001: [keyToHeltz] reads slot 301 of
    the table, where the exact product would give slot 300. *)
Lemma double_60_01_representable : Binary64.representable double_60_01.
Proof.
  assert (Hbin : (powerRZ 2 5 <= double_60_01 < powerRZ 2 (5 + 1))%R)
    by (unfold double_60_01; simpl; lra).
  split.
  - rewrite (Binary64_facts.round_in_binade double_60_01 5) by (try lia; exact Hbin).
    change (5 - 52)%Z with (Z.opp 47). rewrite Binary64_facts.pow2_neg by lia.
    change (2 ^ 47)%Z with 140737488355328%Z.
    replace (double_60_01 / / 140737488355328)%R with (IZR 8445656676203233)
      by (unfold double_60_01; field).
    rewrite Binary64_facts.nearest_even_IZR. reflexivity.
  - rewrite Rabs_pos_eq by (unfold double_60_01; lra).
    apply Rlt_le_trans with (powerRZ 2 6); [apply Hbin |].
    apply Binary64_facts.pow2_le. lia.
Qed.

Lemma double_60_01_cents : Binary64.mul double_60_01 100 = 6001%R.
Proof.
  unfold Binary64.mul.
  assert (Hbin : (powerRZ 2 12 <= double_60_01 * 100 < powerRZ 2 (12 + 1))%R)
    by (unfold double_60_01; simpl; lra).
  rewrite (Binary64_facts.round_in_binade _ 12) by (try lia; exact Hbin).
  change (12 - 52)%Z with (Z.opp 40). rewrite Binary64_facts.pow2_neg by lia.
  change (2 ^ 40)%Z with 1099511627776%Z.
  rewrite (Binary64_facts.nearest_even_near 6598169278283776).
  - field.
  - unfold Rdiv. rewrite Rinv_inv. unfold double_60_01.
    replace (8445656676203233 / 140737488355328 * 100 * 1099511627776
             - 6598169278283776)%R with (- (7 / 32))%R by field.
    rewrite Rabs_Ropp, Rabs_pos_eq; lra.
Qed.

Lemma octave_6001 : conv.octave 6001 = 5%nat.
Proof.
  unfold conv.octave. rewrite (Zfloor_eq 5); [reflexivity | lra].
Qed.

Lemma keyToHeltz_60_01_reads_slot_301 :
  conv.keyToHeltz conv.tables double_60_01
  = ret (2 ^ 5 * (6.875 * Rpower 2 (301 / 1200)))%R.
Proof.
  rewrite conv_facts.keyToHeltz_at_octave
    by (rewrite ?double_60_01_cents; unfold double_60_01; lra).
  rewrite double_60_01_cents, octave_6001. unfold conv.octave_value.
  rewrite ZfloorZ. reflexivity.
Qed.

Lemma keyToHeltz_in_table_witness :
  conv.keyToHeltz conv.tables double_60_01
  = ret (conv.octave_value (conv.octave 6001) 6001) /\
  (conv.octave 6001 <= 11)%nat /\
  (0 <= Zfloor 6001 + 300 - 1200 * Z.of_nat (conv.octave 6001) < 1200)%Z.
Proof.
  pose proof (conv_facts.keyToHeltz_in_table double_60_01
                double_60_01_representable
                ltac:(unfold double_60_01; lra)) as H.
  cbv zeta in H. rewrite double_60_01_cents in H.
  destruct H as [Hret [Hoct [Hslot _]]].
  split; [exact Hret |]. split; [exact Hoct | exact Hslot].
Defined.

(** The frequency [update()] finds for a voice with the settings of
    [three_octaves_up]: every pitch generator is 0, so the key is
    [voicePitch_ = 96]. *)
Lemma three_octaves_up_hz (v : RefVoice) (modEnv : RefEnvelope.t)
  (vibLFO modLFO : RefLFO.t) :
  Voice.voicePitch_ v = 96%R ->
  Voice.generators_ v = (fun _ => 0%Z) ->
  Voice.modulations_ v = (fun _ => 0%R) ->
  conv.keyToHeltz conv.tables (Voice.modulated_pitch v modEnv vibLFO modLFO)
  = ret (8 * root_hz)%R.
Proof.
  intros Hpitch Hgen Hmod. rewrite <- keyToHeltz_three_octaves_up. f_equal.
  unfold Voice.modulated_pitch, Voice.getModulatedGenerator, GeneratorSet.getOrDefault.
  rewrite Hpitch, Hgen, Hmod. lra.
Qed.

Lemma eight_frames : Fixed.of_double (1 / root_hz * (8 * root_hz)) = Fixed.of_uint32 8.
Proof.
  replace (1 / root_hz * (8 * root_hz))%R with (IZR 8)
    by (pose proof root_hz_positive; field; lra).
  unfold Fixed.of_double. rewrite <- mult_IZR, ZfloorZ. reflexivity.
Qed.

(** The voice of [looped_phase_escapes_loop], two calls of [update()] on.
    Before the first call and before the second it satisfies what
    [render()] asks: the buffer has 17 frames, [end] is 16, and the phase is
    at frame 11, then at frame 15.  The second call takes it to frame 23,
    takes the loop length off once, and leaves it at frame 19, still
    sounding: [render()] reads [buffer->at(19)] and throws. *)
Lemma render_throws_outside_sample :
  exists v1 v2 : RefVoice,
    Voice.update (three_octaves_up 11) = ret v1 /\
    Voice.update v1 = ret v2 /\
    (RuntimeSample.end_ (Voice.sample_ (three_octaves_up 11))
     < Z.of_nat (length (RuntimeSample.buffer (Voice.sample_ (three_octaves_up 11)))))%Z /\
    Voice.within_sample (three_octaves_up 11) /\
    Voice.sample_ v1 = Voice.sample_ (three_octaves_up 11) /\
    Voice.within_sample v1 /\
    Fixed.getIntegerPart (Voice.phase_ v2) = 19%Z /\
    Voice.isSounding v2 = true /\
    Voice.render v2 = out_of_range.
Proof.
  (* the first call *)
  set (v0 := three_octaves_up 11).
  set (w0 := Voice.rewind_loop
               (Voice.with_phase (Fixed.add (Voice.phase_ v0) (Voice.deltaPhase_ v0)) v0)).
  assert (Hupd0 : Voice.update v0 = Voice.update_oscillators w0)
    by (apply Voice_facts.update_rewinds; reflexivity).
  destruct (Voice_facts.update_oscillators_result w0 (8 * root_hz))
    as [v1 [Hret1 [Hph1 [Hs1 [Hr1 [Henv1 Hdelta1]]]]]];
    [apply three_octaves_up_hz; reflexivity |].
  destruct (Voice_facts.update_oscillators_settings w0) as [v1' [Hret1' [Hset1 _]]].
  rewrite Hret1 in Hret1'. injection Hret1' as <-.
  destruct Hset1 as [_ [Hgen1 [_ [Hmod1 [_ [Hpitch1 [_ [Hfactor1 _]]]]]]]].
  change (Voice.deltaPhaseFactor_ w0) with (1 / root_hz)%R in Hdelta1, Hfactor1.
  rewrite eight_frames in Hdelta1.
  (* the second call *)
  set (w1 := Voice.rewind_loop
               (Voice.with_phase (Fixed.add (Voice.phase_ v1) (Voice.deltaPhase_ v1)) v1)).
  assert (Hfin1 : Envelope.isFinished (Voice.volEnv_ v1) = false)
    by (rewrite Henv1; reflexivity).
  assert (Hupd1 : Voice.update v1 = Voice.update_oscillators w1).
  { apply Voice_facts.update_rewinds.
    - exact Hfin1.
    - rewrite Hs1. reflexivity.
    - rewrite Hr1. reflexivity.
    - rewrite Hs1, Hph1, Hdelta1. vm_compute. reflexivity. }
  destruct (Voice_facts.update_oscillators_result w1 (8 * root_hz))
    as [v2 [Hret2 [Hph2 [Hs2 [Hr2 [Henv2 _]]]]]].
  { apply three_octaves_up_hz.
    - exact Hpitch1.
    - exact Hgen1.
    - exact Hmod1. }
  exists v1, v2.
  split; [rewrite Hupd0; exact Hret1 |].
  split; [rewrite Hupd1; exact Hret2 |].
  split; [vm_compute; reflexivity |].
  split; [unfold Voice.within_sample; vm_compute; split; congruence |].
  split; [rewrite Hs1; reflexivity |].
  split; [unfold Voice.within_sample; rewrite Hph1, Hs1; vm_compute; split; congruence |].
  assert (Hphase2 : Fixed.getIntegerPart (Voice.phase_ v2) = 19%Z).
  { rewrite Hph2. unfold w1. cbn [Voice.rewind_loop Voice.with_phase Voice.phase_ Voice.sample_].
    rewrite Hs1, Hph1, Hdelta1. vm_compute. reflexivity. }
  assert (Hfin2 : Envelope.isFinished (Voice.volEnv_ v2) = false).
  { rewrite Henv2. unfold w1.
    cbn [Voice.rewind_loop Voice.with_phase Voice.volEnv_]. rewrite Henv1. reflexivity. }
  split; [exact Hphase2 |].
  split; [unfold Voice.isSounding; rewrite Hfin2; reflexivity |].
  unfold Voice.render. rewrite Hfin2. cbv zeta. rewrite Hphase2, Hs2.
  unfold w1. cbn [Voice.rewind_loop Voice.with_phase Voice.sample_]. rewrite Hs1.
  reflexivity.
Qed.

(** A real key that is no double: [141 - 2^-60] lies between the largest
    double below 141 and 141.  Its product with 100 rounds to 14100, and
    [keyToHeltz] falls through to 1.0 there, below what it returns at
    key 140: monotonicity below 141 is a fact about doubles. *)
Lemma keyToHeltz_between_doubles :
  conv.keyToHeltz conv.tables (141 - / 1152921504606846976) = ret 1%R.
Proof.
  unfold conv.keyToHeltz.
  destruct (Rlt_dec (141 - / 1152921504606846976) 0) as [Hneg | _]; [lra |].
  apply conv_facts.keyToHeltz_loop_past_top. unfold Binary64.mul.
  set (x := ((141 - / 1152921504606846976) * 100)%R).
  assert (Hbin : (powerRZ 2 13 <= x < powerRZ 2 (13 + 1))%R)
    by (unfold x; simpl; lra).
  rewrite (Binary64_facts.round_in_binade x 13) by (try lia; exact Hbin).
  change (13 - 52)%Z with (Z.opp 39). rewrite Binary64_facts.pow2_neg by lia.
  change (2 ^ 39)%Z with 549755813888%Z.
  rewrite (Binary64_facts.nearest_even_near 7751556975820800).
  - right. field.
  - unfold Rdiv. rewrite Rinv_inv. unfold x.
    replace ((141 - / 1152921504606846976) * 100 * 549755813888 - 7751556975820800)%R
      with (- (25 / 524288))%R by field.
    rewrite Rabs_Ropp, Rabs_pos_eq; lra.
Qed.

End Examples_facts.
